(** * Indexed min-heap with up to 2^32 - 2 elements (heap-uint32.c)

    A shallow embedding of [heap-uint32.c]: a binary min-heap kept in two
    parallel slot arrays (priorities and elements) together with a hash
    table that maps every element block to the slot that holds it.  A
    second part, [HtDivchn], models the division-and-chaining hash table
    declared in [ht-divchn.h] and bounds its load factor.  A third part
    embeds the utility functions of [utilities-ds.c],
    [utilities-rand-uint32.c] and [utilities-rand-uint64.c]: modular
    exponentiation, the odd part of an integer, draws from a range and the
    Miller-Rabin primality test.

    Conventions of the embedding.
    - [uint32_t] values are integers in [Z]; every arithmetic operation of
      the C code is followed by an explicit reduction modulo 2^32.
    - A block of [pty_size] (resp. [elt_size]) bytes is a [list Byte.byte];
      [memcpy] of such a block is a copy of the list.
    - The arrays [ptys] and [elts] are lists of slots; the slot with index
      [i] stands for the bytes at offset [i * pty_size] (resp.
      [i * elt_size]).  An allocation of the code has fewer than 2^32
      bytes, so the offset of a slot inside it is computed without
      wrap-around.  An access outside the allocation is undefined
      behaviour and is reported as [Undef].
    - A failed [assert] is reported as [Fatal].
    - [malloc] and [realloc] may return null.  The answers of the
      allocator to the coming requests are carried by the state, and the
      byte count of a request is the 32-bit product the code computes.
    - Loops carry a fuel argument; exhausting it is reported as [OutOfFuel],
      and the theorems below show that it never happens.
    - Every computation also returns the list of events it performed
      (comparisons, slot exchanges, hash table upserts, loop tests); the
      events are ghost data used to state what the code touches. *)

From Stdlib Require Import ZArith Lia List Permutation Sorted.
From stdpp Require Import base option list countable gmap.

Local Open Scope Z_scope.

(** ** Blocks of bytes *)

Definition block : Type := list Byte.byte.

#[global] Instance byte_eq_dec : EqDecision Byte.byte := Byte.byte_eq_dec.

#[global] Instance byte_countable : Countable Byte.byte :=
  inj_countable Byte.to_N Byte.of_N Byte.of_to_N.

(** ** Unsigned 32-bit arithmetic *)

Definition UINT32_MOD : Z := 2 ^ 32.

Definition u32 (z : Z) : Z := z mod UINT32_MOD.

(** [pow_two_uint64] of utilities-ds.c: [assert(0 <= k && k <= 63)], then
    [1 << k] on 64 bits. *)
Definition pow_two_uint64 (k : Z) : option Z :=
  if (0 <=? k) && (k <=? 63) then Some (Z.shiftl 1 k mod 2 ^ 64) else None.

(** ** Outcomes and events *)

Inductive result (A : Type) : Type :=
| Ok (a : A)
| Fatal      (* a failed assert *)
| Undef      (* an access outside an allocation *)
| OutOfFuel.   (* fuel exhausted *)
Arguments Ok {A} a.
Arguments Fatal {A}.
Arguments Undef {A}.
Arguments OutOfFuel {A}.

Inductive event : Type :=
| EvGuard (i n : Z)        (* loop test of heapify_down at index i, num_elts n *)
| EvCmp (i j : Z)          (* cmp_pty_fn on the priorities of slots i and j *)
| EvSwap (i j : Z)         (* slots i and j exchanged *)
| EvUpsert (k : block) (v : Z). (* hash table insert of key k with value v *)

(** Slots an event reads or writes. *)
Definition event_slots (e : event) : list Z :=
  match e with
  | EvGuard _ _ => []
  | EvCmp i j => [i; j]
  | EvSwap i j => [i; j]
  | EvUpsert _ _ => []
  end.

Definition is_swap (e : event) : bool :=
  match e with EvSwap _ _ => true | _ => false end.

(** ** The heap structure *)

Record heap_uint32_t : Type := mk_heap {
  heap_size : Z;
  heap_max_size : Z;
  num_elts : Z;
  pty_size : Z;
  elt_size : Z;
  ptys : list block;
  elts : list block;
  ht : gmap block Z;
  (* not a member of the C structure: the answers of the allocator to the
     coming calls of malloc and realloc, [true] when the request is
     granted and [false] when null is returned *)
  allocator : list bool
}.

Definition set_heap_size (v : Z) (h : heap_uint32_t) : heap_uint32_t :=
  mk_heap v (heap_max_size h) (num_elts h) (pty_size h) (elt_size h)
          (ptys h) (elts h) (ht h) (allocator h).
Definition set_num_elts (v : Z) (h : heap_uint32_t) : heap_uint32_t :=
  mk_heap (heap_size h) (heap_max_size h) v (pty_size h) (elt_size h)
          (ptys h) (elts h) (ht h) (allocator h).
Definition set_ptys (v : list block) (h : heap_uint32_t) : heap_uint32_t :=
  mk_heap (heap_size h) (heap_max_size h) (num_elts h) (pty_size h)
          (elt_size h) v (elts h) (ht h) (allocator h).
Definition set_elts (v : list block) (h : heap_uint32_t) : heap_uint32_t :=
  mk_heap (heap_size h) (heap_max_size h) (num_elts h) (pty_size h)
          (elt_size h) (ptys h) v (ht h) (allocator h).
Definition set_ht (v : gmap block Z) (h : heap_uint32_t) : heap_uint32_t :=
  mk_heap (heap_size h) (heap_max_size h) (num_elts h) (pty_size h)
          (elt_size h) (ptys h) (elts h) v (allocator h).
Definition set_allocator (v : list bool) (h : heap_uint32_t) : heap_uint32_t :=
  mk_heap (heap_size h) (heap_max_size h) (num_elts h) (pty_size h)
          (elt_size h) (ptys h) (elts h) (ht h) v.

(** ** The state, error and event monad *)

Definition M (A : Type) : Type :=
  heap_uint32_t -> result (A * heap_uint32_t * list event).

Definition ret {A} (a : A) : M A := fun h => Ok (a, h, []).

Definition bind {A B} (m : M A) (f : A -> M B) : M B :=
  fun h =>
    match m h with
    | Ok (a, h1, l1) =>
        match f a h1 with
        | Ok (b, h2, l2) => Ok (b, h2, l1 ++ l2)
        | Fatal => Fatal
        | Undef => Undef
        | OutOfFuel => OutOfFuel
        end
    | Fatal => Fatal
    | Undef => Undef
    | OutOfFuel => OutOfFuel
    end.

Notation "'let*' x ':=' m 'in' k" := (bind m (fun x => k))
  (at level 10, x name, m at level 100, k at level 200,
   format "'[v' 'let*'  x  ':='  m  'in' '/' k ']'").
Notation "m ';;' k" := (bind m (fun _ => k))
  (at level 100, k at level 200, right associativity).

Definition gets {A} (f : heap_uint32_t -> A) : M A := fun h => Ok (f h, h, []).
Definition modify (f : heap_uint32_t -> heap_uint32_t) : M unit :=
  fun h => Ok (tt, f h, []).
Definition emit (e : event) : M unit := fun h => Ok (tt, h, [e]).
Definition fatal {A} : M A := fun _ => Fatal.
Definition undef {A} : M A := fun _ => Undef.
Definition out_of_fuel {A} : M A := fun _ => OutOfFuel.

(** [assert(b)] *)
Definition assert (b : bool) : M unit := if b then ret tt else fatal.

(** ** Slot arrays *)

(** The slot with index [i] of an array, when it lies inside the
    allocation. *)
Definition slot {A} (l : list A) (i : Z) : option A := l !! Z.to_nat i.

(** Total reading of a slot, used in specifications only. *)
Definition sel (l : list block) (i : Z) : block := default [] (slot l i).

Definition upd {A} (l : list A) (i : Z) (x : A) : list A :=
  <[Z.to_nat i := x]> l.

(** [memcpy(buf, elt_ptr(h, i), h->elt_size)] *)
Definition load_elt (i : Z) : M block :=
  fun h => match slot (elts h) i with
           | Some b => Ok (b, h, [])
           | None => Undef
           end.

(** [memcpy(buf, pty_ptr(h, i), h->pty_size)] *)
Definition load_pty (i : Z) : M block :=
  fun h => match slot (ptys h) i with
           | Some b => Ok (b, h, [])
           | None => Undef
           end.

(** [memcpy(elt_ptr(h, i), buf, h->elt_size)] *)
Definition store_elt (i : Z) (b : block) : M unit :=
  fun h => match slot (elts h) i with
           | Some _ => Ok (tt, set_elts (upd (elts h) i b) h, [])
           | None => Undef
           end.

(** [memcpy(pty_ptr(h, i), buf, h->pty_size)] *)
Definition store_pty (i : Z) (b : block) : M unit :=
  fun h => match slot (ptys h) i with
           | Some _ => Ok (tt, set_ptys (upd (ptys h) i b) h, [])
           | None => Undef
           end.

(** ** The allocator *)

(** The byte count of a request for [count] slots of [width] bytes: the
    product [count * width] of a [uint32_t] and an [int], computed on 32
    bits. *)
Definition alloc_bytes (count width : Z) : Z := u32 (count * width).

(** The whole slots of [width] bytes inside an allocation of
    [alloc_bytes count width] bytes.  A slot of no bytes lies inside any
    allocation; with a negative [width] no slot can be copied, [memcpy]
    reading the width as a size. *)
Definition alloc_slots (count width : Z) : Z :=
  if width =? 0 then count else alloc_bytes count width / width.

(** The array after a granted [realloc] of [count * width] bytes: the
    slots that lie inside the new allocation are kept, the new ones hold
    indeterminate bytes, modelled as zero bytes.  [malloc] is the case of
    an array without slots. *)
Definition realloc (width : Z) (count : Z) (l : list block) : list block :=
  resize (Z.to_nat (alloc_slots count width))
         (replicate (Z.to_nat width) Byte.x00) l.

(** One call of [malloc] or [realloc]: the next answer of the allocator,
    [false] standing for a null pointer.  Past the end of the list every
    request is refused. *)
Definition request : M bool :=
  fun h => match allocator h with
           | a :: m => Ok (a, set_allocator m h, [])
           | [] => Ok (false, h, [])
           end.

(** ** The hash table of the heap *)

(** Modelled from the spec: ht-div-uint32.c is not part of the sources at
    hand.  Its insert is an upsert (a present key gets the new value, an
    absent key is added), its search returns the stored value or null,
    and its remove drops the key and hands back the stored value.  The
    table is taken as a finite map: the memory it allocates for its own
    nodes is outside the model. *)
Definition ht_div_uint32_insert (k : block) (v : Z) : M unit :=
  emit (EvUpsert k v) ;;
  modify (fun h => set_ht (<[k := v]> (ht h)) h).

Definition ht_div_uint32_search (k : block) : M (option Z) :=
  gets (fun h => ht h !! k).

Definition ht_div_uint32_remove (k : block) : M (option Z) :=
  let* v := gets (fun h => ht h !! k) in
  modify (fun h => set_ht (delete k (ht h)) h) ;;
  ret v.

Section Heap.

(** The comparison function [cmp_pty_fn] stored in the heap structure. *)
Variable cmp_pty_fn : block -> block -> Z.

(** [h->cmp_pty_fn(pty_ptr(h, i), pty_ptr(h, j))] *)
Definition cmp_pty (i j : Z) : M Z :=
  let* a := load_pty i in
  let* b := load_pty j in
  emit (EvCmp i j) ;;
  ret (cmp_pty_fn a b).

(** [swap]: exchanges elements and priorities at indices [i] and [j]. *)
Definition swap (i j : Z) : M unit :=
  if i =? j then ret tt
  else
    let* buffer_elt := load_elt i in
    let* ej := load_elt j in
    store_elt i ej ;;
    store_elt j buffer_elt ;;
    let* buffer_pty := load_pty i in
    let* pj := load_pty j in
    store_pty i pj ;;
    store_pty j buffer_pty ;;
    emit (EvSwap i j) ;;
    let* ei := load_elt i in
    ht_div_uint32_insert ei i ;;
    let* ej' := load_elt j in
    ht_div_uint32_insert ej' j.

(** [heap_grow]: doubles the size of a heap up to the maximal heap size.
    Each [realloc] asks for [heap_size * elt_size] (resp. [pty_size])
    bytes and is followed by the assertion that its result is not
    null. *)
Definition heap_grow : M unit :=
  let* hs := gets heap_size in
  let* hm := gets heap_max_size in
  assert (hs <? hm) ;;
  (if u32 (hm - hs) <? hs
   then modify (set_heap_size hm)
   else modify (set_heap_size (u32 (hs * 2)))) ;;
  let* elts_granted := request in
  assert elts_granted ;;
  modify (fun h => set_elts (realloc (elt_size h) (heap_size h) (elts h)) h) ;;
  let* ptys_granted := request in
  assert ptys_granted ;;
  modify (fun h => set_ptys (realloc (pty_size h) (heap_size h) (ptys h)) h).

(** The [while] loop of [heapify_up]. *)
Fixpoint heapify_up_loop (fuel : nat) (i : Z) : M unit :=
  if 0 <? i then
    match fuel with
    | O => out_of_fuel
    | S fuel' =>
        let ju := u32 (i - 1) / 2 in
        let* c := cmp_pty ju i in
        if 0 <? c then swap i ju ;; heapify_up_loop fuel' ju
        else ret tt
    end
  else ret tt.

(** [heapify_up]: heapifies from the ith element upwards. *)
Definition heapify_up (i : Z) : M unit :=
  heapify_up_loop (Z.to_nat i) i.

(** The [while] loop of [heapify_down]; returns the value of [i] at the
    exit of the loop. *)
Fixpoint heapify_down_loop (fuel : nat) (i : Z) : M Z :=
  let* n := gets num_elts in
  emit (EvGuard i n) ;;
  if u32 (i + 2) <=? u32 (u32 (n - 1) - i) then
    match fuel with
    | O => out_of_fuel
    | S fuel' =>
        let jl := u32 (2 * i + 1) in
        let jr := u32 (2 * i + 2) in
        let* c1 := cmp_pty i jl in
        let* left :=
          (if 0 <? c1
           then let* c2 := cmp_pty jl jr in ret (c2 <=? 0)
           else ret false) in
        if left then swap i jl ;; heapify_down_loop fuel' jl
        else
          let* c3 := cmp_pty i jr in
          if 0 <? c3 then swap i jr ;; heapify_down_loop fuel' jr
          else ret i
    end
  else ret i.

(** [heapify_down]: heapifies from the ith element downwards. *)
Definition heapify_down (i : Z) : M unit :=
  let* n := gets num_elts in
  assert ((0 <? n) && (i <? n)) ;;
  let* i' := heapify_down_loop (Z.to_nat (n - i)) i in
  let* n' := gets num_elts in
  if u32 (i' + 1) =? u32 (u32 (n' - 1) - i') then
    let jl := u32 (2 * i' + 1) in
    let* c := cmp_pty i' jl in
    if 0 <? c then swap i' jl else ret tt
  else ret tt.

(** [heap_uint32_push] *)
Definition heap_uint32_push (pty elt : block) : M unit :=
  let* hs := gets heap_size in
  let* n := gets num_elts in
  (if hs =? n then heap_grow else ret tt) ;;
  let* ix := gets num_elts in
  store_elt ix elt ;;
  store_pty ix pty ;;
  ht_div_uint32_insert elt ix ;;
  modify (fun h => set_num_elts (u32 (num_elts h + 1)) h) ;;
  heapify_up ix.

(** [heap_uint32_search]: the returned pointer [pty_ptr(h, ix)] is
    represented by the slot index [ix]; null is [None]. *)
Definition heap_uint32_search (elt : block) : M (option Z) :=
  let* ix_ptr := ht_div_uint32_search elt in
  match ix_ptr with
  | Some ix => ret (Some ix)
  | None => ret None
  end.

(** [heap_uint32_update] *)
Definition heap_uint32_update (pty elt : block) : M unit :=
  let* ix_ptr := ht_div_uint32_search elt in
  match ix_ptr with
  | None => fatal
  | Some ix =>
      store_pty ix pty ;;
      heapify_up ix ;;
      heapify_down ix
  end.

(** [heap_uint32_pop]: [pty] and [elt] are the contents of the two out
    blocks before the call, the result is their contents after it. *)
Definition heap_uint32_pop (pty elt : block) : M (block * block) :=
  let* n := gets num_elts in
  if n =? 0 then ret (pty, elt)
  else
    let ix := 0 in
    let* elt' := load_elt ix in
    let* pty' := load_pty ix in
    let* n1 := gets num_elts in
    swap ix (u32 (n1 - 1)) ;;
    ht_div_uint32_remove elt' ;;
    modify (fun h => set_num_elts (u32 (num_elts h - 1)) h) ;;
    let* n2 := gets num_elts in
    (if 0 <? n2 then heapify_down ix else ret tt) ;;
    ret (pty', elt').

(** Popping until the heap is empty; the priorities and elements are
    collected in the order of the pops. *)
Fixpoint pop_all (fuel : nat) (pty elt : block) : M (list (block * block)) :=
  let* n := gets num_elts in
  if n =? 0 then ret []
  else
    match fuel with
    | O => out_of_fuel
    | S fuel' =>
        let* pe := heap_uint32_pop pty elt in
        let* rest := pop_all fuel' (fst pe) (snd pe) in
        ret (pe :: rest)
    end.

End Heap.

(** [heap_uint32_init]; [mem] holds the answers of the allocator from
    the first [malloc] of the function on.  After the assertion on the
    size, the priorities are allocated with
    [malloc(init_heap_size * pty_size)], the elements with
    [malloc(init_heap_size * elt_size)] and the hash table structure with
    [malloc(sizeof(ht_div_uint32_t))]; each call is followed by the
    assertion that its result is not null.  The hash table starts
    empty. *)
Definition heap_uint32_init (mem : list bool) (init_heap_size pty_sz elt_sz : Z)
  : result heap_uint32_t :=
  match pow_two_uint64 32 with
  | None => Fatal
  | Some p =>
      let hmax := u32 (p - 2) in
      if init_heap_size <=? hmax
      then
        match mem with
        | true :: mem1 =>
            let ptys0 := realloc pty_sz init_heap_size [] in
            match mem1 with
            | true :: mem2 =>
                let elts0 := realloc elt_sz init_heap_size [] in
                match mem2 with
                | true :: mem3 =>
                    Ok (mk_heap init_heap_size hmax 0 pty_sz elt_sz
                          ptys0 elts0 ∅ mem3)
                | _ => Fatal
                end
            | _ => Fatal
            end
        | _ => Fatal
        end
      else Fatal
  end.

(** The [for] loop of [heap_uint32_free]: the blocks of the slots passed
    to [free_elt_fn], in the order of the calls. *)
Fixpoint free_loop (fuel : nat) (i : Z) : M (list block) :=
  let* n := gets num_elts in
  if i <? n then
    match fuel with
    | O => out_of_fuel
    | S fuel' =>
        let* e := load_elt i in
        let* rest := free_loop fuel' (u32 (i + 1)) in
        ret (e :: rest)
    end
  else ret [].

(** [heap_uint32_free]: [has_free_elt_fn] tells whether [free_elt_fn] is
    not null; the result lists the blocks passed to [free_elt_fn], and
    the two arrays and the hash table are released. *)
Definition heap_uint32_free (has_free_elt_fn : bool) : M (list block) :=
  let* freed :=
    (if has_free_elt_fn
     then let* n := gets num_elts in free_loop (Z.to_nat n) 0
     else ret []) in
  modify (set_elts []) ;;
  modify (set_ptys []) ;;
  modify (set_ht ∅) ;;
  ret freed.

(** * Utility functions *)

(** The utilities are written on [uint32_t] and [uint64_t]; a 64-bit
    operation is followed by a reduction modulo 2^64. *)
Definition u64 (z : Z) : Z := z mod 2 ^ 64.

(** ** The generator *)

(** [RAND_MAX] of the C library the code is written for; the code checks
    the value before it draws. *)
Definition RAND_MAX : Z := 2147483647.

(** A computation that draws from the generator: the state is the list of
    the values that the next calls of [random()] return, each in
    [0, RAND_MAX].  A draw from the empty list ends the run with
    [OutOfFuel]. *)
Definition G (A : Type) : Type := list Z -> result (A * list Z).

Definition gret {A} (a : A) : G A := fun s => Ok (a, s).

Definition gbind {A B} (m : G A) (f : A -> G B) : G B :=
  fun s =>
    match m s with
    | Ok (a, s') => f a s'
    | Fatal => Fatal
    | Undef => Undef
    | OutOfFuel => OutOfFuel
    end.

Notation "'let+' x ':=' m 'in' k" := (gbind m (fun x => k))
  (at level 10, x name, m at level 100, k at level 200,
   format "'[v' 'let+'  x  ':='  m  'in' '/' k ']'").

Definition gfatal {A} : G A := fun _ => Fatal.
Definition gundef {A} : G A := fun _ => Undef.

(** [random()] *)
Definition random : G Z :=
  fun s => match s with
           | [] => OutOfFuel
           | v :: s' => Ok (v, s')
           end.

(** The rejection loop [while (ret > bound) ret = random();] on a
    [uint32_t] value, as written in [random_range_helper] of
    utilities-ds.c and in [random_gen_range] of utilities-rand-uint32.c
    and utilities-rand-uint64.c. *)
Fixpoint redraw (bound ret : Z) (s : list Z) : result (Z * list Z) :=
  if bound <? ret then
    match s with
    | [] => OutOfFuel
    | v :: s' => redraw bound (u32 v) s'
    end
  else Ok (ret, s).

(** ** utilities-ds.c *)

Module UtilitiesDs.

(** [random_range_helper]; [rand_max % n] with [n == 0] is undefined. *)
Definition random_range_helper (n : Z) : G Z :=
  if n =? 0 then gundef
  else
    let rand_max := u32 RAND_MAX in
    if rand_max mod n =? u32 (n - 1) then
      let+ r := random in
      gret (u32 (r mod n))
    else
      let cut := u32 (rand_max mod n + 1) in
      let+ r := random in
      let+ rand_num := redraw (u32 (rand_max - cut)) (u32 r) in
      gret (rand_num mod n).

(** [random_range_uint32]: the two assertions, then one draw, or two
    draws that are added. *)
Definition random_range_uint32 (n : Z) : G Z :=
  if negb (RAND_MAX =? 2147483647) then gfatal
  else if negb (0 <? n) then gfatal
  else
    let rand_max := u32 RAND_MAX in
    if u32 (n - 1) <=? rand_max then random_range_helper n
    else
      let upper := u32 (rand_max + 1) in
      let+ ret := random_range_helper upper in
      let upper := u32 (n - rand_max) in
      let+ ret2 := random_range_helper upper in
      gret (u32 (ret + ret2)).

(** The [while (k)] loop of [pow_mod_uint32]; [new_a], [new_n] and [ret]
    are [uint64_t], [k] is [uint32_t]. *)
Fixpoint pow_mod_loop (fuel : nat) (k new_a new_n ret : Z) : result Z :=
  if k =? 0 then Ok ret
  else
    match fuel with
    | O => OutOfFuel
    | S fuel' =>
        let ret' :=
          if Z.land k 1 =? 0 then ret else u64 (ret * new_a) mod new_n in
        let new_a' := u64 (new_a * new_a) mod new_n in
        pow_mod_loop fuel' (Z.shiftr k 1) new_a' new_n ret'
    end.

(** [pow_mod_uint32]: [assert(n > 0)], the early return for [k == 0], the
    loop, and the final [assert(ret < pow_two_uint64(32))]. *)
Definition pow_mod_uint32 (a k n : Z) : result Z :=
  if negb (0 <? n) then Fatal
  else if k =? 0 then Ok (1 mod n)
  else
    match pow_mod_loop 32 k (a mod n) n 1 with
    | Ok ret =>
        match pow_two_uint64 32 with
        | Some p => if ret <? p then Ok (u32 ret) else Fatal
        | None => Fatal
        end
    | Fatal => Fatal
    | Undef => Undef
    | OutOfFuel => OutOfFuel
    end.

(** The [while (shift_n)] loop of [represent_uint64]. *)
Fixpoint represent_loop (fuel : nat) (c shift_n : Z) : result Z :=
  if shift_n =? 0 then Ok c
  else
    match fuel with
    | O => OutOfFuel
    | S fuel' => represent_loop fuel' (c + 1) (u64 (Z.shiftl shift_n 1))
    end.

(** [represent_uint64]: the pair [(k, u)] written through the two out
    pointers.  A right shift of a 64-bit value by 64 is undefined. *)
Definition represent_uint64 (n : Z) : result (Z * Z) :=
  match represent_loop 64 0 n with
  | Ok c =>
      let k := 64 - c in
      if k <? 64 then Ok (k, Z.shiftr n k) else Undef
  | Fatal => Fatal
  | Undef => Undef
  | OutOfFuel => OutOfFuel
  end.

End UtilitiesDs.

(** ** utilities-rand-uint32.c *)

Module RandUint32.

(** [random_gen_range]; the first test is the check of [RAND_MAX] that
    ends the program with an error message. *)
Definition random_gen_range (n : Z) : G Z :=
  if negb (u32 RAND_MAX =? 2147483647) then gfatal
  else if n =? 0 then gundef
  else
    let rem := u32 RAND_MAX mod n in
    let+ ret :=
      (if rem =? u32 (n - 1) then
         let+ r := random in gret (u32 r)
       else
         let+ r := random in
         redraw (u32 (u32 (u32 RAND_MAX - rem) - 1)) (u32 r)) in
    gret (if u32 (n - 1) <? ret then ret mod n else ret).

End RandUint32.

(** ** utilities-rand-uint64.c *)

Module RandUint64.

Definition FULL_BIT_COUNT : Z := 64.
Definition HALF_BIT_COUNT : Z := 32.
Definition HIGH_MASK : Z := 13835058055282163712.
Definition MID_MASK : Z := 4611686016279904256.
Definition RAND_MAX_UINT64_TEST : Z := 2147483647.
Definition RAND_MAX_UINT64 : Z := RAND_MAX.
Definition COMPOSITE_TRIALS : nat := 50.

(** A shift of a [uint64_t]; a shift count of 64 or more is undefined. *)
Definition shl64 (x c : Z) : G Z :=
  if c <? 64 then gret (u64 (Z.shiftl x c)) else gundef.

Definition shr64 (x c : Z) : G Z :=
  if c <? 64 then gret (Z.shiftr x c) else gundef.

(** [random_mod_pow_two] *)
Definition random_mod_pow_two (k : Z) : G Z :=
  let+ r := random in
  let ret := u64 r in
  if k <? HALF_BIT_COUNT then
    shr64 ret (u64 (u64 (HALF_BIT_COUNT - k) - 1))
  else if k <? FULL_BIT_COUNT - 1 then
    let+ r := random in
    let+ n := shl64 (u64 r) (u64 (k - (HALF_BIT_COUNT - 1))) in
    let n := Z.land n MID_MASK in
    gret (Z.lor ret n)
  else
    let+ r := random in
    let+ n := shl64 (u64 r) (HALF_BIT_COUNT - 1) in
    let ret := Z.lor ret n in
    let+ r := random in
    let+ n := shl64 (u64 r) (u64 (k - (HALF_BIT_COUNT - 1))) in
    let n := Z.land n HIGH_MASK in
    gret (Z.lor ret n).

(** [random_gen_range] *)
Definition random_gen_range (n : Z) : G Z :=
  if n =? 0 then gundef
  else
    let rem := u32 RAND_MAX_UINT64 mod n in
    let+ r := random in
    let+ ret :=
      (if rem <? u32 (n - 1)
       then redraw (u32 (u32 (u32 RAND_MAX_UINT64 - rem) - 1)) (u32 r)
       else gret (u32 r)) in
    gret (if u32 (n - 1) <? ret then ret mod n else ret).

(** The loop [while (n_max){n_max >>= 1; k++;}] of [random_range_uint64]. *)
Fixpoint count_bits (fuel : nat) (n_max k : Z) : result Z :=
  if n_max =? 0 then Ok k
  else
    match fuel with
    | O => OutOfFuel
    | S fuel' => count_bits fuel' (Z.shiftr n_max 1) (u64 (k + 1))
    end.

(** The loop [while (ret > n - 1) ret = random_mod_pow_two(k);]; every
    round draws at least one value, so the length of the list of
    generator values bounds the number of rounds. *)
Fixpoint retry (fuel : nat) (n k ret : Z) : G Z :=
  if u64 (n - 1) <? ret then
    match fuel with
    | O => fun _ => OutOfFuel
    | S fuel' =>
        let+ ret' := random_mod_pow_two k in
        retry fuel' n k ret'
    end
  else gret ret.

(** [random_range_uint64] *)
Definition random_range_uint64 (n : Z) : G Z :=
  if negb (RAND_MAX_UINT64 =? RAND_MAX_UINT64_TEST) then gfatal
  else if n <=? u64 (RAND_MAX_UINT64 + 1) then random_gen_range (u32 n)
  else
    let n_max := Z.shiftr (u64 (n - 1)) HALF_BIT_COUNT in
    match count_bits 64 n_max HALF_BIT_COUNT with
    | Ok k =>
        let+ ret := random_mod_pow_two k in
        fun s => retry (length s) n k ret s
    | Fatal => gfatal
    | Undef => gundef
    | OutOfFuel => fun _ => OutOfFuel
    end.

(** [random_uint64] *)
Definition random_uint64 : G Z :=
  if negb (RAND_MAX_UINT64 =? RAND_MAX_UINT64_TEST) then gfatal
  else random_mod_pow_two FULL_BIT_COUNT.

(** The loop [while (shift_n){c++; shift_n <<= 1;}] of
    [represent_uint64]. *)
Fixpoint represent_loop (fuel : nat) (c shift_n : Z) : result Z :=
  if shift_n =? 0 then Ok c
  else
    match fuel with
    | O => OutOfFuel
    | S fuel' => represent_loop fuel' (u64 (c + 1)) (u64 (Z.shiftl shift_n 1))
    end.

(** [represent_uint64]: the pair [(k, u)] written through the two out
    pointers. *)
Definition represent_uint64 (n : Z) : result (Z * Z) :=
  match represent_loop 64 0 n with
  | Ok c =>
      let k := u64 (FULL_BIT_COUNT - c) in
      if k <? 64 then Ok (k, Z.shiftr n k) else Undef
  | Fatal => Fatal
  | Undef => Undef
  | OutOfFuel => OutOfFuel
  end.

Section Primality.

(** [pow_mod] of utilities-mod.c is not part of the sources at hand; the
    primality test takes it as a parameter. *)
Variable pow_mod : Z -> Z -> Z -> Z.

(** The [for] loop of [witness]: [inl r] is a [return r] from inside the
    loop, [inr x1] is the value of [x[1]] at the exit of the loop. *)
Fixpoint witness_loop (fuel : nat) (i t n x0 x1 : Z) : result (Z + Z) :=
  if i <? t then
    match fuel with
    | O => OutOfFuel
    | S fuel' =>
        if (x1 =? 1) && negb ((x0 =? 1) || (x0 =? u64 (n - 1)))
        then Ok (inl 1)
        else if i <? u64 (t - 1)
             then witness_loop fuel' (u64 (i + 1)) t n x1 (pow_mod x1 2 n)
             else witness_loop fuel' (u64 (i + 1)) t n x0 x1
    end
  else Ok (inr x1).

(** [witness] *)
Definition witness (a n : Z) : result Z :=
  match represent_uint64 (u64 (n - 1)) with
  | Ok (t, u) =>
      let x0 := pow_mod a u n in
      let x1 := pow_mod x0 2 n in
      match witness_loop (Z.to_nat t) 0 t n x0 x1 with
      | Ok (inl r) => Ok r
      | Ok (inr x1') => if negb (x1' =? 1) then Ok 1 else Ok 0
      | Fatal => Fatal
      | Undef => Undef
      | OutOfFuel => OutOfFuel
      end
  | Fatal => Fatal
  | Undef => Undef
  | OutOfFuel => OutOfFuel
  end.

(** [composite]: the [for] loop over [trials]. *)
Fixpoint composite (n : Z) (trials : nat) : G Z :=
  match trials with
  | O => gret 0
  | S trials' =>
      let upper := u64 (n - 2) in
      let+ r := random_range_uint64 upper in
      let a := u64 (2 + r) in
      match witness a n with
      | Ok w => if negb (w =? 0) then gret 1 else composite n trials'
      | Fatal => gfatal
      | Undef => gundef
      | OutOfFuel => fun _ => OutOfFuel
      end
  end.

(** [miller_rabin_uint64] *)
Definition miller_rabin_uint64 (n : Z) : G Z :=
  if n =? 2 then gret 1
  else if (n =? 1) || (Z.land n 1 =? 0) then gret 0
  else
    let+ c := composite n COMPOSITE_TRIALS in
    if negb (c =? 0) then gret 0 else gret 1.

End Primality.

End RandUint64.

(** * Specification vocabulary *)

(** The exchange of two slots. *)
Definition exch (l : list block) (i j : Z) : list block :=
  upd (upd l i (sel l j)) j (sel l i).

(** [wp F m Q h]: running [m] from [h] does not hit undefined behaviour
    and does not run out of fuel; if it ends normally the outcome
    satisfies [Q], and if an assertion aborts the program then [F]
    holds.  With [F := False] the run ends normally. *)
Definition wp (F : Prop) {A} (m : M A)
    (Q : A -> heap_uint32_t -> list event -> Prop) (h : heap_uint32_t) : Prop :=
  match m h with
  | Ok (a, h', l) => Q a h' l
  | Fatal => F
  | Undef => False
  | OutOfFuel => False
  end.

(** The state after [swap(h, i, j)] for two distinct slots. *)
Definition swapped (h : heap_uint32_t) (i j : Z) : heap_uint32_t :=
  set_ht (<[sel (elts h) i := j]> (<[sel (elts h) j := i]> (ht h)))
    (set_ptys (exch (ptys h) i j) (set_elts (exch (elts h) i j) h)).

(** The counters are consistent and the slots of the heap lie inside the
    two arrays. *)
Definition wf (h : heap_uint32_t) : Prop :=
  0 <= num_elts h <= heap_size h /\
  0 < heap_size h <= heap_max_size h /\
  heap_max_size h = 4294967294 /\
  num_elts h <= Z.of_nat (length (ptys h)) /\
  num_elts h <= Z.of_nat (length (elts h)).

(** Every entry of the hash table points to a slot of the heap that holds
    its key. *)
Definition index_sound (h : heap_uint32_t) : Prop :=
  forall e i, ht h !! e = Some i -> 0 <= i < num_elts h /\ sel (elts h) i = e.

(** Every element of the heap is a key of the hash table, mapped to its
    slot. *)
Definition index_complete (h : heap_uint32_t) : Prop :=
  forall i, 0 <= i < num_elts h -> ht h !! sel (elts h) i = Some i.

(** [h'] is [h] up to the order of the slots of the heap. *)
Inductive swaps (h : heap_uint32_t) : heap_uint32_t -> Prop :=
| swaps_refl : swaps h h
| swaps_step h' i j :
    swaps h h' -> 0 <= i < num_elts h' -> 0 <= j < num_elts h' -> i <> j ->
    swaps h (swapped h' i j).

(** The priorities present in the heap. *)
Definition holds_pty (h : heap_uint32_t) (p : block) : Prop :=
  exists k, 0 <= k < num_elts h /\ sel (ptys h) k = p.

(** The parent slot of slot [k]. *)
Definition parent (k : Z) : Z := (k - 1) / 2.

(** A pass performs motion when it exchanges two slots at least once. *)
Definition has_swap (l : list event) : bool := existsb is_swap l.

(** The number of slot exchanges in a trace. *)
Definition swap_count (l : list event) : Z :=
  Z.of_nat (length (List.filter is_swap l)).

(** An event stays inside a heap of [n] elements: the slots it touches
    have an index below [n], and the operands [i + 2] and [n - 1 - i] of
    a loop test are computed without wrap-around. *)
Definition event_in_bounds (n : Z) (e : event) : Prop :=
  match e with
  | EvGuard i n' =>
      n' = n /\ 0 <= i /\ u32 (i + 2) = i + 2 /\
      u32 (n - 1) = n - 1 /\ u32 (u32 (n - 1) - i) = n - 1 - i
  | EvCmp i j => 0 <= i < n /\ 0 <= j < n
  | EvSwap i j => 0 <= i < n /\ 0 <= j < n
  | EvUpsert _ v => 0 <= v < n
  end.

(** The capacity chosen by [heap_grow]. *)
Definition grown_size (h : heap_uint32_t) : Z :=
  if heap_max_size h - heap_size h <? heap_size h
  then heap_max_size h
  else heap_size h * 2.

(** The state after a [heap_grow] whose two requests are granted. *)
Definition grown (h : heap_uint32_t) : heap_uint32_t :=
  set_ptys (realloc (pty_size h) (grown_size h) (ptys h))
    (set_elts (realloc (elt_size h) (grown_size h) (elts h))
       (set_allocator (drop 2 (allocator h))
          (set_heap_size (grown_size h) h))).

(** The allocator grants the two requests of [heap_grow]. *)
Definition grants_growth (h : heap_uint32_t) : Prop :=
  take 2 (allocator h) = [true; true].

(** The byte counts of two arrays of [n] slots are computed without
    wrap-around, the widths of the slots being not negative. *)
Definition fits (h : heap_uint32_t) (n : Z) : Prop :=
  0 <= pty_size h /\ 0 <= elt_size h /\
  n * pty_size h < 2 ^ 32 /\ n * elt_size h < 2 ^ 32.

(** The two arrays hold the slots of their last allocation. *)
Definition sized (h : heap_uint32_t) : Prop :=
  length (ptys h) = Z.to_nat (alloc_slots (heap_size h) (pty_size h)) /\
  length (elts h) = Z.to_nat (alloc_slots (heap_size h) (elt_size h)).

(** No room is left and the capacity cannot grow. *)
Definition at_capacity (h : heap_uint32_t) : Prop :=
  num_elts h = heap_size h /\ heap_max_size h <= heap_size h.

(** The heap once room for one more slot is ensured. *)
Definition push_room (h : heap_uint32_t) : heap_uint32_t :=
  if heap_size h =? num_elts h then grown h else h.

(** The capacity a push works with: the grown capacity when the heap is
    full. *)
Definition push_size (h : heap_uint32_t) : Z :=
  if heap_size h =? num_elts h then grown_size h else heap_size h.

(** The push aborts: the capacity cannot grow, or a request of
    [heap_grow] is refused. *)
Definition push_aborts (h : heap_uint32_t) : Prop :=
  at_capacity h \/ (heap_size h = num_elts h /\ ~ grants_growth h).

(** The slot a push writes lies inside the two arrays. *)
Definition room (h : heap_uint32_t) : Prop :=
  num_elts h < Z.of_nat (length (ptys (push_room h))) /\
  num_elts h < Z.of_nat (length (elts (push_room h))).

(** The state of [heap_uint32_push] just before [heapify_up]. *)
Definition pushed (h : heap_uint32_t) (p e : block) : heap_uint32_t :=
  let g := push_room h in
  set_num_elts (num_elts h + 1)
    (set_ht (<[e := num_elts h]> (ht g))
       (set_ptys (upd (ptys g) (num_elts h) p)
          (set_elts (upd (elts g) (num_elts h) e) g))).

(** The heap once the priority of slot [ix] is overwritten with [p]. *)
Definition updated (h : heap_uint32_t) (ix : Z) (p : block) : heap_uint32_t :=
  set_ptys (upd (ptys h) ix p) h.

(** The heap once the root is exchanged with the last slot. *)
Definition pop_swap (h : heap_uint32_t) : heap_uint32_t :=
  if 0 =? num_elts h - 1 then h else swapped h 0 (num_elts h - 1).

(** The state of [heap_uint32_pop] just before [heapify_down]. *)
Definition pop_cut (h : heap_uint32_t) : heap_uint32_t :=
  set_num_elts (num_elts h - 1)
    (set_ht (delete (sel (elts h) 0) (ht (pop_swap h))) (pop_swap h)).

(** The (priority, element) pairs of the heap, by slot. *)
Definition contents (h : heap_uint32_t) : list (block * block) :=
  take (Z.to_nat (num_elts h)) (zip (ptys h) (elts h)).

(** The (priority, element) pairs present in the heap. *)
Definition holds (h : heap_uint32_t) (p e : block) : Prop :=
  exists k, 0 <= k < num_elts h /\ sel (ptys h) k = p /\ sel (elts h) k = e.

Section Spec.

(** The comparison function [cmp_pty_fn] stored in the heap structure. *)
Variable cmp_pty_fn : block -> block -> Z.

(** The heap-order invariant: no priority is lower than the priority of
    the parent slot. *)
Definition heap_order (h : heap_uint32_t) : Prop :=
  forall k, 0 < k < num_elts h ->
    cmp_pty_fn (sel (ptys h) k) (sel (ptys h) (parent k)) >= 0.

(** The first priority is not greater than the second. *)
Definition le_pty (a b : block) : Prop := cmp_pty_fn a b <= 0.

(** Slot [k] is in order with its parent. *)
Definition ord (h : heap_uint32_t) (k : Z) : Prop :=
  le_pty (sel (ptys h) (parent k)) (sel (ptys h) k).

(** Heap order, stated with [le_pty]. *)
Definition heap_le (h : heap_uint32_t) : Prop :=
  forall k, 0 < k < num_elts h -> ord h k.

(** The parent of [i] is in order with the children of [i]. *)
Definition grand (h : heap_uint32_t) (i : Z) : Prop :=
  0 < i -> forall c, 0 < c < num_elts h -> parent c = i ->
    le_pty (sel (ptys h) (parent i)) (sel (ptys h) c).

(** Heap order holds except between [i] and its parent. *)
Definition up_inv (h : heap_uint32_t) (i : Z) : Prop :=
  (forall k, 0 < k < num_elts h -> k <> i -> ord h k) /\ grand h i.

(** Heap order holds except between [i] and its children. *)
Definition down_inv (h : heap_uint32_t) (i : Z) : Prop :=
  (forall k, 0 < k < num_elts h -> parent k <> i -> ord h k) /\ grand h i.

(** Heap order holds except between [i] and its neighbours. *)
Definition hole_inv (h : heap_uint32_t) (i : Z) : Prop :=
  (forall k, 0 < k < num_elts h -> k <> i -> parent k <> i -> ord h k) /\
  grand h i.

(** What the loop of [heapify_down] establishes when it ends at [i']. *)
Definition down_post (h : heap_uint32_t) (i' : Z) (h' : heap_uint32_t) : Prop :=
  swaps h h' /\ 0 <= i' < num_elts h /\
  ((i' + 2 <= num_elts h - 1 - i' /\ heap_le h') \/
   (~ i' + 2 <= num_elts h - 1 - i' /\ down_inv h' i')).

(** The heaps obtained from [heap_uint32_init] (with a positive initial
    size, as its documentation asks, and any answers of the allocator) by
    pushes, updates and pops that return. *)
Inductive reachable : heap_uint32_t -> Prop :=
| reach_init mem n ps es h :
    0 < n -> heap_uint32_init mem n ps es = Ok h -> reachable h
| reach_push h p e h' l :
    reachable h -> heap_uint32_push cmp_pty_fn p e h = Ok (tt, h', l) ->
    reachable h'
| reach_update h p e h' l :
    reachable h -> heap_uint32_update cmp_pty_fn p e h = Ok (tt, h', l) ->
    reachable h'
| reach_pop h pb eb out h' l :
    reachable h -> heap_uint32_pop cmp_pty_fn pb eb h = Ok (out, h', l) ->
    reachable h'.

(** The heaps built from an empty heap by pushes and updates only. *)
Inductive built : heap_uint32_t -> Prop :=
| built_init mem n ps es h :
    0 < n -> heap_uint32_init mem n ps es = Ok h -> built h
| built_push h p e h' l :
    built h -> heap_uint32_push cmp_pty_fn p e h = Ok (tt, h', l) ->
    built h'
| built_update h p e h' l :
    built h -> heap_uint32_update cmp_pty_fn p e h = Ok (tt, h', l) ->
    built h'.

(** The heaps reachable when, as the documentation of [heap_uint32_push]
    asks, only elements that are not in the heap are pushed. *)
Inductive reachable_distinct : heap_uint32_t -> Prop :=
| reachd_init mem n ps es h :
    0 < n -> heap_uint32_init mem n ps es = Ok h -> reachable_distinct h
| reachd_push h p e h' l :
    reachable_distinct h ->
    heap_uint32_search e h = Ok (None, h, []) ->
    heap_uint32_push cmp_pty_fn p e h = Ok (tt, h', l) ->
    reachable_distinct h'
| reachd_update h p e h' l :
    reachable_distinct h ->
    heap_uint32_update cmp_pty_fn p e h = Ok (tt, h', l) ->
    reachable_distinct h'
| reachd_pop h pb eb out h' l :
    reachable_distinct h ->
    heap_uint32_pop cmp_pty_fn pb eb h = Ok (out, h', l) ->
    reachable_distinct h'.

(** The invariant of the reachable heaps. *)
Definition invariant (h : heap_uint32_t) : Prop :=
  wf h /\ heap_le h /\ index_sound h.

(** The trace of [heap_uint32_update]: the slot [ix] of the element is
    overwritten with the new priority, then [heapify_up] runs from [ix]
    with events [l1], then [heapify_down] runs from [ix] with events
    [l2]. *)
Definition update_trace (h : heap_uint32_t) (p e : block)
    (l1 l2 : list event) : Prop :=
  exists ix h0 h1 h2,
    ht h !! e = Some ix /\
    store_pty ix p h = Ok (tt, h0, []) /\
    sel (ptys h0) ix = p /\
    heapify_up cmp_pty_fn ix h0 = Ok (tt, h1, l1) /\
    heapify_down cmp_pty_fn ix h1 = Ok (tt, h2, l2) /\
    heap_uint32_update cmp_pty_fn p e h = Ok (tt, h2, l1 ++ l2).

(** One operation of the heap that returns. *)
Definition op_step (h h' : heap_uint32_t) : Prop :=
  (exists p e l, heap_uint32_push cmp_pty_fn p e h = Ok (tt, h', l)) \/
  (exists p e l, heap_uint32_update cmp_pty_fn p e h = Ok (tt, h', l)) \/
  (exists pb eb out l, heap_uint32_pop cmp_pty_fn pb eb h = Ok (out, h', l)).

End Spec.

(** ** Vocabulary of the utilities *)

(** The values of the generator lie in [0, RAND_MAX]. *)
Definition in_range (s : list Z) : Prop :=
  Forall (fun v => 0 <= v <= RAND_MAX) s.

(** The first value of the list below [q], with the rest of the list. *)
Fixpoint first_below (q : Z) (s : list Z) : option (Z * list Z) :=
  match s with
  | [] => None
  | v :: s' => if v <? q then Some (v, s') else first_below q s'
  end.

(** An unbiased draw from [0, n): the generator values below the largest
    multiple of [n] that is at most [RAND_MAX + 1] are accepted, and the
    first accepted value is reduced modulo [n]. *)
Definition draw (n : Z) (s : list Z) : result (Z * list Z) :=
  match first_below (n * ((RAND_MAX + 1) / n)) s with
  | Some (v, s') => Ok (v mod n, s')
  | None => OutOfFuel
  end.

(** A [k]-bit value assembled from disjoint bit fields of the next one,
    two or three generator values. *)
Definition bits_of_draws (k : Z) (s : list Z) : result (Z * list Z) :=
  if k <? 32 then
    match s with
    | v1 :: s' => Ok (v1 / 2 ^ (31 - k), s')
    | _ => OutOfFuel
    end
  else if k <? 63 then
    match s with
    | v1 :: v2 :: s' => Ok (v1 + v2 / 2 ^ (62 - k) * 2 ^ 31, s')
    | _ => OutOfFuel
    end
  else
    match s with
    | v1 :: v2 :: v3 :: s' =>
        Ok (v1 + v2 * 2 ^ 31 + v3 / 2 ^ (93 - k) * 2 ^ 62, s')
    | _ => OutOfFuel
    end.

(** The squaring chain of the Miller-Rabin test:
    [a ^ (u * 2 ^ i) mod n]. *)
Definition chain (a u n i : Z) : Z := a ^ (u * 2 ^ i) mod n.

(** The product of a list of integers. *)
Definition zprod (l : list Z) : Z := fold_right Z.mul 1 l.

(** The residues 1, ..., p - 1. *)
Definition units (p : Z) : list Z := map Z.of_nat (seq 1 (Z.to_nat (p - 1))).

(** * The chained hash table (ht-divchn) *)

Module HtDivchn.

(** Modelled from the spec: ht-divchn.c, which implements the functions
    declared in ht-divchn.h, and its table of primes are not part of the
    sources at hand.  The structure keeps the fields of [ht_divchn_t]
    that the operations of the spec read or write; [key_elts] is the
    array of chains, a chain being the list of its (key, value) nodes
    from the head. *)
Record ht_divchn_t : Type := mk_ht {
  key_size : Z;
  elt_size : Z;
  count_ix : nat;
  count : Z;
  num_elts : Z;
  alpha_n : Z;
  log_alpha_d : Z;
  key_elts : list (list (block * block))
}.

Definition set_table (ix : nat) (c : Z) (n : Z)
    (ke : list (list (block * block))) (t : ht_divchn_t) : ht_divchn_t :=
  mk_ht (key_size t) (elt_size t) ix c n (alpha_n t) (log_alpha_d t) ke.

(** Modelled from the spec: the hash of a key is its bytes read as one
    big integer, reduced modulo the count of slots, computed byte by
    byte as [((b0 * R + b1) * R + ...) mod p] with [R = 2^8]. *)
Definition hash (key : block) (p : Z) : Z :=
  fold_left (fun acc b => (acc * 256 + Z.of_N (Byte.to_N b)) mod p) key 0.

Definition chain_at (ke : list (list (block * block))) (ix : nat)
  : list (block * block) :=
  nth ix ke [].

(** Walk of a chain: the value of the first node with a byte-equal key. *)
Fixpoint chain_search (key : block) (c : list (block * block)) : option block :=
  match c with
  | [] => None
  | (k, v) :: c' => if decide (k = key) then Some v else chain_search key c'
  end.

(** The stored value of the node of [key] is overwritten. *)
Fixpoint chain_update (key elt : block) (c : list (block * block))
  : list (block * block) :=
  match c with
  | [] => []
  | (k, v) :: c' =>
      if decide (k = key) then (k, elt) :: c'
      else (k, v) :: chain_update key elt c'
  end.

(** The node of [key] is unlinked. *)
Fixpoint chain_unlink (key : block) (c : list (block * block))
  : list (block * block) :=
  match c with
  | [] => []
  | (k, v) :: c' =>
      if decide (k = key) then c' else (k, v) :: chain_unlink key c'
  end.

(** Modelled from the spec: every node is put at the head of the chain
    that its key selects among [p] empty chains. *)
Definition rehash (p : Z) (nodes : list (block * block))
  : list (list (block * block)) :=
  fold_left
    (fun ke kv =>
       let ix := Z.to_nat (hash (fst kv) p) in
       <[ix := kv :: chain_at ke ix]> ke)
    nodes (replicate (Z.to_nat p) []).

Section Table.

(** The precomputed sequence of primes, taken as a parameter. *)
Variable primes : list Z.

(** Modelled from the spec: the comparison that triggers a rehash when
    [n] keys are present, [(n + 1) * 2^log_alpha_d > count * alpha_n],
    in exact arithmetic. *)
Definition over_load (n : Z) (t : ht_divchn_t) : bool :=
  count t * alpha_n t <? (n + 1) * 2 ^ log_alpha_d t.

(** The current prime is the last of the sequence. *)
Definition at_last_prime (t : ht_divchn_t) : Prop :=
  primes !! S (count_ix t) = None.

(** Modelled from the spec: a rehash chooses the next prime and puts
    every node into a new array of that many chains; nothing happens when
    the last prime is reached. *)
Definition ht_grow (t : ht_divchn_t) : ht_divchn_t :=
  match primes !! S (count_ix t) with
  | Some p =>
      set_table (S (count_ix t)) p (num_elts t)
        (rehash p (concat (key_elts t))) t
  | None => t
  end.

(** Modelled from the spec: the empty table is pre-sized so that a
    rehash is avoided until [n] keys are present: its count of slots
    steps to the next prime as long as the comparison fires for [n] keys
    and a next prime exists.  The fuel is the length of the sequence of
    primes. *)
Fixpoint presize (fuel : nat) (n : Z) (t : ht_divchn_t) : ht_divchn_t :=
  match fuel with
  | O => t
  | S fuel' =>
      if over_load n t
      then match primes !! S (count_ix t) with
           | Some _ => presize fuel' n (ht_grow t)
           | None => t
           end
      else t
  end.

(** Modelled from the spec: the table starts empty at the first prime
    and is pre-sized for [min_num] keys. *)
Definition ht_divchn_init (key_sz elt_sz min_num alpha_num log_alpha_den : Z)
  : option ht_divchn_t :=
  match primes !! O with
  | None => None
  | Some p =>
      Some (presize (length primes) min_num
              (mk_ht key_sz elt_sz O p 0 alpha_num log_alpha_den
                 (replicate (Z.to_nat p) [])))
  end.

(** Modelled from the spec: insert is an upsert; a new key is put at the
    head of its chain, [num_elts] is incremented, then the load factor is
    checked once and, when the comparison fires, the table is rehashed
    into the next prime. *)
Definition ht_divchn_insert (key elt : block) (t : ht_divchn_t) : ht_divchn_t :=
  let ix := Z.to_nat (hash key (count t)) in
  let c := chain_at (key_elts t) ix in
  match chain_search key c with
  | Some _ =>
      set_table (count_ix t) (count t) (num_elts t)
        (<[ix := chain_update key elt c]> (key_elts t)) t
  | None =>
      let t1 :=
        set_table (count_ix t) (count t) (num_elts t + 1)
          (<[ix := (key, elt) :: c]> (key_elts t)) t in
      if over_load (num_elts t1) t1 then ht_grow t1 else t1
  end.

Definition ht_divchn_search (key : block) (t : ht_divchn_t) : option block :=
  chain_search key (chain_at (key_elts t) (Z.to_nat (hash key (count t)))).

(** Modelled from the spec: remove copies the value of a present key
    into the out block [elt], unlinks its node and decrements
    [num_elts]; an absent key leaves the out block and the table
    unchanged. *)
Definition ht_divchn_remove (key elt : block) (t : ht_divchn_t)
  : block * ht_divchn_t :=
  let ix := Z.to_nat (hash key (count t)) in
  let c := chain_at (key_elts t) ix in
  match chain_search key c with
  | Some v =>
      (v, set_table (count_ix t) (count t) (num_elts t - 1)
            (<[ix := chain_unlink key c]> (key_elts t)) t)
  | None => (elt, t)
  end.

(** Modelled from the spec: delete is remove without an out block (the
    destructor of the value has no effect on the table). *)
Definition ht_divchn_delete (key : block) (t : ht_divchn_t) : ht_divchn_t :=
  snd (ht_divchn_remove key [] t).

(** The tables reachable from an initialisation by inserts, removes and
    deletes. *)
Inductive ht_reachable : ht_divchn_t -> Prop :=
| ht_reach_init ks es min_num an ld t :
    0 < an -> ht_divchn_init ks es min_num an ld = Some t -> ht_reachable t
| ht_reach_insert key elt t :
    ht_reachable t -> ht_reachable (ht_divchn_insert key elt t)
| ht_reach_remove key elt t :
    ht_reachable t -> ht_reachable (snd (ht_divchn_remove key elt t))
| ht_reach_delete key t :
    ht_reachable t -> ht_reachable (ht_divchn_delete key t).

(** The number of nodes in the chains. *)
Definition node_count (t : ht_divchn_t) : Z :=
  Z.of_nat (length (concat (key_elts t))).

Definition ht_wf (t : ht_divchn_t) : Prop :=
  0 < count t /\
  length (key_elts t) = Z.to_nat (count t) /\
  primes !! count_ix t = Some (count t) /\
  num_elts t = node_count t.

(** The load factor bound binds unless the last prime is reached. *)
Definition load_ok (t : ht_divchn_t) : Prop :=
  ~ at_last_prime t ->
  num_elts t * 2 ^ log_alpha_d t <= count t * alpha_n t.

Definition ht_inv (t : ht_divchn_t) : Prop :=
  ht_wf t /\ 0 < alpha_n t /\ load_ok t.

(** Each prime of the sequence exceeds its predecessor by at least
    [2^ld / an], the inverse of the load factor bound. *)
Definition spaced (an ld : Z) : Prop :=
  forall i p q,
    primes !! i = Some p -> primes !! S i = Some q ->
    2 ^ ld <= (q - p) * an.

End Table.
End HtDivchn.

(** * Concrete instances *)

(** Priorities of one unsigned byte, compared by their difference; the
    empty block sorts before every byte. *)
Definition uchar_key (a : block) : Z :=
  match a with
  | [] => -1
  | x :: _ => Z.of_N (Byte.to_N x)
  end.

Definition cmp_uchar (a b : block) : Z := uchar_key a - uchar_key b.

(** The heap left by an operation that returns. *)
Definition heap_of (r : result heap_uint32_t) : heap_uint32_t :=
  match r with
  | Ok h => h
  | _ => mk_heap 0 0 0 0 0 [] [] ∅ []
  end.

Definition after {A} (m : M A) (h : heap_uint32_t) : heap_uint32_t :=
  match m h with
  | Ok (_, h', _) => h'
  | _ => h
  end.

Definition returns {A} (m : M A) (h : heap_uint32_t) : bool :=
  match m h with
  | Ok _ => true
  | _ => false
  end.

(** An allocator that grants its next sixteen requests. *)
Definition ex_mem : list bool := List.repeat true 16.

(** An empty heap of capacity 1, then the pairs (5, a), (3, b), (8, c),
    (1, d) pushed in this order. *)
Definition ex_heap0 : heap_uint32_t :=
  heap_of (heap_uint32_init ex_mem 1 1 1).

Definition ex_heap1 : heap_uint32_t :=
  after (heap_uint32_push cmp_uchar [Byte.x05] [Byte.x61]) ex_heap0.

Definition ex_heap2 : heap_uint32_t :=
  after (heap_uint32_push cmp_uchar [Byte.x03] [Byte.x62]) ex_heap1.

Definition ex_heap3 : heap_uint32_t :=
  after (heap_uint32_push cmp_uchar [Byte.x08] [Byte.x63]) ex_heap2.

Definition ex_heap4 : heap_uint32_t :=
  after (heap_uint32_push cmp_uchar [Byte.x01] [Byte.x64]) ex_heap3.

(** The same capacity with an allocator that grants the three requests
    of [heap_uint32_init] and refuses the following ones, then the pair
    (5, a) pushed. *)
Definition ex_tight_heap0 : heap_uint32_t :=
  heap_of (heap_uint32_init [true; true; true] 1 1 1).

Definition ex_tight_heap1 : heap_uint32_t :=
  after (heap_uint32_push cmp_uchar [Byte.x05] [Byte.x61]) ex_tight_heap0.

(** A short sequence of primes, a load factor bound of 3/2, and the table
    after nine inserts of distinct one-byte keys. *)
Definition ex_primes : list Z := [5; 11; 23].

Definition ex_table0 : HtDivchn.ht_divchn_t :=
  default (HtDivchn.mk_ht 0 0 0 0 0 0 0 [])
    (HtDivchn.ht_divchn_init ex_primes 1 4 0 3 1).

Definition ex_table : HtDivchn.ht_divchn_t :=
  fold_left
    (fun t b => HtDivchn.ht_divchn_insert ex_primes [b] [b] t)
    [Byte.x01; Byte.x02; Byte.x03; Byte.x04; Byte.x05; Byte.x06; Byte.x07;
     Byte.x08; Byte.x09]
    ex_table0.

(** A sequence of primes closer to each other than the inverse of the
    load factor bound 1/4, and the table after six inserts of distinct
    one-byte keys. *)
Definition ex_close_primes : list Z := [5; 7; 11; 13; 17; 19; 23; 29].

Definition ex_close_table0 : HtDivchn.ht_divchn_t :=
  default (HtDivchn.mk_ht 0 0 0 0 0 0 0 [])
    (HtDivchn.ht_divchn_init ex_close_primes 1 4 0 1 2).

Definition ex_close_table : HtDivchn.ht_divchn_t :=
  fold_left
    (fun t b => HtDivchn.ht_divchn_insert ex_close_primes [b] [b] t)
    [Byte.x01; Byte.x02; Byte.x03; Byte.x04; Byte.x05; Byte.x06]
    ex_close_table0.

(** Values of the generator, and the modular power [a ^ k mod n] standing
    for [pow_mod], used in the instances of the utilities. *)
Definition ex_stream : list Z := [5; 2147483647; 12; 7; 0; 3].

Definition ex_pow_mod (a k n : Z) : Z := a ^ k mod n.

(** Fifty generator values that every draw of the examples accepts. *)
Definition ex_draws : list Z := List.repeat 3 50.

(** * Reasoning tools *)

(** ** Unsigned arithmetic *)

Lemma u32_small (z : Z) : 0 <= z < 4294967296 -> u32 z = z.
Proof. intros Hz. unfold u32, UINT32_MOD. apply Z.mod_small. lia. Qed.

Lemma u32_range (z : Z) : 0 <= u32 z < 4294967296.
Proof. unfold u32, UINT32_MOD. apply Z.mod_pos_bound. lia. Qed.

Lemma pow_two_uint64_32 : pow_two_uint64 32 = Some 4294967296.
Proof. reflexivity. Qed.

(** ** Slots *)

Section Slots.
Context {A : Type}.
Implicit Types (l : list A) (i j : Z) (x : A).

Lemma slot_upd_eq l i x :
  0 <= i < Z.of_nat (length l) -> slot (upd l i x) i = Some x.
Proof.
  intros Hi. unfold slot, upd. apply list_lookup_insert_eq. lia.
Qed.

Lemma slot_upd_ne l i j x :
  0 <= i -> 0 <= j -> i <> j -> slot (upd l i x) j = slot l j.
Proof.
  intros Hi Hj Hne. unfold slot, upd. apply list_lookup_insert_ne. lia.
Qed.

Lemma length_upd l i x : length (upd l i x) = length l.
Proof. unfold upd. apply length_insert. Qed.

Lemma slot_is_Some l i :
  0 <= i < Z.of_nat (length l) -> is_Some (slot l i).
Proof. intros Hi. unfold slot. apply lookup_lt_is_Some. lia. Qed.

Lemma slot_Some_lt l i x :
  0 <= i -> slot l i = Some x -> i < Z.of_nat (length l).
Proof.
  unfold slot. intros Hi Hs. apply lookup_lt_Some in Hs. lia.
Qed.

End Slots.

Lemma slot_sel (l : list block) (i : Z) :
  0 <= i < Z.of_nat (length l) -> slot l i = Some (sel l i).
Proof.
  intros Hi. unfold sel. destruct (slot_is_Some l i Hi) as [x ->]. reflexivity.
Qed.

Lemma sel_upd_eq (l : list block) i x :
  0 <= i < Z.of_nat (length l) -> sel (upd l i x) i = x.
Proof. intros Hi. unfold sel. rewrite slot_upd_eq; auto. Qed.

Lemma sel_upd_ne (l : list block) i j x :
  0 <= i -> 0 <= j -> i <> j -> sel (upd l i x) j = sel l j.
Proof. intros Hi Hj Hne. unfold sel. rewrite slot_upd_ne; auto. Qed.

Lemma length_exch l i j : length (exch l i j) = length l.
Proof. unfold exch. rewrite !length_upd. reflexivity. Qed.

Lemma sel_exch_l l i j :
  0 <= i < Z.of_nat (length l) -> 0 <= j < Z.of_nat (length l) ->
  sel (exch l i j) i = sel l j.
Proof.
  intros Hi Hj. unfold exch. destruct (Z.eq_dec i j) as [->|Hne].
  - rewrite sel_upd_eq; auto. rewrite length_upd. lia.
  - rewrite sel_upd_ne by lia. rewrite sel_upd_eq; auto.
Qed.

Lemma sel_exch_r l i j :
  0 <= i < Z.of_nat (length l) -> 0 <= j < Z.of_nat (length l) ->
  sel (exch l i j) j = sel l i.
Proof.
  intros Hi Hj. unfold exch. rewrite sel_upd_eq; auto.
  rewrite length_upd. lia.
Qed.

Lemma sel_exch_other l i j k :
  0 <= i -> 0 <= j -> 0 <= k -> k <> i -> k <> j ->
  sel (exch l i j) k = sel l k.
Proof.
  intros Hi Hj Hk Hki Hkj. unfold exch.
  rewrite !sel_upd_ne by lia. reflexivity.
Qed.

(** ** Weakest preconditions *)

Section WpRules.
Context (F : Prop) {A B : Type}.
Implicit Types (h : heap_uint32_t).

Lemma wp_ret (a : A) Q h : Q a h [] -> wp F (ret a) Q h.
Proof. intros HQ. exact HQ. Qed.

Lemma wp_bind (m : M A) (f : A -> M B) Q h :
  wp F m (fun a h1 l1 => wp F (f a) (fun b h2 l2 => Q b h2 (l1 ++ l2)) h1) h ->
  wp F (bind m f) Q h.
Proof.
  unfold wp, bind. destruct (m h) as [[[a h1] l1]| | |]; auto.
  destruct (f a h1) as [[[b h2] l2]| | |]; auto.
Qed.

Lemma wp_gets (f : heap_uint32_t -> A) Q h : Q (f h) h [] -> wp F (gets f) Q h.
Proof. intros HQ. exact HQ. Qed.

Lemma wp_mono (m : M A) (Q Q' : A -> heap_uint32_t -> list event -> Prop) h :
  wp F m Q h -> (forall a h' l, Q a h' l -> Q' a h' l) -> wp F m Q' h.
Proof.
  unfold wp. destruct (m h) as [[[a h1] l1]| | |]; auto.
Qed.

Lemma wp_conj (m : M A) (Q Q' : A -> heap_uint32_t -> list event -> Prop) h :
  wp F m Q h -> wp F m Q' h -> wp F m (fun a h' l => Q a h' l /\ Q' a h' l) h.
Proof.
  unfold wp. destruct (m h) as [[[a h1] l1]| | |]; auto.
Qed.

Lemma wp_run (m : M A) Q h a h' l :
  wp F m Q h -> m h = Ok (a, h', l) -> Q a h' l.
Proof. unfold wp. intros Hwp Hrun. rewrite Hrun in Hwp. exact Hwp. Qed.

End WpRules.

Lemma wp_modify F (f : heap_uint32_t -> heap_uint32_t) Q h :
  Q tt (f h) [] -> wp F (modify f) Q h.
Proof. intros HQ. exact HQ. Qed.

Lemma wp_emit F (e : event) Q h : Q tt h [e] -> wp F (emit e) Q h.
Proof. intros HQ. exact HQ. Qed.

Lemma wp_assert F (b : bool) Q h :
  (b = true -> Q tt h []) -> (b = false -> F) -> wp F (assert b) Q h.
Proof. destruct b; intros H1 H2; [apply H1 | apply H2]; reflexivity. Qed.

Lemma wp_fatal (F : Prop) {A} Q h : F -> wp F (@fatal A) Q h.
Proof. intros HF. exact HF. Qed.

Lemma wp_total F {A} (m : M A) Q h : wp False m Q h -> wp F m Q h.
Proof.
  unfold wp. destruct (m h) as [[[a h1] l1]| | |]; auto. intros [].
Qed.

Lemma wp_fatal_mono (F F' : Prop) {A} (m : M A) Q h :
  wp F m Q h -> (F -> F') -> wp F' m Q h.
Proof.
  unfold wp. destruct (m h) as [[[a h1] l1]| | |]; auto.
Qed.

Lemma wp_not_fatal (F : Prop) {A} (m : M A) Q h :
  wp F m Q h -> ~ F -> wp False m Q h.
Proof.
  unfold wp. destruct (m h) as [[[a h1] l1]| | |]; auto.
Qed.

Lemma wp_ok {A} (m : M A) Q h :
  wp False m Q h -> exists a h' l, m h = Ok (a, h', l) /\ Q a h' l.
Proof.
  unfold wp. destruct (m h) as [[[a h1] l1]| | |]; try (intros []).
  intros HQ. eauto.
Qed.

Lemma bind_run {A B} (m : M A) (f : A -> M B) h a h1 l1 b h2 l2 :
  m h = Ok (a, h1, l1) -> f a h1 = Ok (b, h2, l2) ->
  bind m f h = Ok (b, h2, l1 ++ l2).
Proof. intros Hm Hf. unfold bind. rewrite Hm, Hf. reflexivity. Qed.

Lemma wp_of_run F {A} (m : M A) (Q : A -> heap_uint32_t -> list event -> Prop)
    h a h' l :
  m h = Ok (a, h', l) -> Q a h' l -> wp F m Q h.
Proof. unfold wp. intros ->. auto. Qed.

Lemma wp_load_pty F i Q h :
  0 <= i < Z.of_nat (length (ptys h)) ->
  Q (sel (ptys h) i) h [] -> wp F (load_pty i) Q h.
Proof.
  intros Hi HQ. unfold wp, load_pty. rewrite slot_sel by auto. exact HQ.
Qed.

Lemma wp_load_elt F i Q h :
  0 <= i < Z.of_nat (length (elts h)) ->
  Q (sel (elts h) i) h [] -> wp F (load_elt i) Q h.
Proof.
  intros Hi HQ. unfold wp, load_elt. rewrite slot_sel by auto. exact HQ.
Qed.

Lemma wp_store_pty F i b Q h :
  0 <= i < Z.of_nat (length (ptys h)) ->
  Q tt (set_ptys (upd (ptys h) i b) h) [] -> wp F (store_pty i b) Q h.
Proof.
  intros Hi HQ. unfold wp, store_pty. rewrite slot_sel by auto. exact HQ.
Qed.

Lemma wp_store_elt F i b Q h :
  0 <= i < Z.of_nat (length (elts h)) ->
  Q tt (set_elts (upd (elts h) i b) h) [] -> wp F (store_elt i b) Q h.
Proof.
  intros Hi HQ. unfold wp, store_elt. rewrite slot_sel by auto. exact HQ.
Qed.

Lemma wp_ht_insert F k v Q h :
  Q tt (set_ht (<[k := v]> (ht h)) h) [EvUpsert k v] ->
  wp F (ht_div_uint32_insert k v) Q h.
Proof. intros HQ. exact HQ. Qed.

Lemma wp_ht_search F k Q h :
  Q (ht h !! k) h [] -> wp F (ht_div_uint32_search k) Q h.
Proof. intros HQ. exact HQ. Qed.

Lemma wp_ht_remove F k Q h :
  Q (ht h !! k) (set_ht (delete k (ht h)) h) [] ->
  wp F (ht_div_uint32_remove k) Q h.
Proof. intros HQ. exact HQ. Qed.

(** One step of symbolic execution of a monadic program. *)
Ltac wp_step :=
  cbv beta;
  lazymatch goal with
  | |- wp _ (bind _ _) _ _ => apply wp_bind
  | |- wp _ (ret _) _ _ => apply wp_ret
  | |- wp _ (gets _) _ _ => apply wp_gets
  | |- wp _ (modify _) _ _ => apply wp_modify
  | |- wp _ (emit _) _ _ => apply wp_emit
  | |- wp _ (ht_div_uint32_insert _ _) _ _ => apply wp_ht_insert
  | |- wp _ (ht_div_uint32_search _) _ _ => apply wp_ht_search
  | |- wp _ (ht_div_uint32_remove _) _ _ => apply wp_ht_remove
  end.


(** * Invariants of the heap *)

Lemma swap_same i h : swap i i h = Ok (tt, h, []).
Proof. unfold swap. rewrite Z.eqb_refl. reflexivity. Qed.

(** Reduction of the projections of an updated structure. *)
Ltac hsimpl :=
  cbn [heap_size heap_max_size num_elts pty_size elt_size ptys elts ht
       allocator set_heap_size set_num_elts set_ptys set_elts set_ht
       set_allocator] in *.

Lemma swap_run h i j :
  i <> j ->
  0 <= i < Z.of_nat (length (ptys h)) -> 0 <= j < Z.of_nat (length (ptys h)) ->
  0 <= i < Z.of_nat (length (elts h)) -> 0 <= j < Z.of_nat (length (elts h)) ->
  swap i j h =
    Ok (tt, swapped h i j,
        [EvSwap i j; EvUpsert (sel (elts h) j) i; EvUpsert (sel (elts h) i) j]).
Proof.
  intros Hne Hi Hj Hie Hje.
  assert (Hwp : wp False (swap i j)
            (fun a h' l => a = tt /\ h' = swapped h i j /\
               l = [EvSwap i j; EvUpsert (sel (elts h) j) i;
                    EvUpsert (sel (elts h) i) j]) h).
  { unfold swap. destruct (Z.eqb_spec i j) as [?|_]; [contradiction|].
    wp_step. apply wp_load_elt; [lia|].
    wp_step. apply wp_load_elt; [lia|].
    wp_step. apply wp_store_elt; [lia|].
    wp_step. apply wp_store_elt; [hsimpl; rewrite length_upd; lia|].
    wp_step. apply wp_load_pty; [hsimpl; lia|].
    wp_step. apply wp_load_pty; [hsimpl; lia|].
    wp_step. apply wp_store_pty; [hsimpl; lia|].
    wp_step. apply wp_store_pty; [hsimpl; rewrite length_upd; lia|].
    wp_step. wp_step.
    wp_step. apply wp_load_elt; [hsimpl; rewrite !length_upd; lia|].
    wp_step. wp_step.
    wp_step. apply wp_load_elt; [hsimpl; rewrite !length_upd; lia|].
    wp_step. hsimpl.
    fold (exch (elts h) i j). fold (exch (ptys h) i j).
    rewrite sel_exch_l, sel_exch_r by lia.
    split; [reflexivity|]. split; reflexivity. }
  apply wp_ok in Hwp. destruct Hwp as (a & h' & l & Hrun & Ha & -> & ->).
  destruct a. exact Hrun.
Qed.

Lemma swaps_trans a b c : swaps a b -> swaps b c -> swaps a c.
Proof.
  intros Hab Hbc. induction Hbc as [|h' i j Hbc IH Hi Hj Hne]; auto.
  apply swaps_step; auto.
Qed.

Lemma swaps_one h i j :
  0 <= i < num_elts h -> 0 <= j < num_elts h -> i <> j ->
  swaps h (swapped h i j).
Proof. intros Hi Hj Hne. apply swaps_step; auto. apply swaps_refl. Qed.

Lemma wf_alloc h i :
  wf h -> 0 <= i < num_elts h ->
  0 <= i < Z.of_nat (length (ptys h)) /\ 0 <= i < Z.of_nat (length (elts h)).
Proof. unfold wf. intros (Hn & Hs & Hm & Hp & He) Hi. lia. Qed.

Lemma wf_swapped h i j : wf h -> wf (swapped h i j).
Proof.
  unfold wf, swapped. hsimpl. rewrite !length_exch. auto.
Qed.

Lemma sel_ptys_swapped h i j k :
  wf h -> 0 <= i < num_elts h -> 0 <= j < num_elts h -> 0 <= k ->
  sel (ptys (swapped h i j)) k =
    if k =? i then sel (ptys h) j
    else if k =? j then sel (ptys h) i
    else sel (ptys h) k.
Proof.
  intros Hwf Hi Hj Hk. unfold swapped. hsimpl.
  destruct (wf_alloc h i Hwf Hi) as [Hip _].
  destruct (wf_alloc h j Hwf Hj) as [Hjp _].
  destruct (Z.eqb_spec k i) as [->|Hki].
  - apply sel_exch_l; auto.
  - destruct (Z.eqb_spec k j) as [->|Hkj].
    + apply sel_exch_r; auto.
    + apply sel_exch_other; lia.
Qed.

Lemma sel_elts_swapped h i j k :
  wf h -> 0 <= i < num_elts h -> 0 <= j < num_elts h -> 0 <= k ->
  sel (elts (swapped h i j)) k =
    if k =? i then sel (elts h) j
    else if k =? j then sel (elts h) i
    else sel (elts h) k.
Proof.
  intros Hwf Hi Hj Hk. unfold swapped. hsimpl.
  destruct (wf_alloc h i Hwf Hi) as [_ Hie].
  destruct (wf_alloc h j Hwf Hj) as [_ Hje].
  destruct (Z.eqb_spec k i) as [->|Hki].
  - apply sel_exch_l; auto.
  - destruct (Z.eqb_spec k j) as [->|Hkj].
    + apply sel_exch_r; auto.
    + apply sel_exch_other; lia.
Qed.

Lemma swap_run_wf h i j :
  wf h -> 0 <= i < num_elts h -> 0 <= j < num_elts h -> i <> j ->
  swap i j h =
    Ok (tt, swapped h i j,
        [EvSwap i j; EvUpsert (sel (elts h) j) i; EvUpsert (sel (elts h) i) j]).
Proof.
  intros Hwf Hi Hj Hne.
  destruct (wf_alloc h i Hwf Hi). destruct (wf_alloc h j Hwf Hj).
  apply swap_run; auto.
Qed.

(** What a sequence of exchanges preserves. *)
Lemma swaps_counts h h' :
  swaps h h' ->
  num_elts h' = num_elts h /\ heap_size h' = heap_size h /\
  heap_max_size h' = heap_max_size h /\ pty_size h' = pty_size h /\
  elt_size h' = elt_size h.
Proof.
  induction 1 as [|h' i j _ IH _ _ _]; [tauto|]. unfold swapped. hsimpl. exact IH.
Qed.

Lemma swaps_wf h h' : swaps h h' -> wf h -> wf h'.
Proof.
  induction 1 as [|h' i j _ IH _ _ _]; auto. intros Hwf.
  apply wf_swapped. auto.
Qed.

Lemma index_sound_swapped h i j :
  wf h -> 0 <= i < num_elts h -> 0 <= j < num_elts h -> i <> j ->
  index_sound h -> index_sound (swapped h i j).
Proof.
  intros Hwf Hi Hj Hne Hs e k Hlk.
  assert (Hn : num_elts (swapped h i j) = num_elts h) by reflexivity.
  rewrite Hn. unfold swapped in Hlk. hsimpl.
  destruct (decide (sel (elts h) i = e)) as [Hei|Hei].
  - subst e. rewrite lookup_insert_eq in Hlk. inversion Hlk; subst k.
    split; [lia|]. rewrite sel_elts_swapped by (auto; lia).
    destruct (Z.eqb_spec j i); [lia|]. rewrite Z.eqb_refl. reflexivity.
  - rewrite lookup_insert_ne in Hlk by auto.
    destruct (decide (sel (elts h) j = e)) as [Hej|Hej].
    + subst e. rewrite lookup_insert_eq in Hlk. inversion Hlk; subst k.
      split; [lia|]. rewrite sel_elts_swapped by (auto; lia).
      rewrite Z.eqb_refl. reflexivity.
    + rewrite lookup_insert_ne in Hlk by auto.
      destruct (Hs e k Hlk) as [Hk Hek]. split; [lia|].
      rewrite sel_elts_swapped by (auto; lia).
      destruct (Z.eqb_spec k i); [congruence|].
      destruct (Z.eqb_spec k j); [congruence|]. exact Hek.
Qed.

Lemma index_complete_inj h i j :
  index_complete h -> 0 <= i < num_elts h -> 0 <= j < num_elts h ->
  sel (elts h) i = sel (elts h) j -> i = j.
Proof.
  intros Hc Hi Hj Heq. pose proof (Hc i Hi) as H1. pose proof (Hc j Hj) as H2.
  rewrite Heq in H1. congruence.
Qed.

Lemma index_complete_swapped h i j :
  wf h -> 0 <= i < num_elts h -> 0 <= j < num_elts h -> i <> j ->
  index_complete h -> index_complete (swapped h i j).
Proof.
  intros Hwf Hi Hj Hne Hc k Hk.
  assert (Hn : num_elts (swapped h i j) = num_elts h) by reflexivity.
  rewrite Hn in Hk. rewrite sel_elts_swapped by (auto; lia).
  unfold swapped. hsimpl.
  assert (Hij : sel (elts h) i <> sel (elts h) j).
  { intros Heq. apply Hne. eapply index_complete_inj; eauto. }
  destruct (Z.eqb_spec k i) as [->|Hki].
  - rewrite lookup_insert_ne by auto. apply lookup_insert_eq.
  - destruct (Z.eqb_spec k j) as [->|Hkj].
    + apply lookup_insert_eq.
    + rewrite !lookup_insert_ne; auto.
      * intros Heq. apply Hkj. symmetry. eapply index_complete_inj; eauto.
      * intros Heq. apply Hki. symmetry. eapply index_complete_inj; eauto.
Qed.

Lemma swaps_index_sound h h' :
  swaps h h' -> wf h -> index_sound h -> index_sound h'.
Proof.
  induction 1 as [|h' i j Hsw IH Hi Hj Hne]; auto. intros Hwf Hs.
  apply index_sound_swapped; auto. eapply swaps_wf; eauto.
Qed.

Lemma swaps_index_complete h h' :
  swaps h h' -> wf h -> index_complete h -> index_complete h'.
Proof.
  induction 1 as [|h' i j Hsw IH Hi Hj Hne]; auto. intros Hwf Hs.
  apply index_complete_swapped; auto. eapply swaps_wf; eauto.
Qed.

Lemma holds_pty_swapped h i j p :
  wf h -> 0 <= i < num_elts h -> 0 <= j < num_elts h ->
  holds_pty (swapped h i j) p -> holds_pty h p.
Proof.
  intros Hwf Hi Hj (k & Hk & Hp).
  assert (Hn : num_elts (swapped h i j) = num_elts h) by reflexivity.
  rewrite Hn in Hk. rewrite sel_ptys_swapped in Hp by (auto; lia).
  destruct (Z.eqb_spec k i); [exists j; auto|].
  destruct (Z.eqb_spec k j); [exists i; auto|]. exists k; auto.
Qed.

Lemma swaps_holds_pty h h' p :
  swaps h h' -> wf h -> holds_pty h' p -> holds_pty h p.
Proof.
  induction 1 as [|h' i j Hsw IH Hi Hj Hne]; auto. intros Hwf Hp.
  apply IH; auto. apply (holds_pty_swapped h' i j); auto.
  eapply swaps_wf; eauto.
Qed.

(** ** Heap order *)

Lemma parent_lt k : 0 < k -> 0 <= parent k < k.
Proof. unfold parent. intros Hk. Z.div_mod_to_equations. lia. Qed.

Lemma parent_child c k :
  0 < c -> parent c = k -> c = 2 * k + 1 \/ c = 2 * k + 2.
Proof. unfold parent. intros Hc Hp. Z.div_mod_to_equations. lia. Qed.

Lemma parent_left k : parent (2 * k + 1) = k.
Proof. unfold parent. Z.div_mod_to_equations. lia. Qed.

Lemma parent_right k : parent (2 * k + 2) = k.
Proof. unfold parent. Z.div_mod_to_equations. lia. Qed.

Section Order.

Variable cmp_pty_fn : block -> block -> Z.

Local Abbreviation heap_order := (heap_order cmp_pty_fn).
Local Abbreviation le_pty := (le_pty cmp_pty_fn).
Local Abbreviation ord := (ord cmp_pty_fn).
Local Abbreviation heap_le := (heap_le cmp_pty_fn).
Local Abbreviation grand := (grand cmp_pty_fn).
Local Abbreviation up_inv := (up_inv cmp_pty_fn).
Local Abbreviation down_inv := (down_inv cmp_pty_fn).
Local Abbreviation hole_inv := (hole_inv cmp_pty_fn).
Local Abbreviation down_post := (down_post cmp_pty_fn).
Local Abbreviation reachable := (reachable cmp_pty_fn).
Local Abbreviation built := (built cmp_pty_fn).
Local Abbreviation reachable_distinct := (reachable_distinct cmp_pty_fn).
Local Abbreviation invariant := (invariant cmp_pty_fn).
Local Abbreviation update_trace := (update_trace cmp_pty_fn).
Local Abbreviation op_step := (op_step cmp_pty_fn).

(** The comparison function is the three-way comparison of a total
    preorder. *)
Hypothesis cmp_sym : forall a b, 0 < cmp_pty_fn a b <-> cmp_pty_fn b a < 0.
Hypothesis cmp_trans :
  forall a b c, cmp_pty_fn a b <= 0 -> cmp_pty_fn b c <= 0 -> cmp_pty_fn a c <= 0.

Lemma le_pty_refl a : le_pty a a.
Proof. unfold le_pty. pose proof (cmp_sym a a). lia. Qed.

Lemma le_pty_trans a b c : le_pty a b -> le_pty b c -> le_pty a c.
Proof. unfold le_pty. apply cmp_trans. Qed.

Lemma gt_le_pty a b : 0 < cmp_pty_fn a b -> le_pty b a.
Proof. unfold le_pty. intros H. apply cmp_sym in H. lia. Qed.

Lemma not_gt_le_pty a b : ~ 0 < cmp_pty_fn a b -> le_pty a b.
Proof. unfold le_pty. lia. Qed.

Lemma le_pty_ge a b : le_pty a b <-> cmp_pty_fn b a >= 0.
Proof.
  unfold le_pty. pose proof (cmp_sym a b). pose proof (cmp_sym b a). lia.
Qed.

Lemma le_pty_total a b : le_pty a b \/ le_pty b a.
Proof.
  destruct (Z_lt_le_dec 0 (cmp_pty_fn a b)) as [H|H].
  - right. apply gt_le_pty. exact H.
  - left. exact H.
Qed.

Lemma heap_le_order h : heap_le h <-> heap_order h.
Proof.
  unfold heap_le, heap_order, ord.
  split; intros H k Hk; apply le_pty_ge; apply H; exact Hk.
Qed.

Lemma wp_cmp_pty F i j (Q : Z -> heap_uint32_t -> list event -> Prop) h :
  wf h -> 0 <= i < num_elts h -> 0 <= j < num_elts h ->
  Q (cmp_pty_fn (sel (ptys h) i) (sel (ptys h) j)) h [EvCmp i j] ->
  wp F (cmp_pty cmp_pty_fn i j) Q h.
Proof.
  intros Hwf Hi Hj HQ. unfold cmp_pty.
  destruct (wf_alloc h i Hwf Hi) as [Hip _].
  destruct (wf_alloc h j Hwf Hj) as [Hjp _].
  wp_step. apply wp_load_pty; [lia|].
  wp_step. apply wp_load_pty; [lia|].
  wp_step. wp_step. wp_step. exact HQ.
Qed.

Lemma wp_swap F i j (Q : unit -> heap_uint32_t -> list event -> Prop) h :
  wf h -> 0 <= i < num_elts h -> 0 <= j < num_elts h -> i <> j ->
  Q tt (swapped h i j)
    [EvSwap i j; EvUpsert (sel (elts h) j) i; EvUpsert (sel (elts h) i) j] ->
  wp F (swap i j) Q h.
Proof.
  intros Hwf Hi Hj Hne HQ. eapply wp_of_run; [|exact HQ].
  apply swap_run_wf; auto.
Qed.

(** *** Sifting up *)

Lemma up_inv_hole h i : up_inv h i -> hole_inv h i.
Proof. intros [Hord Hgrand]. split; auto. Qed.

Lemma up_inv_swapped h i :
  wf h -> 0 < i < num_elts h -> hole_inv h i ->
  0 < cmp_pty_fn (sel (ptys h) (parent i)) (sel (ptys h) i) ->
  up_inv (swapped h i (parent i)) (parent i).
Proof.
  intros Hwf Hi [Hord Hgrand] Hgt.
  pose proof (parent_lt i ltac:(lia)) as Hpi.
  apply gt_le_pty in Hgt.
  assert (Hn : num_elts (swapped h i (parent i)) = num_elts h) by reflexivity.
  split.
  - intros k Hk Hkp. rewrite Hn in Hk. unfold ord.
    pose proof (parent_lt k ltac:(lia)) as Hpk.
    rewrite !sel_ptys_swapped by (auto; lia).
    destruct (Z.eqb_spec k i) as [->|Hki].
    + destruct (Z.eqb_spec (parent i) i); [lia|].
      rewrite Z.eqb_refl. exact Hgt.
    + destruct (Z.eqb_spec k (parent i)); [contradiction|].
      destruct (Z.eqb_spec (parent k) i) as [Hpki|Hpki].
      * apply Hgrand; [lia|lia|exact Hpki].
      * destruct (Z.eqb_spec (parent k) (parent i)) as [Hpp|Hpp].
        -- eapply le_pty_trans; [exact Hgt|]. rewrite <- Hpp.
           apply Hord; [lia|exact Hki|exact Hpki].
        -- apply Hord; [lia|exact Hki|exact Hpki].
  - intros Hpos c Hc Hcp. rewrite Hn in Hc.
    pose proof (parent_lt (parent i) Hpos) as Hppi.
    assert (Hordp : ord h (parent i)) by (apply Hord; lia).
    rewrite !sel_ptys_swapped by (auto; lia).
    destruct (Z.eqb_spec (parent (parent i)) i); [lia|].
    destruct (Z.eqb_spec (parent (parent i)) (parent i)); [lia|].
    destruct (Z.eqb_spec c i) as [->|Hci]; [exact Hordp|].
    pose proof (parent_lt c ltac:(lia)) as Hpc.
    destruct (Z.eqb_spec c (parent i)); [lia|].
    eapply le_pty_trans; [exact Hordp|]. rewrite <- Hcp.
    apply Hord; [lia|exact Hci|lia].
Qed.

Lemma up_inv_heap_le h i :
  up_inv h i -> (0 < i -> ord h i) -> heap_le h.
Proof.
  intros [Hord _] Hi k Hk. destruct (Z.eq_dec k i) as [->|Hne].
  - apply Hi. lia.
  - apply Hord; auto.
Qed.

Lemma u32_parent i : 0 < i < 4294967296 -> u32 (i - 1) / 2 = parent i.
Proof. intros Hi. rewrite u32_small by lia. reflexivity. Qed.

Lemma wf_num_elts h : wf h -> 0 <= num_elts h <= 4294967294.
Proof. unfold wf. lia. Qed.

Lemma heapify_up_loop_heap fuel : forall i h,
  wf h -> 0 <= i < num_elts h -> (Z.to_nat i <= fuel)%nat -> up_inv h i ->
  wp False (heapify_up_loop cmp_pty_fn fuel i)
     (fun _ h' _ => swaps h h' /\ heap_le h') h.
Proof.
  induction fuel as [|fuel IH]; intros i h Hwf Hi Hfuel Hinv.
  - assert (i = 0) by lia. subst i. cbn. split; [apply swaps_refl|].
    apply (up_inv_heap_le h 0); [auto|lia].
  - pose proof (wf_num_elts h Hwf) as Hn.
    cbn [heapify_up_loop]. destruct (Z.ltb_spec 0 i) as [Hpos|Hz].
    + rewrite u32_parent by lia.
      pose proof (parent_lt i Hpos) as Hpi.
      wp_step. apply wp_cmp_pty; [auto|lia|lia|].
      destruct (Z.ltb_spec 0 (cmp_pty_fn (sel (ptys h) (parent i))
                                (sel (ptys h) i))) as [Hgt|Hle].
      * wp_step. apply wp_swap; [auto|lia|lia|lia|]. cbv beta.
        eapply wp_mono.
        { apply IH.
          - apply wf_swapped; auto.
          - change (num_elts (swapped h i (parent i))) with (num_elts h). lia.
          - lia.
          - apply up_inv_swapped; [auto|lia|apply up_inv_hole; auto|auto]. }
        cbv beta. intros _ h' _ [Hsw Hheap]. split; [|exact Hheap].
        eapply swaps_trans; [|exact Hsw]. apply swaps_one; lia.
      * wp_step. split; [apply swaps_refl|].
        apply (up_inv_heap_le h i); [auto|]. intros _. apply not_gt_le_pty. lia.
    + wp_step. split; [apply swaps_refl|].
      apply (up_inv_heap_le h i); [auto|lia].
Qed.

(** *** Sifting down *)

Lemma down_inv_swapped h i c :
  wf h -> 0 <= i -> 0 < c < num_elts h -> parent c = i -> down_inv h i ->
  le_pty (sel (ptys h) c) (sel (ptys h) i) ->
  (forall s, 0 < s < num_elts h -> parent s = i ->
     le_pty (sel (ptys h) c) (sel (ptys h) s)) ->
  down_inv (swapped h i c) c.
Proof.
  intros Hwf Hi Hc Hpc [Hord Hgrand] Hci Hsib.
  pose proof (parent_lt c ltac:(lia)) as Hpclt.
  assert (Hn : num_elts (swapped h i c) = num_elts h) by reflexivity.
  split.
  - intros k Hk Hkp. rewrite Hn in Hk. unfold ord.
    pose proof (parent_lt k ltac:(lia)) as Hpk.
    rewrite !sel_ptys_swapped by (auto; lia).
    destruct (Z.eqb_spec k i) as [->|Hki].
    + destruct (Z.eqb_spec (parent i) i); [lia|].
      destruct (Z.eqb_spec (parent i) c); [lia|].
      apply Hgrand; [lia|lia|exact Hpc].
    + destruct (Z.eqb_spec k c) as [->|Hkc].
      * rewrite Hpc, Z.eqb_refl. exact Hci.
      * destruct (Z.eqb_spec (parent k) i) as [Hpki|Hpki].
        -- apply Hsib; [lia|exact Hpki].
        -- destruct (Z.eqb_spec (parent k) c); [contradiction|].
           apply Hord; [lia|exact Hpki].
  - intros Hpos d Hd Hdp. rewrite Hn in Hd.
    pose proof (parent_lt d ltac:(lia)) as Hpd.
    rewrite !sel_ptys_swapped by (auto; lia).
    rewrite Hpc, Z.eqb_refl.
    destruct (Z.eqb_spec d i); [lia|].
    destruct (Z.eqb_spec d c); [lia|].
    rewrite <- Hdp. apply Hord; [lia|lia].
Qed.

Lemma down_inv_heap_le h i :
  down_inv h i ->
  (forall c, 0 < c < num_elts h -> parent c = i -> ord h c) ->
  heap_le h.
Proof.
  intros [Hord _] Hch k Hk. destruct (Z.eq_dec (parent k) i) as [He|Hne].
  - apply Hch; auto.
  - apply Hord; auto.
Qed.

Lemma heap_le_down_inv h i : heap_le h -> down_inv h i.
Proof.
  intros Hh. split.
  - intros k Hk _. apply Hh. exact Hk.
  - intros Hi c Hc Hp. eapply le_pty_trans.
    + apply (Hh i). pose proof (parent_lt c ltac:(lia)). lia.
    + rewrite <- Hp. apply Hh. exact Hc.
Qed.

(** The loop test of [heapify_down] without wrap-around. *)
Lemma down_guard_exact i n :
  0 <= i < n -> n <= 4294967294 ->
  u32 (i + 2) = i + 2 /\ u32 (u32 (n - 1) - i) = n - 1 - i /\
  u32 (i + 1) = i + 1.
Proof.
  intros Hi Hn. rewrite (u32_small (n - 1)) by lia.
  rewrite !u32_small by lia. auto.
Qed.

Lemma down_post_swapped h i c i' h' :
  0 <= i < num_elts h -> 0 <= c < num_elts h -> i <> c ->
  down_post (swapped h i c) i' h' -> down_post h i' h'.
Proof.
  intros Hi Hc Hne (Hsw & Hi' & Hcases). split; [|split]; auto.
  eapply swaps_trans; [|exact Hsw]. apply swaps_one; auto.
Qed.

Lemma heapify_down_loop_heap fuel : forall i h,
  wf h -> 0 <= i < num_elts h -> (Z.to_nat (num_elts h - i) <= fuel)%nat ->
  down_inv h i ->
  wp False (heapify_down_loop cmp_pty_fn fuel i)
     (fun i' h' _ => down_post h i' h') h.
Proof.
  induction fuel as [|fuel IH]; intros i h Hwf Hi Hfuel Hinv;
    pose proof (wf_num_elts h Hwf) as Hn;
    destruct (down_guard_exact i (num_elts h) Hi ltac:(lia)) as (G1 & G2 & _);
    cbn [heapify_down_loop]; wp_step; wp_step; wp_step; wp_step;
    rewrite G1, G2; cbv beta;
    destruct (Z.leb_spec (i + 2) (num_elts h - 1 - i)) as [Hg|Hg];
    try lia;
    try (wp_step; split; [apply swaps_refl|]; split; [lia|]; right;
         split; [lia|exact Hinv]).
  rewrite (u32_small (2 * i + 1)), (u32_small (2 * i + 2)) by lia.
  set (jl := 2 * i + 1). set (jr := 2 * i + 2).
  assert (Hpl : parent jl = i) by apply parent_left.
  assert (Hpr : parent jr = i) by apply parent_right.
  assert (Hkids : forall s, 0 < s < num_elts h -> parent s = i ->
                            s = jl \/ s = jr).
  { intros s Hs Hps. apply parent_child; [lia|exact Hps]. }
  (* the tail shared by the two ways to reach the second test *)
  assert (Hright :
    (le_pty (sel (ptys h) i) (sel (ptys h) jl) \/
     le_pty (sel (ptys h) jr) (sel (ptys h) jl)) ->
    wp False
      (let* c3 := cmp_pty cmp_pty_fn i jr in
       if 0 <? c3
       then swap i jr ;; heapify_down_loop cmp_pty_fn fuel jr
       else ret i)
      (fun i' h' _ => down_post h i' h') h).
  { intros Hsib. wp_step. apply wp_cmp_pty; [auto|lia|lia|].
    destruct (Z.ltb_spec 0 (cmp_pty_fn (sel (ptys h) i) (sel (ptys h) jr)))
      as [Hgt|Hle].
    - apply gt_le_pty in Hgt.
      wp_step. apply wp_swap; [auto|lia|lia|lia|]. cbv beta.
      eapply wp_mono.
      { apply IH.
        - apply wf_swapped; auto.
        - change (num_elts (swapped h i jr)) with (num_elts h). lia.
        - change (num_elts (swapped h i jr)) with (num_elts h). lia.
        - apply down_inv_swapped; auto; try lia.
          intros s Hs Hps. destruct (Hkids s Hs Hps) as [->| ->].
          + destruct Hsib as [Hsib|Hsib]; [|exact Hsib].
            eapply le_pty_trans; eauto.
          + apply le_pty_refl. }
      cbv beta. intros i' h' _ Hpost.
      apply (down_post_swapped h i jr); auto; lia.
    - wp_step. split; [apply swaps_refl|]. split; [lia|]. left.
      split; [lia|]. apply (down_inv_heap_le h i); auto.
      intros s Hs Hps. unfold ord. rewrite Hps.
      assert (Hijr : le_pty (sel (ptys h) i) (sel (ptys h) jr))
        by (apply not_gt_le_pty; lia).
      destruct (Hkids s Hs Hps) as [->| ->]; [|exact Hijr].
      destruct Hsib as [Hsib|Hsib]; [exact Hsib|].
      eapply le_pty_trans; eauto. }
  wp_step. apply wp_cmp_pty; [auto|lia|lia|].
  wp_step.
  destruct (Z.ltb_spec 0 (cmp_pty_fn (sel (ptys h) i) (sel (ptys h) jl)))
    as [Hgt1|Hle1].
  - wp_step. apply wp_cmp_pty; [auto|lia|lia|]. wp_step.
    destruct (Z.leb_spec (cmp_pty_fn (sel (ptys h) jl) (sel (ptys h) jr)) 0)
      as [Hle2|Hgt2].
    + apply gt_le_pty in Hgt1.
      wp_step. apply wp_swap; [auto|lia|lia|lia|]. cbv beta.
      eapply wp_mono.
      { apply IH.
        - apply wf_swapped; auto.
        - change (num_elts (swapped h i jl)) with (num_elts h). lia.
        - change (num_elts (swapped h i jl)) with (num_elts h). lia.
        - apply down_inv_swapped; auto; try lia.
          intros s Hs Hps. destruct (Hkids s Hs Hps) as [->| ->].
          + apply le_pty_refl.
          + exact Hle2. }
      cbv beta. intros i' h' _ Hpost.
      apply (down_post_swapped h i jl); auto; lia.
    + eapply wp_mono; [apply Hright|].
      * right. apply gt_le_pty. exact Hgt2.
      * cbv beta. auto.
  - wp_step. eapply wp_mono; [apply Hright|].
    + left. apply not_gt_le_pty. lia.
    + cbv beta. auto.
Qed.

Lemma heapify_down_heap i h :
  wf h -> 0 <= i < num_elts h -> down_inv h i ->
  wp False (heapify_down cmp_pty_fn i)
     (fun _ h' _ => swaps h h' /\ heap_le h') h.
Proof.
  intros Hwf Hi Hinv. pose proof (wf_num_elts h Hwf) as Hn.
  unfold heapify_down. wp_step. wp_step. wp_step.
  apply wp_assert; [intros _|intros Hb; apply andb_false_iff in Hb; lia].
  wp_step. eapply wp_mono; [apply heapify_down_loop_heap; auto; lia|].
  cbv beta. intros i' h' _ (Hsw & Hi' & Hcases).
  destruct (swaps_counts h h' Hsw) as (Hn' & _).
  pose proof (swaps_wf h h' Hsw Hwf) as Hwf'.
  wp_step. wp_step. rewrite Hn'.
  destruct (down_guard_exact i' (num_elts h) Hi' ltac:(lia)) as (_ & G2 & G3).
  rewrite G2, G3.
  destruct (Z.eqb_spec (i' + 1) (num_elts h - 1 - i')) as [Heq|Hne].
  - destruct Hcases as [[Hg _]|[_ Hinv']]; [lia|].
    rewrite (u32_small (2 * i' + 1)) by lia.
    set (jl := 2 * i' + 1).
    assert (Hpl : parent jl = i') by apply parent_left.
    assert (Hkids : forall s, 0 < s < num_elts h' -> parent s = i' -> s = jl).
    { intros s Hs Hps. destruct (parent_child s i') as [->| ->]; auto; lia. }
    wp_step. apply wp_cmp_pty; [auto|lia|lia|].
    destruct (Z.ltb_spec 0 (cmp_pty_fn (sel (ptys h') i') (sel (ptys h') jl)))
      as [Hgt|Hle].
    + apply gt_le_pty in Hgt.
      apply wp_swap; [auto|lia|lia|lia|]. split.
      * eapply swaps_trans; [exact Hsw|]. apply swaps_one; lia.
      * apply (down_inv_heap_le _ jl).
        -- apply down_inv_swapped; auto; try lia.
           intros s Hs Hps. rewrite (Hkids s Hs Hps). apply le_pty_refl.
        -- intros c Hc Hpc.
           change (num_elts (swapped h' i' jl)) with (num_elts h') in Hc.
           pose proof (parent_child c jl ltac:(lia) Hpc). lia.
    + wp_step. split; [exact Hsw|].
      apply (down_inv_heap_le h' i'); auto.
      intros s Hs Hps. rewrite (Hkids s Hs Hps). unfold ord. rewrite Hpl.
      apply not_gt_le_pty. lia.
  - wp_step. split; [exact Hsw|].
    destruct Hcases as [[_ Hh]|[Hg Hinv']]; [exact Hh|].
    apply (down_inv_heap_le h' i'); auto.
    intros s Hs Hps. pose proof (parent_child s i' ltac:(lia) Hps). lia.
Qed.

(** *** Motion performed by the two passes *)

Lemma has_swap_app l1 l2 : has_swap (l1 ++ l2) = has_swap l1 || has_swap l2.
Proof. apply existsb_app. Qed.

Lemma heapify_up_loop_zero fuel : heapify_up_loop cmp_pty_fn fuel 0 = ret tt.
Proof. destruct fuel; reflexivity. Qed.

Lemma heapify_up_hole i h :
  wf h -> 0 <= i < num_elts h -> hole_inv h i ->
  wp False (heapify_up cmp_pty_fn i)
     (fun _ h' l =>
        swaps h h' /\
        (has_swap l = true -> heap_le h') /\
        (has_swap l = false -> h' = h /\ (0 < i -> ord h i))) h.
Proof.
  intros Hwf Hi Hinv. pose proof (wf_num_elts h Hwf) as Hn.
  unfold heapify_up. destruct (Z.ltb_spec 0 i) as [Hpos|Hz].
  - destruct (Z.to_nat i) as [|fuel] eqn:Hfuel; [lia|].
    cbn [heapify_up_loop]. destruct (Z.ltb_spec 0 i) as [_|?]; [|lia].
    rewrite u32_parent by lia.
    pose proof (parent_lt i Hpos) as Hpi.
    wp_step. apply wp_cmp_pty; [auto|lia|lia|].
    destruct (Z.ltb_spec 0 (cmp_pty_fn (sel (ptys h) (parent i))
                              (sel (ptys h) i))) as [Hgt|Hle].
    + wp_step. apply wp_swap; [auto|lia|lia|lia|]. cbv beta.
      eapply wp_mono.
      { apply heapify_up_loop_heap.
        - apply wf_swapped; auto.
        - change (num_elts (swapped h i (parent i))) with (num_elts h). lia.
        - lia.
        - apply up_inv_swapped; auto. lia. }
      cbv beta. intros _ h' l [Hsw Hheap]. split; [|split].
      * eapply swaps_trans; [|exact Hsw]. apply swaps_one; lia.
      * intros _. exact Hheap.
      * cbn. discriminate.
    + wp_step. split; [apply swaps_refl|]. split.
      * cbn. discriminate.
      * intros _. split; [reflexivity|]. intros _. apply not_gt_le_pty. lia.
  - assert (i = 0) by lia. subst i. rewrite heapify_up_loop_zero.
    wp_step. split; [apply swaps_refl|]. split.
    + cbn. discriminate.
    + intros _. split; [reflexivity|]. lia.
Qed.

Lemma heapify_down_still i h :
  wf h -> 0 <= i < num_elts h -> heap_le h ->
  wp False (heapify_down cmp_pty_fn i)
     (fun _ h' l => h' = h /\ has_swap l = false) h.
Proof.
  intros Hwf Hi Hheap. pose proof (wf_num_elts h Hwf) as Hn.
  destruct (down_guard_exact i (num_elts h) Hi ltac:(lia)) as (G1 & G2 & G3).
  unfold heapify_down. wp_step. wp_step. wp_step.
  apply wp_assert; [intros _|intros Hb; apply andb_false_iff in Hb; lia].
  wp_step.
  destruct (Z.to_nat (num_elts h - i)) as [|fuel] eqn:Hfuel; [lia|].
  cbn [heapify_down_loop]. wp_step. wp_step. wp_step. wp_step.
  rewrite G1, G2. cbv beta.
  destruct (Z.leb_spec (i + 2) (num_elts h - 1 - i)) as [Hg|Hg].
  - rewrite (u32_small (2 * i + 1)), (u32_small (2 * i + 2)) by lia.
    wp_step. apply wp_cmp_pty; [auto|lia|lia|]. wp_step.
    assert (Hl : le_pty (sel (ptys h) i) (sel (ptys h) (2 * i + 1))).
    { pose proof (Hheap (2 * i + 1) ltac:(lia)) as Ho. unfold ord in Ho.
      rewrite parent_left in Ho. exact Ho. }
    assert (Hr : le_pty (sel (ptys h) i) (sel (ptys h) (2 * i + 2))).
    { pose proof (Hheap (2 * i + 2) ltac:(lia)) as Ho. unfold ord in Ho.
      rewrite parent_right in Ho. exact Ho. }
    unfold le_pty in Hl, Hr.
    destruct (Z.ltb_spec 0 (cmp_pty_fn (sel (ptys h) i)
                              (sel (ptys h) (2 * i + 1)))); [lia|].
    wp_step. wp_step. apply wp_cmp_pty; [auto|lia|lia|].
    destruct (Z.ltb_spec 0 (cmp_pty_fn (sel (ptys h) i)
                              (sel (ptys h) (2 * i + 2)))); [lia|].
    wp_step. wp_step. wp_step. rewrite G2, G3.
    destruct (Z.eqb_spec (i + 1) (num_elts h - 1 - i)); [lia|].
    wp_step. split; reflexivity.
  - wp_step. wp_step. wp_step. rewrite G2, G3.
    destruct (Z.eqb_spec (i + 1) (num_elts h - 1 - i)) as [Heq|Hne].
    + rewrite (u32_small (2 * i + 1)) by lia.
      wp_step. apply wp_cmp_pty; [auto|lia|lia|].
      assert (Hl : le_pty (sel (ptys h) i) (sel (ptys h) (2 * i + 1))).
      { pose proof (Hheap (2 * i + 1) ltac:(lia)) as Ho. unfold ord in Ho.
        rewrite parent_left in Ho. exact Ho. }
      unfold le_pty in Hl.
      destruct (Z.ltb_spec 0 (cmp_pty_fn (sel (ptys h) i)
                                (sel (ptys h) (2 * i + 1)))); [lia|].
      wp_step. split; reflexivity.
    + wp_step. split; reflexivity.
Qed.

(** *** Slots touched by sifting down *)

Lemma event_in_bounds_slots n e :
  event_in_bounds n e -> Forall (fun s => 0 <= s < n) (event_slots e).
Proof.
  destruct e as [i n'|i j|i j|k v]; cbn; intros H;
    repeat apply Forall_cons_2; try apply Forall_nil_2; tauto.
Qed.

Ltac bounds_tac :=
  repeat first
    [ apply Forall_nil_2
    | apply Forall_cons_2
    | apply Forall_app_2 ];
  cbn [event_in_bounds]; auto; try lia.

Lemma heapify_down_loop_bounds fuel : forall i h,
  wf h -> 0 <= i < num_elts h -> (Z.to_nat (num_elts h - i) <= fuel)%nat ->
  wp False (heapify_down_loop cmp_pty_fn fuel i)
     (fun i' h' l =>
        swaps h h' /\ 0 <= i' < num_elts h /\
        Forall (event_in_bounds (num_elts h)) l) h.
Proof.
  induction fuel as [|fuel IH]; intros i h Hwf Hi Hfuel;
    pose proof (wf_num_elts h Hwf) as Hn;
    destruct (down_guard_exact i (num_elts h) Hi ltac:(lia)) as (G1 & G2 & _);
    assert (G0 : u32 (num_elts h - 1) = num_elts h - 1)
      by (apply u32_small; lia);
    assert (Hguard : event_in_bounds (num_elts h) (EvGuard i (num_elts h)))
      by (cbn [event_in_bounds]; repeat split; auto; lia);
    cbn [heapify_down_loop]; wp_step; wp_step; wp_step; wp_step;
    rewrite G1, G2; cbv beta;
    destruct (Z.leb_spec (i + 2) (num_elts h - 1 - i)) as [Hg|Hg];
    try lia;
    try (wp_step; split; [apply swaps_refl|]; split; [lia|];
         repeat apply Forall_cons_2; auto; apply Forall_nil_2).
  rewrite (u32_small (2 * i + 1)), (u32_small (2 * i + 2)) by lia.
  set (jl := 2 * i + 1). set (jr := 2 * i + 2).
  set (n := num_elts h) in *.
  assert (Hright : forall lpre, Forall (event_in_bounds n) lpre ->
    wp False
      (let* c3 := cmp_pty cmp_pty_fn i jr in
       if 0 <? c3
       then swap i jr ;; heapify_down_loop cmp_pty_fn fuel jr
       else ret i)
      (fun i' h' l =>
         swaps h h' /\ 0 <= i' < n /\ Forall (event_in_bounds n) (lpre ++ l)) h).
  { intros lpre Hpre. wp_step. apply wp_cmp_pty; [auto|subst n; lia ..|].
    destruct (0 <? _).
    - wp_step. apply wp_swap; [auto|subst n; lia ..|]. cbv beta.
      eapply wp_mono.
      { apply (IH jr (swapped h i jr)).
        - apply wf_swapped; auto.
        - change (num_elts (swapped h i jr)) with n. lia.
        - change (num_elts (swapped h i jr)) with n. lia. }
      cbv beta. intros i' h' l (Hsw & Hi' & Hl).
      change (num_elts (swapped h i jr)) with n in Hi', Hl.
      split; [|split; [exact Hi'|]].
      + eapply swaps_trans; [|exact Hsw]. apply swaps_one; subst n; lia.
      + bounds_tac.
    - wp_step. split; [apply swaps_refl|]. split; [lia|]. bounds_tac. }
  wp_step. apply wp_cmp_pty; [auto|subst n; lia ..|]. wp_step.
  destruct (0 <? _).
  - wp_step. apply wp_cmp_pty; [auto|subst n; lia ..|]. wp_step.
    destruct (_ <=? 0).
    + wp_step. apply wp_swap; [auto|subst n; lia ..|]. cbv beta.
      eapply wp_mono.
      { apply (IH jl (swapped h i jl)).
        - apply wf_swapped; auto.
        - change (num_elts (swapped h i jl)) with n. lia.
        - change (num_elts (swapped h i jl)) with n. lia. }
      cbv beta. intros i' h' l (Hsw & Hi' & Hl).
      change (num_elts (swapped h i jl)) with n in Hi', Hl.
      split; [|split; [exact Hi'|]].
      * eapply swaps_trans; [|exact Hsw]. apply swaps_one; subst n; lia.
      * bounds_tac.
    + eapply wp_mono; [apply (Hright ([EvGuard i n; EvCmp i jl; EvCmp jl jr]))|].
      * bounds_tac.
      * cbv beta. intros i' h' l (Hsw & Hi' & Hl). split; [exact Hsw|].
        split; [exact Hi'|]. exact Hl.
  - wp_step. eapply wp_mono; [apply (Hright ([EvGuard i n; EvCmp i jl]))|].
    + bounds_tac.
    + cbv beta. intros i' h' l (Hsw & Hi' & Hl). split; [exact Hsw|].
      split; [exact Hi'|]. exact Hl.
Qed.

Lemma heapify_down_bounds i h :
  wf h -> 0 <= i < num_elts h ->
  wp False (heapify_down cmp_pty_fn i)
     (fun _ h' l => swaps h h' /\ Forall (event_in_bounds (num_elts h)) l) h.
Proof.
  intros Hwf Hi. pose proof (wf_num_elts h Hwf) as Hn.
  unfold heapify_down. wp_step. wp_step. wp_step.
  apply wp_assert; [intros _|intros Hb; apply andb_false_iff in Hb; lia].
  wp_step. eapply wp_mono; [apply heapify_down_loop_bounds; auto; lia|].
  cbv beta. intros i' h' l (Hsw & Hi' & Hl).
  destruct (swaps_counts h h' Hsw) as (Hn' & _).
  pose proof (swaps_wf h h' Hsw Hwf) as Hwf'.
  wp_step. wp_step. rewrite Hn'.
  destruct (down_guard_exact i' (num_elts h) Hi' ltac:(lia)) as (_ & G2 & G3).
  rewrite G2, G3.
  destruct (Z.eqb_spec (i' + 1) (num_elts h - 1 - i')) as [Heq|Hne].
  - rewrite (u32_small (2 * i' + 1)) by lia.
    wp_step. apply wp_cmp_pty; [auto|lia|lia|].
    destruct (0 <? _).
    + apply wp_swap; [auto|lia|lia|lia|]. split.
      * eapply swaps_trans; [exact Hsw|]. apply swaps_one; lia.
      * bounds_tac.
    + wp_step. split; [exact Hsw|]. bounds_tac.
  - wp_step. split; [exact Hsw|]. bounds_tac.
Qed.

(** ** Growth *)

Lemma length_realloc w n l :
  length (realloc w n l) = Z.to_nat (alloc_slots n w).
Proof. unfold realloc. apply length_resize. Qed.

Lemma sel_realloc w n l k :
  0 <= k < alloc_slots n w -> k < Z.of_nat (length l) ->
  sel (realloc w n l) k = sel l k.
Proof.
  intros Hk Hl. unfold sel, slot, realloc.
  rewrite lookup_resize by lia. reflexivity.
Qed.

Lemma alloc_slots_fits n w :
  0 <= n -> 0 <= w -> n * w < 2 ^ 32 -> alloc_slots n w = n.
Proof.
  intros Hn Hw Hlt. unfold alloc_slots, alloc_bytes.
  destruct (Z.eqb_spec w 0) as [|Hne]; [reflexivity|].
  rewrite u32_small by nia. apply Z.div_mul. exact Hne.
Qed.

Lemma grown_size_bounds h :
  wf h -> heap_size h < heap_max_size h ->
  heap_size h < grown_size h <= heap_max_size h.
Proof.
  unfold wf, grown_size. intros (Hn & Hs & Hm & _) Hlt.
  destruct (Z.ltb_spec (heap_max_size h - heap_size h) (heap_size h)); lia.
Qed.

Lemma grants_growth_cons h :
  grants_growth h <-> exists m, allocator h = true :: true :: m.
Proof.
  unfold grants_growth. split.
  - destruct (allocator h) as [|a [|b m]]; try discriminate.
    cbn. intros Heq. injection Heq as -> ->. eauto.
  - intros [m ->]. reflexivity.
Qed.

(** [heap_grow] aborts at its first assertion when the capacity cannot
    grow and at one of the two others when a request is refused;
    otherwise it returns with the grown arrays. *)
Lemma heap_grow_run h :
  wf h ->
  heap_grow h =
    if heap_size h <? heap_max_size h
    then match allocator h with
         | true :: true :: _ => Ok (tt, grown h, [])
         | _ => Fatal
         end
    else Fatal.
Proof.
  intros (Hn & Hs & Hm & _).
  unfold heap_grow. unfold bind at 1 2. unfold gets at 1 2.
  unfold bind at 1. unfold assert at 1.
  destruct (Z.ltb_spec (heap_size h) (heap_max_size h)) as [Hlt|Hge];
    [|reflexivity].
  cbv beta iota. unfold ret at 1. cbv beta iota.
  rewrite (u32_small (heap_max_size h - heap_size h)) by lia.
  assert (Hset :
    (if heap_max_size h - heap_size h <? heap_size h
     then modify (set_heap_size (heap_max_size h))
     else modify (set_heap_size (u32 (heap_size h * 2)))) h
    = Ok (tt, set_heap_size (grown_size h) h, [])).
  { unfold grown_size.
    destruct (Z.ltb_spec (heap_max_size h - heap_size h) (heap_size h));
      [reflexivity|].
    rewrite u32_small by lia. reflexivity. }
  unfold bind at 1. rewrite Hset. cbv beta iota.
  unfold grown, bind, request, assert, modify, ret, fatal. hsimpl.
  destruct (allocator h) as [|[] [|[] m]]; reflexivity.
Qed.

Lemma wp_heap_grow h (Q : unit -> heap_uint32_t -> list event -> Prop) :
  wf h ->
  (heap_size h < heap_max_size h -> grants_growth h -> Q tt (grown h) []) ->
  wp (heap_max_size h <= heap_size h \/ ~ grants_growth h) heap_grow Q h.
Proof.
  intros Hwf HQ. unfold wp. rewrite heap_grow_run by exact Hwf.
  destruct (Z.ltb_spec (heap_size h) (heap_max_size h)) as [Hlt|Hge];
    [|left; exact Hge].
  destruct (allocator h) as [|a [|b m]] eqn:Hal.
  - right. unfold grants_growth. rewrite Hal. discriminate.
  - destruct a; right; unfold grants_growth; rewrite Hal; discriminate.
  - destruct a, b; try (right; unfold grants_growth; rewrite Hal; discriminate).
    apply HQ; [exact Hlt|]. unfold grants_growth. rewrite Hal. reflexivity.
Qed.

(** ** Push *)

Lemma push_room_spec h :
  wf h -> ~ at_capacity h -> room h ->
  wf (push_room h) /\ num_elts (push_room h) = num_elts h /\
  num_elts h < heap_size (push_room h) /\ ht (push_room h) = ht h /\
  heap_max_size (push_room h) = heap_max_size h /\
  (forall k, 0 <= k < num_elts h ->
     sel (ptys (push_room h)) k = sel (ptys h) k /\
     sel (elts (push_room h)) k = sel (elts h) k).
Proof.
  intros Hwf Hcap [Hrp Hre]. pose proof Hwf as (Hn & Hs & Hm & Hlp & Hle).
  unfold push_room, at_capacity in *.
  destruct (Z.eqb_spec (heap_size h) (num_elts h)) as [Heq|Hne].
  - assert (Hlt : heap_size h < heap_max_size h) by lia.
    pose proof (grown_size_bounds h Hwf Hlt) as Hg.
    unfold grown in *. hsimpl. rewrite length_realloc in Hrp, Hre.
    split; [unfold wf; hsimpl; rewrite !length_realloc; repeat split; lia|].
    split; [reflexivity|]. split; [lia|]. split; [reflexivity|].
    split; [reflexivity|]. intros k Hk.
    split; apply sel_realloc; lia.
  - split; [auto|]. split; [reflexivity|]. split; [lia|]. auto.
Qed.

Lemma wf_pushed h p e :
  wf h -> ~ at_capacity h -> room h -> wf (pushed h p e).
Proof.
  intros Hwf Hcap Hroom.
  destruct (push_room_spec h Hwf Hcap Hroom) as (Hwg & Hng & Hsg & _).
  destruct Hwg as (Hn & Hs & Hm & Hlp & Hle). destruct Hroom as [Hrp Hre].
  unfold wf, pushed. hsimpl. rewrite !length_upd. repeat split; lia.
Qed.

Lemma sel_ptys_pushed h p e k :
  wf h -> ~ at_capacity h -> room h -> 0 <= k <= num_elts h ->
  sel (ptys (pushed h p e)) k = if k =? num_elts h then p else sel (ptys h) k.
Proof.
  intros Hwf Hcap Hroom Hk.
  destruct (push_room_spec h Hwf Hcap Hroom)
    as (Hwg & Hng & Hsg & _ & _ & Hsel).
  destruct Hroom as [Hrp Hre].
  unfold pushed. hsimpl. destruct (Z.eqb_spec k (num_elts h)) as [->|Hne].
  - apply sel_upd_eq. lia.
  - rewrite sel_upd_ne by lia. apply Hsel. lia.
Qed.

Lemma sel_elts_pushed h p e k :
  wf h -> ~ at_capacity h -> room h -> 0 <= k <= num_elts h ->
  sel (elts (pushed h p e)) k = if k =? num_elts h then e else sel (elts h) k.
Proof.
  intros Hwf Hcap Hroom Hk.
  destruct (push_room_spec h Hwf Hcap Hroom)
    as (Hwg & Hng & Hsg & _ & _ & Hsel).
  destruct Hroom as [Hrp Hre].
  unfold pushed. hsimpl. destruct (Z.eqb_spec k (num_elts h)) as [->|Hne].
  - apply sel_upd_eq. lia.
  - rewrite sel_upd_ne by lia. apply Hsel. lia.
Qed.

Lemma ht_pushed h p e :
  wf h -> ~ at_capacity h -> room h ->
  ht (pushed h p e) = <[e := num_elts h]> (ht h).
Proof.
  intros Hwf Hcap Hroom.
  destruct (push_room_spec h Hwf Hcap Hroom) as (_ & _ & _ & Hht & _).
  unfold pushed. hsimpl. rewrite Hht. reflexivity.
Qed.

Lemma up_inv_pushed h p e :
  wf h -> ~ at_capacity h -> room h -> heap_le h ->
  up_inv (pushed h p e) (num_elts h).
Proof.
  intros Hwf Hcap Hroom Hheap. pose proof (wf_num_elts h Hwf) as Hn.
  assert (Hnp : num_elts (pushed h p e) = num_elts h + 1) by reflexivity.
  split.
  - intros k Hk Hkn. rewrite Hnp in Hk. unfold ord.
    pose proof (parent_lt k ltac:(lia)) as Hpk.
    rewrite !sel_ptys_pushed by (auto; lia).
    destruct (Z.eqb_spec k (num_elts h)); [lia|].
    destruct (Z.eqb_spec (parent k) (num_elts h)); [lia|].
    apply Hheap. lia.
  - intros Hpos c Hc Hpc. rewrite Hnp in Hc.
    pose proof (parent_lt c ltac:(lia)). lia.
Qed.

Lemma push_not_aborts h :
  ~ at_capacity h -> (heap_size h = num_elts h -> grants_growth h) ->
  ~ push_aborts h.
Proof. intros Hcap Hg [Ha|[Hfull Hn]]; auto. Qed.

(** The first statement of [heap_uint32_push]. *)
Lemma wp_push_room h (Q : unit -> heap_uint32_t -> list event -> Prop) :
  wf h ->
  (~ at_capacity h -> Q tt (push_room h) []) ->
  wp (push_aborts h)
    (if heap_size h =? num_elts h then heap_grow else ret tt) Q h.
Proof.
  intros Hwf HQ. unfold push_room, push_aborts, at_capacity in *.
  destruct (Z.eqb_spec (heap_size h) (num_elts h)) as [Heq|Hne].
  - eapply wp_fatal_mono; [apply wp_heap_grow; auto|].
    + intros Hlt _. apply HQ. lia.
    + intros [Hge|Hno]; [left; lia|right; auto].
  - wp_step. apply HQ. lia.
Qed.

Lemma wp_push h p e :
  wf h -> heap_le h -> room h ->
  wp (push_aborts h) (heap_uint32_push cmp_pty_fn p e)
     (fun _ h' _ => ~ at_capacity h /\ swaps (pushed h p e) h' /\ heap_le h') h.
Proof.
  intros Hwf Hheap Hroom. pose proof (wf_num_elts h Hwf) as Hn.
  unfold heap_uint32_push. wp_step. wp_step. wp_step. wp_step. wp_step.
  apply wp_push_room; [exact Hwf|]. intros Hcap.
  destruct (push_room_spec h Hwf Hcap Hroom) as (Hwg & Hng & Hsg & Hht & _).
  destruct Hroom as [Hrp Hre].
  wp_step. wp_step. rewrite Hng.
  wp_step. apply wp_store_elt; [lia|].
  wp_step. apply wp_store_pty; [hsimpl; lia|].
  wp_step. wp_step. wp_step. wp_step. hsimpl. rewrite Hng.
  rewrite (u32_small (num_elts h + 1)) by lia.
  fold (pushed h p e). unfold heapify_up.
  eapply wp_total, wp_mono.
  { apply heapify_up_loop_heap.
    - apply wf_pushed; auto. split; assumption.
    - change (num_elts (pushed h p e)) with (num_elts h + 1). lia.
    - lia.
    - apply up_inv_pushed; auto. split; assumption. }
  cbv beta. intros _ h' _ [Hsw Hh]. auto.
Qed.

Lemma bind_ok {A B} (m : M A) (f : A -> M B) h b h2 l :
  bind m f h = Ok (b, h2, l) ->
  exists a h1 l1 l2,
    m h = Ok (a, h1, l1) /\ f a h1 = Ok (b, h2, l2) /\ l = l1 ++ l2.
Proof.
  unfold bind. destruct (m h) as [[[a h1] l1]| | |]; try discriminate.
  destruct (f a h1) as [[[b' h2'] l2]| | |] eqn:Hf; try discriminate.
  intros Heq. injection Heq as -> -> <-. exists a, h1, l1, l2. auto.
Qed.

(** A push that returns has written its slot inside the two arrays. *)
Lemma push_run_room h p e h' l :
  wf h -> heap_uint32_push cmp_pty_fn p e h = Ok (tt, h', l) -> room h.
Proof.
  intros Hwf Hrun. pose proof (wf_num_elts h Hwf) as Hn.
  unfold heap_uint32_push in Hrun.
  apply bind_ok in Hrun as (hs & ? & ? & ? & Hhs & Hrun & _).
  unfold gets in Hhs. injection Hhs as <- <- <-.
  apply bind_ok in Hrun as (n & ? & ? & ? & Hhn & Hrun & _).
  unfold gets in Hhn. injection Hhn as <- <- <-.
  apply bind_ok in Hrun as ([] & g & ? & ? & Hgrow & Hrun & _).
  assert (Hg : g = push_room h).
  { unfold push_room.
    destruct (Z.eqb_spec (heap_size h) (num_elts h)) as [Heq|Hne].
    - rewrite heap_grow_run in Hgrow by exact Hwf.
      destruct (heap_size h <? heap_max_size h); [|discriminate].
      destruct (allocator h) as [|[] [|[] m]]; try discriminate.
      injection Hgrow as <- _. reflexivity.
    - unfold ret in Hgrow. injection Hgrow as <- _. reflexivity. }
  subst g.
  assert (Hng : num_elts (push_room h) = num_elts h).
  { unfold push_room. destruct (heap_size h =? num_elts h); reflexivity. }
  apply bind_ok in Hrun as (ix & ? & ? & ? & Hix & Hrun & _).
  unfold gets in Hix. injection Hix as <- <- <-. rewrite Hng in Hrun.
  apply bind_ok in Hrun as ([] & h2 & ? & ? & Hse & Hrun & _).
  apply bind_ok in Hrun as ([] & h3 & ? & ? & Hsp & _).
  unfold store_elt in Hse.
  destruct (slot (elts (push_room h)) (num_elts h)) as [be|] eqn:Hx;
    [|discriminate].
  injection Hse as <- _.
  unfold store_pty in Hsp. hsimpl.
  destruct (slot (ptys (push_room h)) (num_elts h)) as [bp|] eqn:Hy;
    [|discriminate].
  split; eapply slot_Some_lt; eauto; lia.
Qed.

(** A push with room for its slot returns unless it aborts. *)
Lemma push_returns h p e :
  wf h -> heap_le h -> ~ push_aborts h -> room h ->
  exists h' l,
    heap_uint32_push cmp_pty_fn p e h = Ok (tt, h', l) /\
    swaps (pushed h p e) h' /\ heap_le h'.
Proof.
  intros Hwf Hheap Hno Hroom.
  destruct (wp_ok _ _ _ (wp_not_fatal _ _ _ _ (wp_push h p e Hwf Hheap Hroom) Hno))
    as ([] & h' & l & Hrun & _ & Hsw & Hh).
  exists h', l. auto.
Qed.

(** A refused request makes the push of a full heap abort. *)
Lemma push_refused h p e :
  wf h -> heap_size h = num_elts h -> ~ grants_growth h ->
  heap_uint32_push cmp_pty_fn p e h = Fatal.
Proof.
  intros Hwf Hfull Hno.
  unfold heap_uint32_push. unfold bind at 1 2 3. unfold gets at 1 2.
  rewrite Hfull, Z.eqb_refl. rewrite heap_grow_run by exact Hwf.
  destruct (heap_size h <? heap_max_size h); [|reflexivity].
  unfold grants_growth in Hno.
  destruct (allocator h) as [|[] [|[] m]]; try reflexivity.
  exfalso. apply Hno. reflexivity.
Qed.

(** With byte counts that do not wrap, the arrays hold [heap_size]
    slots and the slot of a push lies inside them. *)
Lemma room_fits h :
  wf h -> sized h -> ~ at_capacity h -> fits h (push_size h) -> room h.
Proof.
  intros Hwf [Hsp Hse] Hcap (Hps & Hes & Hfp & Hfe).
  pose proof Hwf as (Hn & Hs & Hm & _).
  unfold room, push_room, push_size, at_capacity in *.
  destruct (Z.eqb_spec (heap_size h) (num_elts h)) as [Heq|Hne].
  - assert (Hlt : heap_size h < heap_max_size h) by lia.
    pose proof (grown_size_bounds h Hwf Hlt) as Hg.
    unfold grown. hsimpl. rewrite !length_realloc.
    rewrite !alloc_slots_fits by lia. lia.
  - rewrite Hsp, Hse. rewrite !alloc_slots_fits by lia. lia.
Qed.

(** ** Update *)

Lemma wf_updated h ix p : wf h -> wf (updated h ix p).
Proof. unfold wf, updated. hsimpl. rewrite length_upd. auto. Qed.

Lemma sel_ptys_updated h ix p k :
  wf h -> 0 <= ix < num_elts h -> 0 <= k ->
  sel (ptys (updated h ix p)) k = if k =? ix then p else sel (ptys h) k.
Proof.
  intros Hwf Hix Hk. destruct (wf_alloc h ix Hwf Hix) as [Ha _].
  unfold updated. hsimpl. destruct (Z.eqb_spec k ix) as [->|Hne].
  - apply sel_upd_eq. lia.
  - apply sel_upd_ne; lia.
Qed.

Lemma hole_inv_updated h ix p :
  wf h -> 0 <= ix < num_elts h -> heap_le h -> hole_inv (updated h ix p) ix.
Proof.
  intros Hwf Hix Hheap.
  assert (Hn : num_elts (updated h ix p) = num_elts h) by reflexivity.
  split.
  - intros k Hk Hki Hpki. rewrite Hn in Hk. unfold ord.
    pose proof (parent_lt k ltac:(lia)) as Hpk.
    rewrite !sel_ptys_updated by (auto; lia).
    destruct (Z.eqb_spec k ix); [contradiction|].
    destruct (Z.eqb_spec (parent k) ix); [contradiction|].
    apply Hheap. lia.
  - intros Hpos c Hc Hpc. rewrite Hn in Hc.
    pose proof (parent_lt c ltac:(lia)) as Hpclt.
    pose proof (parent_lt ix Hpos) as Hpix.
    rewrite !sel_ptys_updated by (auto; lia).
    destruct (Z.eqb_spec (parent ix) ix); [lia|].
    destruct (Z.eqb_spec c ix); [lia|].
    eapply le_pty_trans; [apply (Hheap ix); lia|].
    rewrite <- Hpc. apply Hheap. lia.
Qed.

Lemma hole_inv_down_inv h i :
  hole_inv h i -> (0 < i -> ord h i) -> down_inv h i.
Proof.
  intros [Hord Hgrand] Hi. split; [|exact Hgrand].
  intros k Hk Hpk. destruct (Z.eq_dec k i) as [->|Hne].
  - apply Hi. lia.
  - apply Hord; auto.
Qed.

(** The two passes of [heap_uint32_update], run one after the other from
    the heap whose slot [ix] holds the new priority. *)
Lemma update_passes h ix p :
  wf h -> 0 <= ix < num_elts h -> heap_le h ->
  exists h1 l1 h2 l2,
    heapify_up cmp_pty_fn ix (updated h ix p) = Ok (tt, h1, l1) /\
    heapify_down cmp_pty_fn ix h1 = Ok (tt, h2, l2) /\
    swaps (updated h ix p) h2 /\ heap_le h2 /\
    (has_swap l1 = true -> has_swap l2 = false).
Proof.
  intros Hwf Hix Hheap.
  pose proof (wf_updated h ix p Hwf) as Hwf0.
  pose proof (hole_inv_updated h ix p Hwf Hix Hheap) as Hhole.
  destruct (wp_ok _ _ _ (heapify_up_hole ix (updated h ix p) Hwf0 Hix Hhole))
    as ([] & h1 & l1 & Hup & Hsw1 & Hmoved & Hstill).
  destruct (swaps_counts _ _ Hsw1) as (Hn1 & _).
  pose proof (swaps_wf _ _ Hsw1 Hwf0) as Hwf1.
  assert (Hix1 : 0 <= ix < num_elts h1) by (rewrite Hn1; exact Hix).
  assert (Hdown : down_inv h1 ix).
  { destruct (has_swap l1) eqn:Hl1.
    - apply heap_le_down_inv. apply Hmoved. reflexivity.
    - destruct (Hstill eq_refl) as [-> Hord].
      apply hole_inv_down_inv; auto. }
  destruct (wp_ok _ _ _ (heapify_down_heap ix h1 Hwf1 Hix1 Hdown))
    as ([] & h2 & l2 & Hdn & Hsw2 & Hheap2).
  exists h1, l1, h2, l2. split; [exact Hup|]. split; [exact Hdn|].
  split; [eapply swaps_trans; eauto|]. split; [exact Hheap2|].
  intros Hl1. specialize (Hmoved Hl1).
  pose proof (heapify_down_still ix h1 Hwf1 Hix1 Hmoved) as Hwp.
  apply (wp_run _ _ _ _ _ _ _ Hwp) in Hdn. tauto.
Qed.

Lemma update_run h p e ix h1 l1 h2 l2 :
  wf h -> 0 <= ix < num_elts h -> ht h !! e = Some ix ->
  heapify_up cmp_pty_fn ix (updated h ix p) = Ok (tt, h1, l1) ->
  heapify_down cmp_pty_fn ix h1 = Ok (tt, h2, l2) ->
  heap_uint32_update cmp_pty_fn p e h = Ok (tt, h2, l1 ++ l2).
Proof.
  intros Hwf Hix Hht Hup Hdn. destruct (wf_alloc h ix Hwf Hix) as [Ha _].
  unfold heap_uint32_update.
  change (l1 ++ l2) with ([] ++ l1 ++ l2).
  eapply bind_run; [unfold ht_div_uint32_search, gets; reflexivity|].
  rewrite Hht.
  change (l1 ++ l2) with ([] ++ l1 ++ l2).
  eapply bind_run.
  { unfold store_pty. rewrite slot_sel by lia. reflexivity. }
  eapply bind_run; [exact Hup|exact Hdn].
Qed.

Lemma wp_update h p e :
  wf h -> heap_le h -> index_sound h ->
  wp (ht h !! e = None) (heap_uint32_update cmp_pty_fn p e)
     (fun _ h' _ =>
        exists ix, ht h !! e = Some ix /\ 0 <= ix < num_elts h /\
                   swaps (updated h ix p) h' /\ heap_le h') h.
Proof.
  intros Hwf Hheap Hsound. destruct (ht h !! e) as [ix|] eqn:Hht.
  - destruct (Hsound e ix Hht) as [Hix _].
    destruct (update_passes h ix p Hwf Hix Hheap)
      as (h1 & l1 & h2 & l2 & Hup & Hdn & Hsw & Hh2 & _).
    eapply wp_of_run; [eapply update_run; eauto|]. exists ix. auto.
  - unfold wp, heap_uint32_update, bind, ht_div_uint32_search, gets.
    rewrite Hht. reflexivity.
Qed.

(** ** Pop *)

Lemma wf_pop_swap h : wf h -> wf (pop_swap h).
Proof.
  intros Hwf. unfold pop_swap. destruct (0 =? num_elts h - 1); auto.
  apply wf_swapped. exact Hwf.
Qed.

Lemma num_elts_pop_swap h : num_elts (pop_swap h) = num_elts h.
Proof. unfold pop_swap. destruct (0 =? num_elts h - 1); reflexivity. Qed.

Lemma wf_pop_cut h : wf h -> 0 < num_elts h -> wf (pop_cut h).
Proof.
  intros Hwf Hpos. pose proof (wf_pop_swap h Hwf) as Hws.
  pose proof (num_elts_pop_swap h) as Hns.
  destruct Hwf as (Hn & Hs & Hm & Hlp & Hle).
  destruct Hws as (Hn' & Hs' & Hm' & Hlp' & Hle').
  unfold wf, pop_cut. hsimpl. repeat split; lia.
Qed.

Lemma sel_ptys_pop_swap h k :
  wf h -> 0 < num_elts h -> 0 <= k ->
  sel (ptys (pop_swap h)) k =
    if k =? 0 then sel (ptys h) (num_elts h - 1)
    else if k =? num_elts h - 1 then sel (ptys h) 0
    else sel (ptys h) k.
Proof.
  intros Hwf Hpos Hk. unfold pop_swap.
  destruct (Z.eqb_spec 0 (num_elts h - 1)) as [Heq|Hne].
  - rewrite <- Heq. destruct (Z.eqb_spec k 0) as [->|_]; reflexivity.
  - apply sel_ptys_swapped; auto; lia.
Qed.

Lemma sel_elts_pop_swap h k :
  wf h -> 0 < num_elts h -> 0 <= k ->
  sel (elts (pop_swap h)) k =
    if k =? 0 then sel (elts h) (num_elts h - 1)
    else if k =? num_elts h - 1 then sel (elts h) 0
    else sel (elts h) k.
Proof.
  intros Hwf Hpos Hk. unfold pop_swap.
  destruct (Z.eqb_spec 0 (num_elts h - 1)) as [Heq|Hne].
  - rewrite <- Heq. destruct (Z.eqb_spec k 0) as [->|_]; reflexivity.
  - apply sel_elts_swapped; auto; lia.
Qed.

Lemma down_inv_pop_cut h :
  wf h -> 0 < num_elts h -> heap_le h -> down_inv (pop_cut h) 0.
Proof.
  intros Hwf Hpos Hheap.
  assert (Hn : num_elts (pop_cut h) = num_elts h - 1) by reflexivity.
  split.
  - intros k Hk Hpk. rewrite Hn in Hk. unfold ord.
    pose proof (parent_lt k ltac:(lia)) as Hpklt.
    change (ptys (pop_cut h)) with (ptys (pop_swap h)).
    rewrite !sel_ptys_pop_swap by (auto; lia).
    destruct (Z.eqb_spec k 0); [lia|].
    destruct (Z.eqb_spec k (num_elts h - 1)); [lia|].
    destruct (Z.eqb_spec (parent k) 0); [lia|].
    destruct (Z.eqb_spec (parent k) (num_elts h - 1)); [lia|].
    apply Hheap. lia.
  - intros Hpos0. lia.
Qed.

Lemma holds_pty_pop_cut h p :
  wf h -> 0 < num_elts h -> holds_pty (pop_cut h) p -> holds_pty h p.
Proof.
  intros Hwf Hpos (k & Hk & Hp).
  change (num_elts (pop_cut h)) with (num_elts h - 1) in Hk.
  change (ptys (pop_cut h)) with (ptys (pop_swap h)) in Hp.
  rewrite sel_ptys_pop_swap in Hp by (auto; lia).
  destruct (Z.eqb_spec k 0); [exists (num_elts h - 1); split; [lia|auto]|].
  destruct (Z.eqb_spec k (num_elts h - 1)); [lia|].
  exists k. split; [lia|auto].
Qed.

Lemma pop_empty_run h pb eb :
  num_elts h = 0 ->
  heap_uint32_pop cmp_pty_fn pb eb h = Ok ((pb, eb), h, []).
Proof.
  intros Hz. unfold heap_uint32_pop, bind, gets. rewrite Hz. reflexivity.
Qed.

Lemma wp_pop h pb eb :
  wf h -> heap_le h -> 0 < num_elts h ->
  wp False (heap_uint32_pop cmp_pty_fn pb eb)
     (fun out h' _ =>
        out = (sel (ptys h) 0, sel (elts h) 0) /\
        swaps (pop_cut h) h' /\ heap_le h') h.
Proof.
  intros Hwf Hheap Hpos. pose proof (wf_num_elts h Hwf) as Hn.
  destruct (wf_alloc h 0 Hwf ltac:(lia)) as [Hap Hae].
  unfold heap_uint32_pop. wp_step. wp_step.
  destruct (Z.eqb_spec (num_elts h) 0) as [?|_]; [lia|].
  wp_step. apply wp_load_elt; [lia|].
  wp_step. apply wp_load_pty; [lia|].
  wp_step. wp_step. wp_step.
  rewrite (u32_small (num_elts h - 1)) by lia.
  assert (Hswap : forall (Q : unit -> heap_uint32_t -> list event -> Prop),
            (forall l, Q tt (pop_swap h) l) ->
            wp False (swap 0 (num_elts h - 1)) Q h).
  { intros Q HQ. unfold pop_swap in HQ.
    destruct (Z.eqb_spec 0 (num_elts h - 1)) as [Heq|Hne].
    - rewrite <- Heq. eapply wp_of_run; [apply swap_same|]. apply HQ.
    - apply wp_swap; [auto|lia|lia|auto|]. apply HQ. }
  apply Hswap. intros lswap.
  wp_step. wp_step. wp_step. wp_step. wp_step. wp_step. hsimpl.
  rewrite num_elts_pop_swap.
  rewrite (u32_small (num_elts h - 1)) by lia.
  fold (pop_cut h).
  pose proof (wf_pop_cut h Hwf Hpos) as Hwfc.
  wp_step.
  destruct (Z.ltb_spec 0 (num_elts h - 1)) as [Hmore|Hlast].
  - eapply wp_mono.
    { apply heapify_down_heap; auto.
      - change (num_elts (pop_cut h)) with (num_elts h - 1). lia.
      - apply down_inv_pop_cut; auto. }
    cbv beta. intros _ h' _ [Hsw Hh']. wp_step. auto.
  - wp_step. wp_step. split; [reflexivity|]. split; [apply swaps_refl|].
    intros k Hk. change (num_elts (pop_cut h)) with (num_elts h - 1) in Hk.
    lia.
Qed.

(** ** The side index across the operations *)

Lemma index_sound_pushed h p e :
  wf h -> ~ at_capacity h -> room h ->
  index_sound h -> index_sound (pushed h p e).
Proof.
  intros Hwf Hcap Hroom Hs e' i Hlk. pose proof (wf_num_elts h Hwf) as Hn.
  change (num_elts (pushed h p e)) with (num_elts h + 1).
  rewrite ht_pushed in Hlk by auto.
  destruct (decide (e = e')) as [<-|Hne].
  - rewrite lookup_insert_eq in Hlk. inversion Hlk; subst i.
    split; [lia|]. rewrite sel_elts_pushed by (auto; lia).
    rewrite Z.eqb_refl. reflexivity.
  - rewrite lookup_insert_ne in Hlk by auto.
    destruct (Hs e' i Hlk) as [Hi He]. split; [lia|].
    rewrite sel_elts_pushed by (auto; lia).
    destruct (Z.eqb_spec i (num_elts h)); [lia|exact He].
Qed.

Lemma index_complete_pushed h p e :
  wf h -> ~ at_capacity h -> room h -> ht h !! e = None ->
  index_complete h -> index_complete (pushed h p e).
Proof.
  intros Hwf Hcap Hroom Hfresh Hc k Hk.
  change (num_elts (pushed h p e)) with (num_elts h + 1) in Hk.
  rewrite ht_pushed by auto. rewrite sel_elts_pushed by (auto; lia).
  destruct (Z.eqb_spec k (num_elts h)) as [->|Hne].
  - apply lookup_insert_eq.
  - pose proof (Hc k ltac:(lia)) as Hlk.
    rewrite lookup_insert_ne; [exact Hlk|]. intros Heq. congruence.
Qed.

Lemma index_sound_updated h ix p : index_sound h -> index_sound (updated h ix p).
Proof. intros Hs. exact Hs. Qed.

Lemma index_complete_updated h ix p :
  index_complete h -> index_complete (updated h ix p).
Proof. intros Hc. exact Hc. Qed.

Lemma sel_elts_pop_swap_last h :
  wf h -> 0 < num_elts h ->
  sel (elts (pop_swap h)) (num_elts h - 1) = sel (elts h) 0.
Proof.
  intros Hwf Hpos. rewrite sel_elts_pop_swap by (auto; lia).
  destruct (Z.eqb_spec (num_elts h - 1) 0) as [->|_]; [reflexivity|].
  rewrite Z.eqb_refl. reflexivity.
Qed.

Lemma index_sound_pop_swap h :
  wf h -> 0 < num_elts h -> index_sound h -> index_sound (pop_swap h).
Proof.
  intros Hwf Hpos Hs. unfold pop_swap.
  destruct (Z.eqb_spec 0 (num_elts h - 1)); auto.
  apply index_sound_swapped; auto; lia.
Qed.

Lemma index_complete_pop_swap h :
  wf h -> 0 < num_elts h -> index_complete h -> index_complete (pop_swap h).
Proof.
  intros Hwf Hpos Hs. unfold pop_swap.
  destruct (Z.eqb_spec 0 (num_elts h - 1)); auto.
  apply index_complete_swapped; auto; lia.
Qed.

Lemma index_sound_pop_cut h :
  wf h -> 0 < num_elts h -> index_sound h -> index_sound (pop_cut h).
Proof.
  intros Hwf Hpos Hs e i Hlk.
  pose proof (index_sound_pop_swap h Hwf Hpos Hs) as Hss.
  change (num_elts (pop_cut h)) with (num_elts h - 1).
  change (elts (pop_cut h)) with (elts (pop_swap h)).
  change (ht (pop_cut h)) with (delete (sel (elts h) 0) (ht (pop_swap h))) in Hlk.
  destruct (decide (sel (elts h) 0 = e)) as [Heq|Hne].
  - subst e. rewrite lookup_delete_eq in Hlk. discriminate.
  - rewrite lookup_delete_ne in Hlk by auto.
    destruct (Hss e i Hlk) as [Hi He]. rewrite num_elts_pop_swap in Hi.
    split; [|exact He].
    destruct (Z.eq_dec i (num_elts h - 1)) as [->|]; [|lia].
    rewrite sel_elts_pop_swap_last in He by auto. contradiction.
Qed.

Lemma index_complete_pop_cut h :
  wf h -> 0 < num_elts h -> index_complete h -> index_complete (pop_cut h).
Proof.
  intros Hwf Hpos Hc k Hk.
  pose proof (index_complete_pop_swap h Hwf Hpos Hc) as Hcs.
  change (num_elts (pop_cut h)) with (num_elts h - 1) in Hk.
  change (elts (pop_cut h)) with (elts (pop_swap h)).
  change (ht (pop_cut h)) with (delete (sel (elts h) 0) (ht (pop_swap h))).
  rewrite lookup_delete_ne.
  - apply Hcs. rewrite num_elts_pop_swap. lia.
  - rewrite <- (sel_elts_pop_swap_last h) by auto. intros Heq.
    apply (index_complete_inj (pop_swap h)) in Heq;
      rewrite ?num_elts_pop_swap; auto; lia.
Qed.

(** ** Reachable heaps *)

Lemma built_reachable h : built h -> reachable h.
Proof.
  induction 1; [eapply reach_init|eapply reach_push|eapply reach_update];
    eauto.
Qed.

Lemma reachable_distinct_reachable h : reachable_distinct h -> reachable h.
Proof.
  induction 1;
    [eapply reach_init|eapply reach_push|eapply reach_update|eapply reach_pop];
    eauto.
Qed.

(** [heap_uint32_init] returns exactly when the size passes the
    assertion and the three requests are granted. *)
Lemma init_run mem n ps es :
  heap_uint32_init mem n ps es =
    if n <=? 4294967294
    then match mem with
         | true :: true :: true :: mem' =>
             Ok (mk_heap n 4294967294 0 ps es (realloc ps n [])
                   (realloc es n []) ∅ mem')
         | _ => Fatal
         end
    else Fatal.
Proof.
  unfold heap_uint32_init. rewrite pow_two_uint64_32.
  rewrite (u32_small (4294967296 - 2)) by lia.
  change (4294967296 - 2) with 4294967294.
  destruct (n <=? 4294967294); [|reflexivity].
  destruct mem as [|[] [|[] [|[] mem']]]; reflexivity.
Qed.

Lemma init_spec mem n ps es h :
  0 < n -> heap_uint32_init mem n ps es = Ok h ->
  wf h /\ num_elts h = 0 /\ ht h = ∅ /\ heap_size h = n /\ sized h.
Proof.
  intros Hpos. rewrite init_run.
  destruct (Z.leb_spec n 4294967294) as [Hle|]; [|discriminate].
  destruct mem as [|[] [|[] [|[] mem']]]; try discriminate.
  intros Heq. inversion Heq; subst h; clear Heq.
  unfold wf, sized. hsimpl. rewrite !length_realloc. repeat split; lia.
Qed.

Lemma init_invariant mem n ps es h :
  0 < n -> heap_uint32_init mem n ps es = Ok h ->
  invariant h /\ index_complete h.
Proof.
  intros Hpos Hinit.
  destruct (init_spec mem n ps es h Hpos Hinit) as (Hwf & Hn & Hht & _).
  split; [split; [exact Hwf|split]|].
  - intros k Hk. lia.
  - intros e i Hlk. rewrite Hht, lookup_empty in Hlk. discriminate.
  - intros k Hk. lia.
Qed.

Lemma push_invariant h p e h' l :
  invariant h -> heap_uint32_push cmp_pty_fn p e h = Ok (tt, h', l) ->
  invariant h' /\ ~ at_capacity h /\ swaps (pushed h p e) h'.
Proof.
  intros (Hwf & Hheap & Hsound) Hrun.
  pose proof (push_run_room h p e h' l Hwf Hrun) as Hroom.
  destruct (wp_run _ _ _ _ _ _ _ (wp_push h p e Hwf Hheap Hroom) Hrun)
    as (Hcap & Hsw & Hh').
  pose proof (wf_pushed h p e Hwf Hcap Hroom) as Hwfp.
  split; [|auto]. split; [eapply swaps_wf; eauto|]. split; [exact Hh'|].
  eapply swaps_index_sound; eauto. apply index_sound_pushed; auto.
Qed.

Lemma update_invariant h p e h' l :
  invariant h -> heap_uint32_update cmp_pty_fn p e h = Ok (tt, h', l) ->
  invariant h' /\
  exists ix, ht h !! e = Some ix /\ 0 <= ix < num_elts h /\
             swaps (updated h ix p) h'.
Proof.
  intros (Hwf & Hheap & Hsound) Hrun.
  destruct (wp_run _ _ _ _ _ _ _ (wp_update h p e Hwf Hheap Hsound) Hrun)
    as (ix & Hht & Hix & Hsw & Hh').
  pose proof (wf_updated h ix p Hwf) as Hwfu.
  split; [|eauto]. split; [eapply swaps_wf; eauto|]. split; [exact Hh'|].
  eapply swaps_index_sound; eauto.
Qed.

Lemma pop_invariant h pb eb out h' l :
  invariant h -> heap_uint32_pop cmp_pty_fn pb eb h = Ok (out, h', l) ->
  invariant h' /\
  ((num_elts h = 0 /\ h' = h /\ out = (pb, eb)) \/
   (0 < num_elts h /\ out = (sel (ptys h) 0, sel (elts h) 0) /\
    swaps (pop_cut h) h')).
Proof.
  intros (Hwf & Hheap & Hsound) Hrun. pose proof (wf_num_elts h Hwf) as Hn.
  destruct (Z.eq_dec (num_elts h) 0) as [Hz|Hnz].
  - rewrite pop_empty_run in Hrun by exact Hz. inversion Hrun; subst.
    split; [split; auto|]. left. auto.
  - assert (Hpos : 0 < num_elts h) by lia.
    destruct (wp_run _ _ _ _ _ _ _ (wp_pop h pb eb Hwf Hheap Hpos) Hrun)
      as (Hout & Hsw & Hh').
    pose proof (wf_pop_cut h Hwf Hpos) as Hwfc.
    split; [|right; auto]. split; [eapply swaps_wf; eauto|].
    split; [exact Hh'|].
    eapply swaps_index_sound; eauto. apply index_sound_pop_cut; auto.
Qed.

Lemma reachable_invariant h : reachable h -> invariant h.
Proof.
  induction 1 as [mem n ps es h Hpos Hinit|h p e h' l _ IH Hrun
                 |h p e h' l _ IH Hrun|h pb eb out h' l _ IH Hrun].
  - apply (init_invariant mem n ps es h Hpos Hinit).
  - apply (push_invariant h p e h' l IH Hrun).
  - apply (update_invariant h p e h' l IH Hrun).
  - apply (pop_invariant h pb eb out h' l IH Hrun).
Qed.

Lemma search_none h e :
  heap_uint32_search e h = Ok (None, h, []) -> ht h !! e = None.
Proof.
  unfold heap_uint32_search, bind, ht_div_uint32_search, gets.
  destruct (ht h !! e); [discriminate|reflexivity].
Qed.

Lemma reachable_distinct_complete h :
  reachable_distinct h -> index_complete h.
Proof.
  induction 1 as [mem n ps es h Hpos Hinit|h p e h' l Hr IH Hfresh Hrun
                 |h p e h' l Hr IH Hrun|h pb eb out h' l Hr IH Hrun];
    try pose proof (reachable_invariant h
                      (reachable_distinct_reachable h Hr)) as Hinv.
  - apply (init_invariant mem n ps es h Hpos Hinit).
  - destruct (push_invariant h p e h' l Hinv Hrun) as (_ & Hcap & Hsw).
    destruct Hinv as (Hwf & _).
    pose proof (push_run_room h p e h' l Hwf Hrun) as Hroom.
    eapply swaps_index_complete; [exact Hsw|apply wf_pushed; auto|].
    apply index_complete_pushed; auto. apply search_none. exact Hfresh.
  - destruct (update_invariant h p e h' l Hinv Hrun)
      as (_ & ix & _ & _ & Hsw).
    destruct Hinv as (Hwf & _).
    eapply swaps_index_complete; [exact Hsw|apply wf_updated; auto|].
    apply index_complete_updated. exact IH.
  - destruct (pop_invariant h pb eb out h' l Hinv Hrun)
      as (_ & [(_ & -> & _)|(Hpos & _ & Hsw)]); [exact IH|].
    destruct Hinv as (Hwf & _).
    eapply swaps_index_complete; [exact Hsw|apply wf_pop_cut; auto|].
    apply index_complete_pop_cut; auto.
Qed.

(** ** The size of the arrays *)

Lemma swaps_lengths h h' :
  swaps h h' ->
  length (ptys h') = length (ptys h) /\ length (elts h') = length (elts h).
Proof.
  induction 1 as [|h' i j _ IH _ _ _]; [tauto|].
  unfold swapped. hsimpl. rewrite !length_exch. exact IH.
Qed.

Lemma swaps_sized h h' : swaps h h' -> sized h -> sized h'.
Proof.
  intros Hsw [Hp He]. destruct (swaps_lengths _ _ Hsw) as [Hlp Hle].
  destruct (swaps_counts _ _ Hsw) as (_ & Hs & _ & Hps & Hes).
  unfold sized. rewrite Hlp, Hle, Hs, Hps, Hes. auto.
Qed.

Lemma sized_pushed h p e : sized h -> sized (pushed h p e).
Proof.
  intros [Hp He]. unfold sized, pushed, push_room.
  destruct (heap_size h =? num_elts h); unfold grown; hsimpl;
    rewrite !length_upd, ?length_realloc; auto.
Qed.

Lemma sized_updated h ix p : sized h -> sized (updated h ix p).
Proof.
  intros [Hp He]. unfold sized, updated. hsimpl. rewrite length_upd. auto.
Qed.

Lemma sized_pop_cut h : sized h -> sized (pop_cut h).
Proof.
  intros [Hp He]. unfold sized, pop_cut, pop_swap.
  destruct (0 =? num_elts h - 1); unfold swapped; hsimpl;
    rewrite ?length_exch; auto.
Qed.

(** The arrays of a reachable heap hold the slots of their last
    allocation: [heap_size] slots when the byte counts did not wrap. *)
Lemma reachable_sized h : reachable h -> sized h.
Proof.
  induction 1 as [mem n ps es h Hpos Hinit|h p e h' l Hr IH Hrun
                 |h p e h' l Hr IH Hrun|h pb eb out h' l Hr IH Hrun];
    try pose proof (reachable_invariant h Hr) as Hinv.
  - apply (init_spec mem n ps es h Hpos Hinit).
  - destruct (push_invariant h p e h' l Hinv Hrun) as (_ & _ & Hsw).
    eapply swaps_sized; [exact Hsw|]. apply sized_pushed. exact IH.
  - destruct (update_invariant h p e h' l Hinv Hrun)
      as (_ & ix & _ & _ & Hsw).
    eapply swaps_sized; [exact Hsw|]. apply sized_updated. exact IH.
  - destruct (pop_invariant h pb eb out h' l Hinv Hrun)
      as (_ & [(_ & -> & _)|(_ & _ & Hsw)]); [exact IH|].
    eapply swaps_sized; [exact Hsw|]. apply sized_pop_cut. exact IH.
Qed.

(** What a push needs to return from a reachable heap. *)
Lemma reachable_room h :
  reachable h -> ~ at_capacity h -> fits h (push_size h) -> room h.
Proof.
  intros Hr Hcap Hfits. destruct (reachable_invariant h Hr) as (Hwf & _).
  apply room_fits; auto. apply reachable_sized. exact Hr.
Qed.

(** ** The root is a minimum *)

Lemma root_min_aux h (m : nat) : forall k,
  heap_le h -> 0 <= k < num_elts h -> (Z.to_nat k <= m)%nat ->
  le_pty (sel (ptys h) 0) (sel (ptys h) k).
Proof.
  induction m as [|m IH]; intros k Hheap Hk Hm.
  - assert (k = 0) by lia. subst k. apply le_pty_refl.
  - destruct (Z.eq_dec k 0) as [->|Hnz]; [apply le_pty_refl|].
    pose proof (parent_lt k ltac:(lia)) as Hpk.
    eapply le_pty_trans; [apply (IH (parent k)); auto; lia|].
    apply Hheap. lia.
Qed.

Lemma root_min h k :
  heap_le h -> 0 <= k < num_elts h -> le_pty (sel (ptys h) 0) (sel (ptys h) k).
Proof. intros Hheap Hk. apply (root_min_aux h (Z.to_nat k)); auto. Qed.

Lemma holds_swapped h i j p e :
  wf h -> 0 <= i < num_elts h -> 0 <= j < num_elts h ->
  holds (swapped h i j) p e <-> holds h p e.
Proof.
  intros Hwf Hi Hj.
  assert (Hn : num_elts (swapped h i j) = num_elts h) by reflexivity.
  split; intros (k & Hk & Hp & He).
  - rewrite Hn in Hk. rewrite sel_ptys_swapped in Hp by (auto; lia).
    rewrite sel_elts_swapped in He by (auto; lia).
    destruct (Z.eqb_spec k i); [exists j; auto|].
    destruct (Z.eqb_spec k j); [exists i; auto|]. exists k; auto.
  - assert (Hex : forall k', 0 <= k' < num_elts h ->
              sel (ptys (swapped h i j)) k' = p ->
              sel (elts (swapped h i j)) k' = e -> holds (swapped h i j) p e).
    { intros k' Hk' Hp' He'. exists k'. rewrite Hn. auto. }
    destruct (Z.eq_dec k i) as [->|Hki].
    + apply (Hex j Hj);
        [rewrite sel_ptys_swapped by (auto; lia)
        |rewrite sel_elts_swapped by (auto; lia)];
        rewrite Z.eqb_refl; destruct (Z.eqb_spec j i); congruence.
    + destruct (Z.eq_dec k j) as [->|Hkj].
      * apply (Hex i Hi);
          [rewrite sel_ptys_swapped by (auto; lia)
          |rewrite sel_elts_swapped by (auto; lia)];
          rewrite Z.eqb_refl; congruence.
      * apply (Hex k Hk);
          [rewrite sel_ptys_swapped by (auto; lia)
          |rewrite sel_elts_swapped by (auto; lia)];
          destruct (Z.eqb_spec k i); try contradiction;
          destruct (Z.eqb_spec k j); try contradiction; assumption.
Qed.

Lemma swaps_holds h h' p e :
  swaps h h' -> wf h -> holds h' p e <-> holds h p e.
Proof.
  induction 1 as [|h' i j Hsw IH Hi Hj Hne]; [tauto|]. intros Hwf.
  rewrite holds_swapped; auto. eapply swaps_wf; eauto.
Qed.

(** ** The pairs of the heap *)

Lemma lookup_contents h k :
  wf h -> 0 <= k < num_elts h ->
  contents h !! Z.to_nat k = Some (sel (ptys h) k, sel (elts h) k).
Proof.
  intros Hwf Hk. destruct (wf_alloc h k Hwf Hk) as [Hp He].
  unfold contents. rewrite lookup_take_lt by lia.
  rewrite lookup_zip_with.
  change (ptys h !! Z.to_nat k) with (slot (ptys h) k).
  change (elts h !! Z.to_nat k) with (slot (elts h) k).
  rewrite !slot_sel by lia. reflexivity.
Qed.

Lemma contents_swapped h i j :
  wf h -> 0 <= i < num_elts h -> 0 <= j < num_elts h ->
  contents (swapped h i j) ≡ₚ contents h.
Proof.
  intros Hwf Hi Hj. unfold contents at 1. unfold swapped. hsimpl.
  unfold exch, upd. rewrite <- !insert_zip_with.
  rewrite !take_insert_lt by lia.
  fold (contents h).
  apply Permutation_insert_swap; apply lookup_contents; auto.
Qed.

Lemma swaps_contents h h' : swaps h h' -> wf h -> contents h' ≡ₚ contents h.
Proof.
  induction 1 as [|h' i j Hsw IH Hi Hj Hne]; [reflexivity|]. intros Hwf.
  rewrite contents_swapped; auto. eapply swaps_wf; eauto.
Qed.

Lemma contents_pop_swap h :
  wf h -> 0 < num_elts h -> contents (pop_swap h) ≡ₚ contents h.
Proof.
  intros Hwf Hpos. unfold pop_swap.
  destruct (0 =? num_elts h - 1); [reflexivity|].
  apply contents_swapped; auto; lia.
Qed.

Lemma contents_pop_cut h :
  wf h -> 0 < num_elts h ->
  (sel (ptys h) 0, sel (elts h) 0) :: contents (pop_cut h) ≡ₚ contents h.
Proof.
  intros Hwf Hpos. pose proof (wf_pop_swap h Hwf) as Hwfs.
  pose proof (num_elts_pop_swap h) as Hns.
  rewrite <- (contents_pop_swap h Hwf Hpos).
  pose proof (lookup_contents (pop_swap h) (num_elts h - 1) Hwfs
                ltac:(rewrite Hns; lia)) as Hlast.
  rewrite sel_ptys_pop_swap, sel_elts_pop_swap in Hlast by (auto; lia).
  assert (Hroot : (if num_elts h - 1 =? 0
                   then sel (ptys h) (num_elts h - 1)
                   else if num_elts h - 1 =? num_elts h - 1
                        then sel (ptys h) 0 else sel (ptys h) (num_elts h - 1),
                   if num_elts h - 1 =? 0
                   then sel (elts h) (num_elts h - 1)
                   else if num_elts h - 1 =? num_elts h - 1
                        then sel (elts h) 0 else sel (elts h) (num_elts h - 1))
                  = (sel (ptys h) 0, sel (elts h) 0)).
  { destruct (Z.eqb_spec (num_elts h - 1) 0) as [->|_]; [reflexivity|].
    rewrite Z.eqb_refl. reflexivity. }
  rewrite Hroot in Hlast. clear Hroot.
  unfold contents in Hlast |- *. rewrite Hns in Hlast |- *.
  change (num_elts (pop_cut h)) with (num_elts h - 1).
  change (ptys (pop_cut h)) with (ptys (pop_swap h)).
  change (elts (pop_cut h)) with (elts (pop_swap h)).
  apply lookup_take_Some in Hlast as [Hlast _].
  replace (Z.to_nat (num_elts h)) with (S (Z.to_nat (num_elts h - 1))) by lia.
  rewrite (take_S_r _ _ _ Hlast).
  rewrite Permutation_app_comm. reflexivity.
Qed.

(** ** Popping until empty *)

Lemma pop_all_sorted fuel : forall h pb eb,
  wf h -> heap_le h -> (Z.to_nat (num_elts h) <= fuel)%nat ->
  wp False (pop_all cmp_pty_fn fuel pb eb)
     (fun out h' _ =>
        num_elts h' = 0 /\ Z.of_nat (length out) = num_elts h /\
        Sorted le_pty (map fst out) /\
        Forall (holds_pty h) (map fst out) /\
        out ≡ₚ contents h) h.
Proof.
  induction fuel as [|fuel IH]; intros h pb eb Hwf Hheap Hfuel;
    pose proof (wf_num_elts h Hwf) as Hn;
    cbn [pop_all]; wp_step; wp_step;
    destruct (Z.eqb_spec (num_elts h) 0) as [Hz|Hnz];
    try lia;
    try (wp_step; cbn; unfold contents; rewrite ?Hz; repeat split; auto; lia).
  assert (Hpos : 0 < num_elts h) by lia.
  wp_step. eapply wp_mono; [apply wp_pop; auto|].
  cbv beta. intros out1 h1 _ (Hout & Hsw & Hh1).
  pose proof (wf_pop_cut h Hwf Hpos) as Hwfc.
  pose proof (swaps_wf _ _ Hsw Hwfc) as Hwf1.
  destruct (swaps_counts _ _ Hsw) as (Hn1 & _).
  change (num_elts (pop_cut h)) with (num_elts h - 1) in Hn1.
  wp_step. eapply wp_mono; [apply IH; auto; lia|].
  cbv beta. intros rest h2 _ (Hn2 & Hlen & Hsorted & Hall & Hperm).
  wp_step. subst out1. cbn [map fst length].
  assert (Hall' : Forall (holds_pty h) (map fst rest)).
  { eapply Forall_impl; [exact Hall|]. intros p Hp.
    apply holds_pty_pop_cut; auto. eapply swaps_holds_pty; eauto. }
  split; [exact Hn2|]. split; [lia|]. split; [|split].
  - apply Sorted_cons; [exact Hsorted|].
    destruct (map fst rest) as [|r rs]; [apply HdRel_nil|].
    apply HdRel_cons. apply Forall_cons in Hall' as [(k & Hk & <-) _].
    apply root_min; auto.
  - apply Forall_cons. split; [|exact Hall'].
    exists 0. split; [lia|reflexivity].
  - rewrite Hperm, (swaps_contents _ _ Hsw Hwfc).
    apply contents_pop_cut; auto.
Qed.

(** * The claims *)

(** C1.  For every heap built from an empty heap by any sequence of
    pushes and updates, popping until the heap is empty returns, the
    popped pairs are the pairs the heap held (up to order), and the
    priorities come out in non-decreasing order: any two consecutively
    popped priorities [p], [q] satisfy [cmp_pty_fn p q <= 0]. *)
Theorem pop_sequence_nondecreasing h pb eb :
  built h ->
  exists out h' l,
    pop_all cmp_pty_fn (Z.to_nat (num_elts h)) pb eb h = Ok (out, h', l) /\
    num_elts h' = 0 /\
    Z.of_nat (length out) = num_elts h /\
    out ≡ₚ contents h /\
    Sorted (fun p q => cmp_pty_fn p q <= 0) (map fst out).
Proof.
  intros Hb.
  destruct (reachable_invariant h (built_reachable h Hb)) as (Hwf & Hheap & _).
  destruct (wp_ok _ _ _
              (pop_all_sorted (Z.to_nat (num_elts h)) h pb eb Hwf Hheap
                 (Nat.le_refl _)))
    as (out & h' & l & Hrun & Hz & Hlen & Hsorted & _ & Hperm).
  exists out, h', l. auto.
Qed.

(** C2.  Heap order: in every heap reachable from an empty heap by
    pushes, updates and pops, every non-root slot [i] with
    [0 < i < num_elts] holds a priority that compares [>= 0] with the
    priority of slot [(i - 1) / 2]. *)
Theorem heap_order_reachable h :
  reachable h ->
  forall i, 0 < i < num_elts h ->
    cmp_pty_fn (sel (ptys h) i) (sel (ptys h) ((i - 1) / 2)) >= 0.
Proof.
  intros Hr. destruct (reachable_invariant h Hr) as (_ & Hheap & _).
  apply heap_le_order in Hheap. exact Hheap.
Qed.

(** C3.  A swap of two distinct slots [i], [j] of the heap exchanges the
    priorities and the elements of the two slots, leaves the other slots
    alone, and upserts the element now at [i] with [i] and the element
    now at [j] with [j].  Consequently, in every heap reachable by
    operations that push only absent elements, the hash table maps each
    element of the heap to the slot that holds it, every entry of the
    table points to the slot holding its key, and no element occupies two
    slots. *)
Theorem side_index_consistent :
  (forall h i j,
      wf h -> 0 <= i < num_elts h -> 0 <= j < num_elts h -> i <> j ->
      exists h',
        swap i j h =
          Ok (tt, h', [EvSwap i j; EvUpsert (sel (elts h') i) i;
                       EvUpsert (sel (elts h') j) j]) /\
        sel (ptys h') i = sel (ptys h) j /\ sel (ptys h') j = sel (ptys h) i /\
        sel (elts h') i = sel (elts h) j /\ sel (elts h') j = sel (elts h) i /\
        (forall k, 0 <= k -> k <> i -> k <> j ->
           sel (ptys h') k = sel (ptys h) k /\
           sel (elts h') k = sel (elts h) k) /\
        ht h' = <[sel (elts h') j := j]> (<[sel (elts h') i := i]> (ht h))) /\
  (forall h,
      reachable_distinct h ->
      (forall i, 0 <= i < num_elts h -> ht h !! sel (elts h) i = Some i) /\
      (forall e i, ht h !! e = Some i ->
         0 <= i < num_elts h /\ sel (elts h) i = e) /\
      (forall i j, 0 <= i < num_elts h -> 0 <= j < num_elts h ->
         sel (elts h) i = sel (elts h) j -> i = j)).
Proof.
  split.
  - intros h i j Hwf Hi Hj Hne. exists (swapped h i j).
    assert (Hpi : sel (ptys (swapped h i j)) i = sel (ptys h) j).
    { rewrite sel_ptys_swapped by (auto; lia). rewrite Z.eqb_refl. reflexivity. }
    assert (Hpj : sel (ptys (swapped h i j)) j = sel (ptys h) i).
    { rewrite sel_ptys_swapped by (auto; lia).
      destruct (Z.eqb_spec j i); [lia|]. rewrite Z.eqb_refl. reflexivity. }
    assert (Hei : sel (elts (swapped h i j)) i = sel (elts h) j).
    { rewrite sel_elts_swapped by (auto; lia). rewrite Z.eqb_refl. reflexivity. }
    assert (Hej : sel (elts (swapped h i j)) j = sel (elts h) i).
    { rewrite sel_elts_swapped by (auto; lia).
      destruct (Z.eqb_spec j i); [lia|]. rewrite Z.eqb_refl. reflexivity. }
    split; [rewrite Hei, Hej; apply swap_run_wf; auto|].
    split; [exact Hpi|]. split; [exact Hpj|].
    split; [exact Hei|]. split; [exact Hej|].
    split; [|rewrite Hei, Hej; reflexivity].
    intros k Hk Hki Hkj.
    rewrite sel_ptys_swapped, sel_elts_swapped by (auto; lia).
    destruct (Z.eqb_spec k i); [contradiction|].
    destruct (Z.eqb_spec k j); [contradiction|]. auto.
  - intros h Hr.
    pose proof (reachable_distinct_complete h Hr) as Hc.
    destruct (reachable_invariant h (reachable_distinct_reachable h Hr))
      as (_ & _ & Hs).
    split; [exact Hc|]. split; [exact Hs|].
    intros i j Hi Hj Heq. eapply index_complete_inj; eauto.
Qed.


Lemma push_fatal h p e :
  num_elts h = heap_size h -> heap_max_size h <= heap_size h ->
  heap_uint32_push cmp_pty_fn p e h = Fatal.
Proof.
  intros Hfull Hmax.
  unfold heap_uint32_push, bind, gets, heap_grow, bind, gets, assert.
  rewrite Hfull, Z.eqb_refl.
  destruct (Z.ltb_spec (heap_size h) (heap_max_size h)); [lia|reflexivity].
Qed.


Lemma heap_size_pushed h p e :
  heap_size (pushed h p e) =
    if heap_size h =? num_elts h then grown_size h else heap_size h.
Proof.
  unfold pushed, push_room. hsimpl.
  destruct (heap_size h =? num_elts h); reflexivity.
Qed.

Lemma heap_size_pop_cut h : heap_size (pop_cut h) = heap_size h.
Proof.
  unfold pop_cut, pop_swap. hsimpl.
  destruct (0 =? num_elts h - 1); reflexivity.
Qed.

Lemma heap_max_size_pop_cut h : heap_max_size (pop_cut h) = heap_max_size h.
Proof.
  unfold pop_cut, pop_swap. hsimpl.
  destruct (0 =? num_elts h - 1); reflexivity.
Qed.

Lemma heap_max_size_pushed h p e :
  heap_max_size (pushed h p e) = heap_max_size h.
Proof.
  unfold pushed, push_room. hsimpl.
  destruct (heap_size h =? num_elts h); reflexivity.
Qed.

Lemma op_step_sizes h h' :
  invariant h -> op_step h h' ->
  heap_max_size h' = heap_max_size h /\
  (heap_size h' = heap_size h \/
   (num_elts h = heap_size h /\ heap_size h < heap_max_size h /\
    heap_size h' = grown_size h)).
Proof.
  intros Hinv [(p & e & l & Hrun)|[(p & e & l & Hrun)|(pb & eb & out & l & Hrun)]].
  - destruct (push_invariant h p e h' l Hinv Hrun) as (_ & Hcap & Hsw).
    destruct (swaps_counts _ _ Hsw) as (_ & Hs & Hm & _).
    rewrite Hs, Hm, heap_size_pushed, heap_max_size_pushed.
    split; [reflexivity|]. destruct Hinv as (Hwf & _).
    destruct Hwf as (Hn & Hhs & _). unfold at_capacity in Hcap.
    destruct (Z.eqb_spec (heap_size h) (num_elts h)); [right; lia|left; auto].
  - destruct (update_invariant h p e h' l Hinv Hrun)
      as (_ & ix & _ & _ & Hsw).
    destruct (swaps_counts _ _ Hsw) as (_ & Hs & Hm & _).
    rewrite Hs, Hm. split; [reflexivity|left; reflexivity].
  - destruct (pop_invariant h pb eb out h' l Hinv Hrun)
      as (_ & [(_ & -> & _)|(_ & _ & Hsw)]); [auto|].
    destruct (swaps_counts _ _ Hsw) as (_ & Hs & Hm & _).
    rewrite Hs, Hm, heap_size_pop_cut, heap_max_size_pop_cut.
    split; [reflexivity|left; reflexivity].
Qed.


(** C7.  On an empty heap [heap_uint32_pop] returns normally, the two
    out blocks keep their contents, and nothing of the heap changes: the
    counters, the two arrays and the hash table are those of the heap
    before the call, and no slot is touched. *)
Theorem pop_empty_noop h pb eb :
  num_elts h = 0 ->
  heap_uint32_pop cmp_pty_fn pb eb h = Ok ((pb, eb), h, []).
Proof. apply pop_empty_run. Qed.

(** C9.  [heap_uint32_search] returns, found or not, with the heap it was
    given: counters, arrays and hash table are unchanged and no event is
    performed.  The result is the slot recorded for the element, if
    any. *)
Theorem heap_search_frame (h : heap_uint32_t) (e : block) :
  heap_uint32_search e h = Ok (ht h !! e, h, []).
Proof.
  unfold heap_uint32_search, bind, ht_div_uint32_search, gets.
  destruct (ht h !! e); reflexivity.
Qed.

(** C10.  On a well-formed heap (as every reachable heap is, so that
    [0 < num_elts <= 2^32 - 2]) and for [i < num_elts], [heapify_down]
    returns, every slot it compares or exchanges has an index below
    [num_elts], and at every evaluation of the loop test the operands
    [i + 2] and [num_elts - 1 - i] are computed without wrap-around in
    unsigned 32-bit arithmetic. *)
Theorem heapify_down_in_bounds h i :
  wf h -> 0 <= i < num_elts h ->
  0 < num_elts h <= 4294967294 /\
  exists h' l,
    heapify_down cmp_pty_fn i h = Ok (tt, h', l) /\
    Forall (event_in_bounds (num_elts h)) l /\
    Forall (fun ev => Forall (fun s => 0 <= s < num_elts h) (event_slots ev)) l.
Proof.
  intros Hwf Hi. pose proof (wf_num_elts h Hwf) as Hn. split; [lia|].
  destruct (wp_ok _ _ _ (heapify_down_bounds i h Hwf Hi))
    as ([] & h' & l & Hrun & _ & Hl).
  exists h', l. split; [exact Hrun|]. split; [exact Hl|].
  eapply Forall_impl; [exact Hl|]. intros ev. apply event_in_bounds_slots.
Qed.


(** * Further properties of the heap *)

(** ** The pairs of the heap, continued *)

Lemma length_contents h : wf h -> length (contents h) = Z.to_nat (num_elts h).
Proof.
  intros (Hn & _ & _ & Hp & He). unfold contents.
  rewrite length_take, length_zip_with. lia.
Qed.

Lemma contents_pushed h p e :
  wf h -> ~ at_capacity h -> room h ->
  contents (pushed h p e) = contents h ++ [(p, e)].
Proof.
  intros Hwf Hcap Hroom. pose proof (wf_pushed h p e Hwf Hcap Hroom) as Hwfp.
  pose proof (wf_num_elts h Hwf) as Hn.
  assert (Hnp : num_elts (pushed h p e) = num_elts h + 1) by reflexivity.
  apply list_eq. intros i.
  destruct (Nat.lt_total i (Z.to_nat (num_elts h))) as [Hlt|[Heq|Hgt]].
  - rewrite lookup_app_l by (rewrite length_contents by assumption; lia).
    replace i with (Z.to_nat (Z.of_nat i)) by lia.
    rewrite !lookup_contents by (auto; lia).
    rewrite sel_ptys_pushed, sel_elts_pushed by (auto; lia).
    destruct (Z.eqb_spec (Z.of_nat i) (num_elts h)); [lia|reflexivity].
  - rewrite lookup_app_r by (rewrite length_contents by assumption; lia).
    rewrite length_contents by assumption. subst i. rewrite Nat.sub_diag.
    rewrite lookup_contents by (auto; lia).
    rewrite sel_ptys_pushed, sel_elts_pushed by (auto; lia).
    rewrite Z.eqb_refl. reflexivity.
  - rewrite !(proj2 (lookup_ge_None _ _)); [reflexivity| |].
    + rewrite length_app, length_contents by assumption. cbn. lia.
    + rewrite length_contents by assumption. lia.
Qed.

Lemma contents_updated h ix p :
  wf h -> 0 <= ix < num_elts h ->
  contents (updated h ix p) =
    <[Z.to_nat ix := (p, sel (elts h) ix)]> (contents h).
Proof.
  intros Hwf Hix. pose proof (wf_updated h ix p Hwf) as Hwfu.
  assert (Hnu : num_elts (updated h ix p) = num_elts h) by reflexivity.
  apply list_eq. intros i.
  destruct (Nat.lt_ge_cases i (Z.to_nat (num_elts h))) as [Hlt|Hge].
  - replace i with (Z.to_nat (Z.of_nat i)) by lia.
    rewrite lookup_contents by (auto; lia).
    rewrite sel_ptys_updated by (auto; lia).
    change (elts (updated h ix p)) with (elts h).
    destruct (Z.eqb_spec (Z.of_nat i) ix) as [Heq|Hne].
    + subst ix. rewrite list_lookup_insert_eq
        by (rewrite length_contents by assumption; lia). reflexivity.
    + rewrite list_lookup_insert_ne by lia.
      rewrite lookup_contents by (auto; lia). reflexivity.
  - rewrite !(proj2 (lookup_ge_None _ _)); [reflexivity| |].
    + rewrite length_insert, length_contents by assumption. lia.
    + rewrite length_contents by assumption. lia.
Qed.

Lemma elem_of_contents h p e :
  wf h -> (p, e) ∈ contents h <-> holds h p e.
Proof.
  intros Hwf. pose proof (wf_num_elts h Hwf) as Hn. split.
  - intros Hin. apply list_elem_of_lookup in Hin as [i Hi].
    pose proof (lookup_lt_Some _ _ _ Hi) as Hlt.
    rewrite length_contents in Hlt by assumption.
    replace i with (Z.to_nat (Z.of_nat i)) in Hi by lia.
    rewrite lookup_contents in Hi by (auto; lia).
    injection Hi as Hp He. exists (Z.of_nat i). split; [lia|auto].
  - intros (k & Hk & <- & <-). apply list_elem_of_lookup.
    exists (Z.to_nat k). apply lookup_contents; auto.
Qed.

Lemma search_run h e :
  heap_uint32_search e h = Ok (ht h !! e, h, []).
Proof.
  unfold heap_uint32_search, bind, ht_div_uint32_search, gets.
  destruct (ht h !! e); reflexivity.
Qed.

Lemma not_held_no_entry h e :
  index_sound h -> wf h -> e ∉ (contents h).*2 -> ht h !! e = None.
Proof.
  intros Hsound Hwf Hnot. destruct (ht h !! e) as [i|] eqn:Hht; [|reflexivity].
  exfalso. apply Hnot. destruct (Hsound e i Hht) as [Hi He].
  apply list_elem_of_fmap. exists (sel (ptys h) i, e). split; [reflexivity|].
  apply elem_of_contents; [assumption|]. exists i. auto.
Qed.

Lemma no_entry_not_held h e :
  index_complete h -> wf h -> ht h !! e = None -> e ∉ (contents h).*2.
Proof.
  intros Hc Hwf Hht Hin. apply list_elem_of_fmap in Hin as ([p e'] & He & Hin).
  cbn in He. subst e'. apply elem_of_contents in Hin; [|assumption].
  destruct Hin as (k & Hk & _ & He). specialize (Hc k Hk).
  rewrite He, Hht in Hc. discriminate.
Qed.


(** X2.  A pop from a non-empty reachable heap returns a pair of the heap
    whose priority compares [<= 0] with every priority of the heap, and
    removes exactly that pair. *)
Theorem pop_removes_minimum h pb eb :
  reachable h -> 0 < num_elts h ->
  exists p e h' l,
    heap_uint32_pop cmp_pty_fn pb eb h = Ok ((p, e), h', l) /\
    num_elts h' = num_elts h - 1 /\
    (p, e) :: contents h' ≡ₚ contents h /\
    Forall (fun qx => cmp_pty_fn p (fst qx) <= 0) (contents h).
Proof.
  intros Hr Hpos.
  destruct (reachable_invariant h Hr) as (Hwf & Hheap & _).
  destruct (wp_ok _ _ _ (wp_pop h pb eb Hwf Hheap Hpos))
    as (out & h' & l & Hrun & -> & Hsw & _).
  pose proof (wf_pop_cut h Hwf Hpos) as Hwfc.
  exists (sel (ptys h) 0), (sel (elts h) 0), h', l.
  split; [exact Hrun|]. split; [|split].
  - destruct (swaps_counts _ _ Hsw) as (-> & _). reflexivity.
  - rewrite (swaps_contents _ _ Hsw Hwfc). apply contents_pop_cut; auto.
  - apply Forall_forall. intros [q x] Hin.
    apply elem_of_contents in Hin; [|assumption].
    destruct Hin as (k & Hk & <- & _). cbn [fst].
    apply root_min; auto.
Qed.

(** X3.  An update of an element that the hash table of a reachable heap
    maps to slot [ix] returns, and changes nothing but the priority paired
    with that element: the pairs of the heap after the update are those
    before it with the pair of slot [ix] replaced by [(p, e)]. *)
Theorem update_replaces_priority h p e ix :
  reachable h -> heap_uint32_search e h = Ok (Some ix, h, []) ->
  exists q h' l,
    contents h !! Z.to_nat ix = Some (q, e) /\
    heap_uint32_update cmp_pty_fn p e h = Ok (tt, h', l) /\
    num_elts h' = num_elts h /\
    contents h' ≡ₚ <[Z.to_nat ix := (p, e)]> (contents h).
Proof.
  intros Hr Hsearch.
  destruct (reachable_invariant h Hr) as (Hwf & Hheap & Hsound).
  rewrite search_run in Hsearch.
  assert (Hht : ht h !! e = Some ix) by congruence.
  destruct (Hsound e ix Hht) as [Hix He].
  assert (Hwp := wp_update h p e Hwf Hheap Hsound).
  apply wp_not_fatal in Hwp; [|rewrite Hht; discriminate].
  destruct (wp_ok _ _ _ Hwp) as ([] & h' & l & Hrun & ix' & Hht' & _ & Hsw & _).
  assert (ix' = ix) as -> by congruence.
  pose proof (wf_updated h ix p Hwf) as Hwfu.
  exists (sel (ptys h) ix), h', l.
  split; [rewrite lookup_contents, He by auto; reflexivity|].
  split; [exact Hrun|]. split.
  - destruct (swaps_counts _ _ Hsw) as (-> & _). reflexivity.
  - rewrite (swaps_contents _ _ Hsw Hwfu), contents_updated, He by assumption.
    reflexivity.
Qed.

(** X4.  In a heap reached by pushing only absent elements, a search
    either finds the slot of the element, which holds the element with
    its current priority, or the element is in no slot of the heap and
    the search returns null. *)
Theorem search_finds_exactly_present h e :
  reachable_distinct h ->
  (exists ix q, heap_uint32_search e h = Ok (Some ix, h, []) /\
                0 <= ix < num_elts h /\
                contents h !! Z.to_nat ix = Some (q, e)) \/
  (heap_uint32_search e h = Ok (None, h, []) /\ e ∉ (contents h).*2).
Proof.
  intros Hr. pose proof (reachable_distinct_complete h Hr) as Hc.
  destruct (reachable_invariant h (reachable_distinct_reachable h Hr))
    as (Hwf & _ & Hsound).
  rewrite search_run. destruct (ht h !! e) as [ix|] eqn:Hht.
  - left. destruct (Hsound e ix Hht) as [Hix He].
    exists ix, (sel (ptys h) ix). split; [reflexivity|]. split; [exact Hix|].
    rewrite lookup_contents, He by auto. reflexivity.
  - right. split; [reflexivity|]. apply no_entry_not_held; auto.
Qed.

(** X5.  An update of an element that is in no slot of the heap aborts
    (the assertion [ix_ptr != NULL] fails). *)
Theorem update_absent_aborts h p e :
  reachable h -> e ∉ (contents h).*2 ->
  heap_uint32_update cmp_pty_fn p e h = Fatal.
Proof.
  intros Hr Hnot.
  destruct (reachable_invariant h Hr) as (Hwf & _ & Hsound).
  pose proof (not_held_no_entry h e Hsound Hwf Hnot) as Hht.
  unfold heap_uint32_update, bind, ht_div_uint32_search, gets.
  rewrite Hht. reflexivity.
Qed.

Lemma NoDup_elts h : wf h -> index_complete h -> NoDup (contents h).*2.
Proof.
  intros Hwf Hc. pose proof (wf_num_elts h Hwf) as Hn.
  apply NoDup_alt. intros i j x Hi Hj.
  rewrite list_lookup_fmap in Hi, Hj.
  destruct (contents h !! i) as [[pi ei]|] eqn:Hci; [|discriminate].
  destruct (contents h !! j) as [[pj ej]|] eqn:Hcj; [|discriminate].
  cbn in Hi, Hj. injection Hi as ->. injection Hj as ->.
  pose proof (lookup_lt_Some _ _ _ Hci) as Hli.
  pose proof (lookup_lt_Some _ _ _ Hcj) as Hlj.
  rewrite length_contents in Hli, Hlj by assumption.
  replace i with (Z.to_nat (Z.of_nat i)) in Hci by lia.
  replace j with (Z.to_nat (Z.of_nat j)) in Hcj by lia.
  rewrite lookup_contents in Hci, Hcj by (auto; lia).
  injection Hci as _ Hei. injection Hcj as _ Hej.
  assert (Z.of_nat i = Z.of_nat j); [|lia].
  apply (index_complete_inj h); auto; try lia. congruence.
Qed.

Lemma held_entry h p e :
  wf h -> index_complete h -> (p, e) ∈ contents h ->
  exists ix, ht h !! e = Some ix /\ 0 <= ix < num_elts h /\
             sel (ptys h) ix = p /\ sel (elts h) ix = e.
Proof.
  intros Hwf Hc Hin. apply elem_of_contents in Hin; [|assumption].
  destruct Hin as (k & Hk & Hp & He). exists k.
  split; [rewrite <- He; apply Hc; exact Hk|auto].
Qed.


(** X7.  Update then search: in a heap reached by pushing only absent
    elements, after the update of the priority of a present element [e]
    to [p] a search for [e] returns a slot that holds [e] with priority
    [p]. *)
Theorem update_then_search h p e ix0 :
  reachable_distinct h ->
  heap_uint32_search e h = Ok (Some ix0, h, []) ->
  exists h' l ix,
    heap_uint32_update cmp_pty_fn p e h = Ok (tt, h', l) /\
    heap_uint32_search e h' = Ok (Some ix, h', []) /\
    0 <= ix < num_elts h' /\
    sel (ptys h') ix = p /\ sel (elts h') ix = e.
Proof.
  intros Hr Hsearch.
  destruct (reachable_invariant h (reachable_distinct_reachable h Hr))
    as (Hwf & Hheap & Hsound).
  rewrite search_run in Hsearch.
  assert (Hht : ht h !! e = Some ix0) by congruence.
  destruct (Hsound e ix0 Hht) as [Hix0 He0].
  assert (Hwp := wp_update h p e Hwf Hheap Hsound).
  apply wp_not_fatal in Hwp; [|rewrite Hht; discriminate].
  destruct (wp_ok _ _ _ Hwp) as ([] & h' & l & Hrun & ix' & Hht' & _ & Hsw & _).
  assert (ix' = ix0) as -> by congruence.
  pose proof (wf_updated h ix0 p Hwf) as Hwfu.
  pose proof (swaps_wf _ _ Hsw Hwfu) as Hwf'.
  pose proof (reachable_distinct_complete h'
                (reachd_update cmp_pty_fn h p e h' l Hr Hrun)) as Hc'.
  assert (Hin : (p, e) ∈ contents h').
  { rewrite (swaps_contents _ _ Hsw Hwfu), contents_updated, He0 by assumption.
    apply list_elem_of_lookup. exists (Z.to_nat ix0).
    apply list_lookup_insert_eq. rewrite length_contents by assumption. lia. }
  destruct (held_entry h' p e Hwf' Hc' Hin) as (ix & Hht1 & Hix & Hp & He).
  exists h', l, ix. split; [exact Hrun|].
  split; [rewrite search_run, Hht1; reflexivity|auto].
Qed.

(** X8.  Pop then search: in a heap reached by pushing only absent
    elements, the element returned by a pop is no longer in the heap, and
    a search for it returns null. *)
Theorem pop_then_search h pb eb :
  reachable_distinct h -> 0 < num_elts h ->
  exists p e h' l,
    heap_uint32_pop cmp_pty_fn pb eb h = Ok ((p, e), h', l) /\
    (e ∉ (contents h').*2) /\
    heap_uint32_search e h' = Ok (None, h', []).
Proof.
  intros Hr Hpos.
  pose proof (reachable_distinct_complete h Hr) as Hc.
  destruct (reachable_invariant h (reachable_distinct_reachable h Hr))
    as (Hwf & Hheap & Hsound).
  destruct (wp_ok _ _ _ (wp_pop h pb eb Hwf Hheap Hpos))
    as (out & h' & l & Hrun & -> & Hsw & _).
  pose proof (wf_pop_cut h Hwf Hpos) as Hwfc.
  pose proof (swaps_wf _ _ Hsw Hwfc) as Hwf'.
  destruct (reachable_invariant h'
              (reachable_distinct_reachable h'
                 (reachd_pop cmp_pty_fn h pb eb _ h' l Hr Hrun)))
    as (_ & _ & Hsound').
  assert (Hperm : (sel (ptys h) 0, sel (elts h) 0) :: contents h'
                    ≡ₚ contents h).
  { rewrite (swaps_contents _ _ Hsw Hwfc). apply contents_pop_cut; auto. }
  assert (Hnot : sel (elts h) 0 ∉ (contents h').*2).
  { pose proof (NoDup_elts h Hwf Hc) as Hnd.
    rewrite <- Hperm in Hnd. cbn in Hnd. apply NoDup_cons in Hnd as [Hnd _].
    exact Hnd. }
  exists (sel (ptys h) 0), (sel (elts h) 0), h', l.
  split; [exact Hrun|]. split; [exact Hnot|].
  rewrite search_run, (not_held_no_entry h' _ Hsound' Hwf' Hnot). reflexivity.
Qed.

(** ** The number of exchanges *)

Lemma swap_count_app l1 l2 : swap_count (l1 ++ l2) = swap_count l1 + swap_count l2.
Proof. unfold swap_count. rewrite List.filter_app, length_app. lia. Qed.

Lemma swap_count_cons e l :
  swap_count (e :: l) = (if is_swap e then 1 else 0) + swap_count l.
Proof. unfold swap_count. cbn. destruct (is_swap e); cbn [length]; lia. Qed.

Lemma swap_count_nil : swap_count [] = 0.
Proof. reflexivity. Qed.

Lemma swap_count_nonneg l : 0 <= swap_count l.
Proof. unfold swap_count. lia. Qed.

Ltac count_tac :=
  rewrite ?swap_count_app, ?swap_count_cons, ?swap_count_nil; cbn [is_swap].

Lemma log2_parent i : 0 < i -> Z.log2 (parent i + 1) + 1 = Z.log2 (i + 1).
Proof.
  intros Hi. unfold parent.
  pose proof (Z.div_mod (i - 1) 2 ltac:(lia)) as Hdm.
  pose proof (Z.mod_pos_bound (i - 1) 2 ltac:(lia)) as Hb.
  assert (Hq : 0 <= (i - 1) / 2) by (apply Z.div_pos; lia).
  destruct (Z.eq_dec ((i - 1) mod 2) 0) as [H0|H1].
  - replace (i + 1) with (2 * ((i - 1) / 2 + 1)) by lia.
    rewrite Z.log2_double by lia. lia.
  - replace (i + 1) with (2 * ((i - 1) / 2 + 1) + 1) by lia.
    rewrite Z.log2_succ_double by lia. lia.
Qed.

Lemma log2_left i : 0 <= i -> Z.log2 (2 * i + 1 + 1) = Z.log2 (i + 1) + 1.
Proof.
  intros Hi. replace (2 * i + 1 + 1) with (2 * (i + 1)) by lia.
  rewrite Z.log2_double by lia. lia.
Qed.

Lemma log2_right i : 0 <= i -> Z.log2 (2 * i + 2 + 1) = Z.log2 (i + 1) + 1.
Proof.
  intros Hi. replace (2 * i + 2 + 1) with (2 * (i + 1) + 1) by lia.
  rewrite Z.log2_succ_double by lia. lia.
Qed.

Lemma heapify_up_loop_swaps fuel : forall i h,
  wf h -> 0 <= i < num_elts h -> (Z.to_nat i <= fuel)%nat ->
  wp False (heapify_up_loop cmp_pty_fn fuel i)
     (fun _ h' l => swaps h h' /\ swap_count l <= Z.log2 (i + 1)) h.
Proof.
  induction fuel as [|fuel IH]; intros i h Hwf Hi Hfuel.
  - assert (i = 0) by lia. subst i. cbn. split; [apply swaps_refl|].
    reflexivity.
  - pose proof (wf_num_elts h Hwf) as Hn.
    cbn [heapify_up_loop]. destruct (Z.ltb_spec 0 i) as [Hpos|Hz].
    + rewrite u32_parent by lia.
      pose proof (parent_lt i Hpos) as Hpi.
      pose proof (log2_parent i Hpos) as Hlog.
      wp_step. apply wp_cmp_pty; [auto|lia|lia|].
      destruct (0 <? _).
      * wp_step. apply wp_swap; [auto|lia|lia|lia|]. cbv beta.
        eapply wp_mono.
        { apply IH.
          - apply wf_swapped; auto.
          - change (num_elts (swapped h i (parent i))) with (num_elts h). lia.
          - lia. }
        cbv beta. intros _ h' l [Hsw Hcount]. split.
        -- eapply swaps_trans; [|exact Hsw]. apply swaps_one; lia.
        -- count_tac. lia.
      * wp_step. split; [apply swaps_refl|]. count_tac.
        pose proof (Z.log2_nonneg (i + 1)). lia.
    + wp_step. split; [apply swaps_refl|]. count_tac.
      pose proof (Z.log2_nonneg (i + 1)). lia.
Qed.

Lemma heapify_down_loop_swaps fuel : forall i h,
  wf h -> 0 <= i < num_elts h -> (Z.to_nat (num_elts h - i) <= fuel)%nat ->
  wp False (heapify_down_loop cmp_pty_fn fuel i)
     (fun i' h' l =>
        swaps h h' /\ 0 <= i' < num_elts h /\
        swap_count l + Z.log2 (i + 1) <= Z.log2 (i' + 1)) h.
Proof.
  induction fuel as [|fuel IH]; intros i h Hwf Hi Hfuel;
    pose proof (wf_num_elts h Hwf) as Hn;
    destruct (down_guard_exact i (num_elts h) Hi ltac:(lia)) as (G1 & G2 & _);
    cbn [heapify_down_loop]; wp_step; wp_step; wp_step; wp_step;
    rewrite G1, G2; cbv beta;
    destruct (Z.leb_spec (i + 2) (num_elts h - 1 - i)) as [Hg|Hg];
    try lia;
    try (wp_step; split; [apply swaps_refl|]; split; [lia|];
         count_tac; lia).
  rewrite (u32_small (2 * i + 1)), (u32_small (2 * i + 2)) by lia.
  pose proof (log2_left i ltac:(lia)) as Hll.
  pose proof (log2_right i ltac:(lia)) as Hlr.
  set (jl := 2 * i + 1) in *. set (jr := 2 * i + 2) in *.
  set (n := num_elts h) in *.
  assert (Hright : forall lpre, swap_count lpre = 0 ->
    wp False
      (let* c3 := cmp_pty cmp_pty_fn i jr in
       if 0 <? c3
       then swap i jr ;; heapify_down_loop cmp_pty_fn fuel jr
       else ret i)
      (fun i' h' l =>
         swaps h h' /\ 0 <= i' < n /\
         swap_count (lpre ++ l) + Z.log2 (i + 1) <= Z.log2 (i' + 1)) h).
  { intros lpre Hpre. wp_step. apply wp_cmp_pty; [auto|subst n; lia ..|].
    destruct (0 <? _).
    - wp_step. apply wp_swap; [auto|subst n; lia ..|]. cbv beta.
      eapply wp_mono.
      { apply (IH jr (swapped h i jr)).
        - apply wf_swapped; auto.
        - change (num_elts (swapped h i jr)) with n. lia.
        - change (num_elts (swapped h i jr)) with n. lia. }
      cbv beta. intros i' h' l (Hsw & Hi' & Hl).
      change (num_elts (swapped h i jr)) with n in Hi'.
      split; [|split; [exact Hi'|]].
      + eapply swaps_trans; [|exact Hsw]. apply swaps_one; subst n; lia.
      + count_tac. rewrite Hpre. lia.
    - wp_step. split; [apply swaps_refl|]. split; [lia|].
      count_tac. rewrite Hpre. lia. }
  wp_step. apply wp_cmp_pty; [auto|subst n; lia ..|]. wp_step.
  destruct (0 <? _).
  - wp_step. apply wp_cmp_pty; [auto|subst n; lia ..|]. wp_step.
    destruct (_ <=? 0).
    + wp_step. apply wp_swap; [auto|subst n; lia ..|]. cbv beta.
      eapply wp_mono.
      { apply (IH jl (swapped h i jl)).
        - apply wf_swapped; auto.
        - change (num_elts (swapped h i jl)) with n. lia.
        - change (num_elts (swapped h i jl)) with n. lia. }
      cbv beta. intros i' h' l (Hsw & Hi' & Hl).
      change (num_elts (swapped h i jl)) with n in Hi'.
      split; [|split; [exact Hi'|]].
      * eapply swaps_trans; [|exact Hsw]. apply swaps_one; subst n; lia.
      * count_tac. lia.
    + eapply wp_mono; [apply (Hright ([EvGuard i n; EvCmp i jl; EvCmp jl jr]))|].
      * reflexivity.
      * cbv beta. intros i' h' l (Hsw & Hi' & Hl). split; [exact Hsw|].
        split; [exact Hi'|]. revert Hl. count_tac. lia.
  - wp_step. eapply wp_mono; [apply (Hright ([EvGuard i n; EvCmp i jl]))|].
    + reflexivity.
    + cbv beta. intros i' h' l (Hsw & Hi' & Hl). split; [exact Hsw|].
      split; [exact Hi'|]. revert Hl. count_tac. lia.
Qed.

Lemma heapify_down_swaps i h :
  wf h -> 0 <= i < num_elts h ->
  wp False (heapify_down cmp_pty_fn i)
     (fun _ h' l =>
        swaps h h' /\ swap_count l + Z.log2 (i + 1) <= Z.log2 (num_elts h)) h.
Proof.
  intros Hwf Hi. pose proof (wf_num_elts h Hwf) as Hn.
  unfold heapify_down. wp_step. wp_step. wp_step.
  apply wp_assert; [intros _|intros Hb; apply andb_false_iff in Hb; lia].
  wp_step. eapply wp_mono; [apply heapify_down_loop_swaps; auto; lia|].
  cbv beta. intros i' h' l (Hsw & Hi' & Hl).
  destruct (swaps_counts h h' Hsw) as (Hn' & _).
  pose proof (swaps_wf h h' Hsw Hwf) as Hwf'.
  pose proof (Z.log2_le_mono (i' + 1) (num_elts h) ltac:(lia)) as Hmono.
  wp_step. wp_step. rewrite Hn'.
  destruct (down_guard_exact i' (num_elts h) Hi' ltac:(lia)) as (_ & G2 & G3).
  rewrite G2, G3.
  destruct (Z.eqb_spec (i' + 1) (num_elts h - 1 - i')) as [Heq|Hne].
  - rewrite (u32_small (2 * i' + 1)) by lia.
    pose proof (log2_left i' ltac:(lia)) as Hll.
    replace (2 * i' + 1 + 1) with (num_elts h) in Hll by lia.
    wp_step. apply wp_cmp_pty; [auto|lia|lia|].
    destruct (0 <? _).
    + apply wp_swap; [auto|lia|lia|lia|]. split.
      * eapply swaps_trans; [exact Hsw|]. apply swaps_one; lia.
      * count_tac. lia.
    + wp_step. split; [exact Hsw|]. count_tac. lia.
  - wp_step. split; [exact Hsw|]. count_tac. lia.
Qed.

Lemma wp_push_swaps h p e :
  wf h -> room h ->
  wp (push_aborts h) (heap_uint32_push cmp_pty_fn p e)
     (fun _ h' l => swap_count l <= Z.log2 (num_elts h + 1)) h.
Proof.
  intros Hwf Hroom. pose proof (wf_num_elts h Hwf) as Hn.
  unfold heap_uint32_push. wp_step. wp_step. wp_step. wp_step. wp_step.
  apply wp_push_room; [exact Hwf|]. intros Hcap.
  destruct (push_room_spec h Hwf Hcap Hroom) as (Hwg & Hng & Hsg & Hht & _).
  pose proof Hroom as [Hrp Hre].
  wp_step. wp_step. rewrite Hng.
  wp_step. apply wp_store_elt; [lia|].
  wp_step. apply wp_store_pty; [hsimpl; lia|].
  wp_step. wp_step. wp_step. wp_step. hsimpl. rewrite Hng.
  rewrite (u32_small (num_elts h + 1)) by lia.
  fold (pushed h p e). unfold heapify_up.
  eapply wp_total, wp_mono.
  { apply heapify_up_loop_swaps.
    - apply wf_pushed; auto.
    - change (num_elts (pushed h p e)) with (num_elts h + 1). lia.
    - lia. }
  cbv beta. intros _ h' l [_ Hc]. count_tac. lia.
Qed.

Lemma wp_update_swaps h p e :
  wf h -> index_sound h ->
  wp (ht h !! e = None) (heap_uint32_update cmp_pty_fn p e)
     (fun _ h' l => swap_count l <= Z.log2 (num_elts h)) h.
Proof.
  intros Hwf Hsound. unfold heap_uint32_update. wp_step. wp_step.
  destruct (ht h !! e) as [ix|] eqn:Hht; [|reflexivity].
  destruct (Hsound e ix Hht) as [Hix _].
  destruct (wf_alloc h ix Hwf Hix) as [Ha _].
  pose proof (wf_updated h ix p Hwf) as Hwfu.
  wp_step. apply wp_store_pty; [lia|]. fold (updated h ix p).
  wp_step. unfold heapify_up. eapply wp_total, wp_mono.
  { apply heapify_up_loop_swaps; [exact Hwfu| |lia].
    change (num_elts (updated h ix p)) with (num_elts h). exact Hix. }
  cbv beta. intros _ h1 l1 [Hsw1 Hc1].
  destruct (swaps_counts _ _ Hsw1) as (Hn1 & _).
  change (num_elts (updated h ix p)) with (num_elts h) in Hn1.
  eapply wp_total, wp_mono.
  { apply heapify_down_swaps; [eapply swaps_wf; eauto|lia]. }
  cbv beta. intros _ h2 l2 [_ Hc2]. rewrite Hn1 in Hc2. count_tac. lia.
Qed.

Lemma wp_pop_swaps h pb eb :
  wf h -> 0 < num_elts h ->
  wp False (heap_uint32_pop cmp_pty_fn pb eb)
     (fun _ h' l => swap_count l <= 1 + Z.log2 (num_elts h - 1)) h.
Proof.
  intros Hwf Hpos. pose proof (wf_num_elts h Hwf) as Hn.
  destruct (wf_alloc h 0 Hwf ltac:(lia)) as [Hap Hae].
  pose proof (Z.log2_nonneg (num_elts h - 1)) as Hlog.
  unfold heap_uint32_pop. wp_step. wp_step.
  destruct (Z.eqb_spec (num_elts h) 0) as [?|_]; [lia|].
  wp_step. apply wp_load_elt; [lia|].
  wp_step. apply wp_load_pty; [lia|].
  wp_step. wp_step. wp_step.
  rewrite (u32_small (num_elts h - 1)) by lia.
  assert (Hswap : forall (Q : unit -> heap_uint32_t -> list event -> Prop),
            (forall l, swap_count l <= 1 -> Q tt (pop_swap h) l) ->
            wp False (swap 0 (num_elts h - 1)) Q h).
  { intros Q HQ. unfold pop_swap in HQ.
    destruct (Z.eqb_spec 0 (num_elts h - 1)) as [Heq|Hne].
    - rewrite <- Heq. eapply wp_of_run; [apply swap_same|]. apply HQ.
      count_tac. lia.
    - apply wp_swap; [auto|lia|lia|auto|]. apply HQ. count_tac. lia. }
  apply Hswap. intros lswap Hlswap.
  wp_step. wp_step. wp_step. wp_step. wp_step. wp_step. hsimpl.
  rewrite num_elts_pop_swap.
  rewrite (u32_small (num_elts h - 1)) by lia.
  fold (pop_cut h).
  pose proof (wf_pop_cut h Hwf Hpos) as Hwfc.
  wp_step.
  destruct (Z.ltb_spec 0 (num_elts h - 1)) as [Hmore|Hlast].
  - eapply wp_mono.
    { apply heapify_down_swaps; auto.
      change (num_elts (pop_cut h)) with (num_elts h - 1). lia. }
    cbv beta. intros _ h' l [_ Hc]. wp_step.
    change (num_elts (pop_cut h)) with (num_elts h - 1) in Hc.
    change (Z.log2 (0 + 1)) with 0 in Hc. count_tac. lia.
  - wp_step. wp_step. count_tac. lia.
Qed.



(** ** Freeing the heap *)

Lemma free_loop_spec fuel : forall i h,
  wf h -> 0 <= i <= num_elts h -> (Z.to_nat (num_elts h - i) <= fuel)%nat ->
  free_loop fuel i h
    = Ok ((drop (Z.to_nat i) (contents h)).*2, h, []).
Proof.
  induction fuel as [|fuel IH]; intros i h Hwf Hi Hfuel;
    pose proof (wf_num_elts h Hwf) as Hn;
    pose proof (length_contents h Hwf) as Hlen.
  - assert (i = num_elts h) as -> by lia.
    rewrite drop_ge by lia. cbn. unfold bind, gets.
    rewrite Z.ltb_irrefl. reflexivity.
  - cbn [free_loop]. unfold bind at 1. unfold gets at 1.
    destruct (Z.ltb_spec i (num_elts h)) as [Hlt|Hge].
    + destruct (wf_alloc h i Hwf ltac:(lia)) as [_ Hae].
      pose proof (lookup_contents h i Hwf ltac:(lia)) as Hlk.
      rewrite (drop_S _ _ _ Hlk). cbn [fmap list_fmap snd].
      unfold bind, load_elt. rewrite slot_sel by lia.
      rewrite (u32_small (i + 1)) by lia.
      rewrite IH by (auto; lia).
      replace (Z.to_nat (i + 1)) with (S (Z.to_nat i)) by lia.
      reflexivity.
    + assert (i = num_elts h) as -> by lia.
      rewrite drop_ge by lia. reflexivity.
Qed.

(** X23.  [heap_uint32_free] with a non-null [free_elt_fn] calls it once
    on each slot below [num_elts], in slot order, and on no other slot;
    in a heap reached by pushing only absent elements the blocks passed
    to it are pairwise distinct, so no element is freed twice.  With a
    null [free_elt_fn] it is not called.  In both cases the two arrays
    and the hash table are released. *)
Theorem free_releases_each_element_once h :
  reachable_distinct h ->
  (exists h',
     heap_uint32_free true h = Ok ((contents h).*2, h', []) /\
     NoDup (contents h).*2 /\
     elts h' = [] /\ ptys h' = [] /\ ht h' = ∅) /\
  (exists h',
     heap_uint32_free false h = Ok ([], h', []) /\
     elts h' = [] /\ ptys h' = [] /\ ht h' = ∅).
Proof.
  intros Hr. pose proof (reachable_distinct_complete h Hr) as Hc.
  destruct (reachable_invariant h (reachable_distinct_reachable h Hr))
    as (Hwf & _ & _).
  pose proof (wf_num_elts h Hwf) as Hn. split.
  - eexists. split; [|split; [apply NoDup_elts; assumption|]].
    + unfold heap_uint32_free. unfold bind at 1 2. unfold gets at 1.
      rewrite free_loop_spec by (auto; lia).
      change (Z.to_nat 0) with 0%nat. rewrite drop_0. reflexivity.
    + hsimpl. auto.
  - eexists. split; [reflexivity|]. hsimpl. auto.
Qed.

End Order.

(** * The load factor of the chained hash table *)

Section HtDivchnFacts.
Import HtDivchn.

Variable primes : list Z.
Hypothesis primes_pos : Forall (fun p => 0 < p) primes.

Lemma hash_range key p : 0 < p -> 0 <= hash key p < p.
Proof.
  intros Hp. unfold hash.
  assert (H : forall acc, 0 <= acc < p ->
            0 <= fold_left (fun acc b => (acc * 256 + Z.of_N (Byte.to_N b)) mod p)
                   key acc < p).
  { induction key as [|b key IH]; intros acc Hacc; cbn [fold_left]; auto.
    apply IH. apply Z.mod_pos_bound. exact Hp. }
  apply H. lia.
Qed.

Lemma length_concat_insert (ke : list (list (block * block))) ix c :
  (ix < length ke)%nat ->
  (length (concat (<[ix := c]> ke)) + length (chain_at ke ix)
   = length (concat ke) + length c)%nat.
Proof.
  unfold chain_at. revert ix.
  induction ke as [|c0 ke IH]; intros ix Hix; cbn [length] in Hix; [lia|].
  destruct ix as [|ix].
  - cbn [nth]. change (<[0%nat := c]> (c0 :: ke)) with (c :: ke).
    cbn [concat]. rewrite !length_app. lia.
  - cbn [nth]. change (<[S ix := c]> (c0 :: ke)) with (c0 :: <[ix := c]> ke).
    cbn [concat]. rewrite !length_app. specialize (IH ix ltac:(lia)). lia.
Qed.

Lemma length_rehash p nodes : length (rehash p nodes) = Z.to_nat p.
Proof.
  unfold rehash.
  assert (H : forall ke,
            length (fold_left
                      (fun ke kv =>
                         let ix := Z.to_nat (hash (fst kv) p) in
                         <[ix := kv :: chain_at ke ix]> ke) nodes ke)
            = length ke).
  { induction nodes as [|kv nodes IH]; intros ke; cbn [fold_left]; auto.
    rewrite IH. apply length_insert. }
  rewrite H. apply length_replicate.
Qed.

Lemma concat_replicate_nil (n : nat) :
  concat (replicate n ([] : list (block * block))) = [].
Proof. induction n; cbn; auto. Qed.

Lemma length_concat_rehash p nodes :
  0 < p -> length (concat (rehash p nodes)) = length nodes.
Proof.
  intros Hp. unfold rehash.
  assert (H : forall ke, length ke = Z.to_nat p ->
            length (concat
                      (fold_left
                         (fun ke kv =>
                            let ix := Z.to_nat (hash (fst kv) p) in
                            <[ix := kv :: chain_at ke ix]> ke) nodes ke))
            = (length (concat ke) + length nodes)%nat).
  { induction nodes as [|kv nodes IH]; intros ke Hke; cbn [fold_left length].
    - lia.
    - rewrite IH by (rewrite length_insert; exact Hke).
      pose proof (hash_range (fst kv) p Hp) as Hh.
      pose proof (length_concat_insert ke (Z.to_nat (hash (fst kv) p))
                    (kv :: chain_at ke (Z.to_nat (hash (fst kv) p)))
                    ltac:(lia)) as Hc.
      cbn [length] in Hc. lia. }
  rewrite H by apply length_replicate.
  rewrite concat_replicate_nil. reflexivity.
Qed.

Lemma length_chain_update key elt c :
  length (chain_update key elt c) = length c.
Proof.
  induction c as [|[k v] c IH]; cbn; auto.
  destruct (decide (k = key)); cbn; auto.
Qed.

Lemma length_chain_unlink key c v :
  chain_search key c = Some v ->
  S (length (chain_unlink key c)) = length c.
Proof.
  induction c as [|[k w] c IH]; cbn; [discriminate|].
  destruct (decide (k = key)); cbn; auto.
Qed.

Lemma ht_wf_grow t :
  ht_wf primes t -> ht_wf primes (ht_grow primes t).
Proof.
  intros (Hc & Hlen & Hix & Hn). unfold ht_grow.
  destruct (primes !! S (count_ix t)) as [p|] eqn:Hnext; [|repeat split; auto].
  assert (Hp : 0 < p).
  { rewrite Forall_lookup in primes_pos. eapply primes_pos. exact Hnext. }
  unfold ht_wf, node_count, set_table. cbn.
  rewrite length_rehash, length_concat_rehash by exact Hp.
  repeat split; auto.
Qed.

Lemma ht_grow_params t :
  num_elts (ht_grow primes t) = num_elts t /\
  alpha_n (ht_grow primes t) = alpha_n t /\
  log_alpha_d (ht_grow primes t) = log_alpha_d t.
Proof.
  unfold ht_grow. destruct (primes !! S (count_ix t)); cbn; auto.
Qed.

Lemma presize_spec fuel : forall n t,
  ht_wf primes t ->
  ht_wf primes (presize primes fuel n t) /\
  num_elts (presize primes fuel n t) = num_elts t /\
  alpha_n (presize primes fuel n t) = alpha_n t /\
  log_alpha_d (presize primes fuel n t) = log_alpha_d t.
Proof.
  induction fuel as [|fuel IH]; intros n t Hwf; cbn [presize]; [auto|].
  destruct (over_load n t); [|auto].
  destruct (primes !! S (count_ix t)) as [p|] eqn:Hnext; [|auto].
  destruct (ht_grow_params t) as (Hn & Ha & Hl).
  destruct (IH n (ht_grow primes t) (ht_wf_grow t Hwf))
    as (Hwf' & Hn' & Ha' & Hl').
  split; [exact Hwf'|]. split; [congruence|]. split; congruence.
Qed.

Lemma ht_wf_num_elts t : ht_wf primes t -> 0 <= num_elts t.
Proof. intros (_ & _ & _ & Hn). rewrite Hn. unfold node_count. lia. Qed.

Lemma init_inv ks es min_num an ld t :
  0 < an -> ht_divchn_init primes ks es min_num an ld = Some t ->
  ht_inv primes t /\ num_elts t = 0.
Proof.
  intros Han. unfold ht_divchn_init.
  destruct (primes !! 0%nat) as [p|] eqn:Hfirst; [|discriminate].
  intros Heq. inversion Heq as [Ht]. clear Heq.
  assert (Hp : 0 < p).
  { rewrite Forall_lookup in primes_pos. apply (primes_pos 0%nat). exact Hfirst. }
  set (t0 := mk_ht ks es 0 p 0 an ld (replicate (Z.to_nat p) [])) in *.
  assert (Hwf0 : ht_wf primes t0).
  { unfold ht_wf, node_count, t0. cbn. rewrite length_replicate.
    rewrite concat_replicate_nil. cbn. repeat split; auto. }
  destruct (presize_spec (length primes) min_num t0 Hwf0)
    as (Hwf & Hn & Ha & _).
  change (num_elts t0) with 0 in Hn. change (alpha_n t0) with an in Ha.
  split; [|exact Hn]. split; [exact Hwf|]. split; [rewrite Ha; exact Han|].
  intros _. rewrite Hn, Ha. destruct Hwf as (Hc & _). nia.
Qed.

Lemma insert_params key elt t :
  alpha_n (ht_divchn_insert primes key elt t) = alpha_n t /\
  log_alpha_d (ht_divchn_insert primes key elt t) = log_alpha_d t.
Proof.
  unfold ht_divchn_insert.
  destruct (chain_search key _); [cbn; auto|].
  match goal with |- context [if ?b then _ else _] => destruct b end;
    [|cbn; auto].
  match goal with
  | |- context [ht_grow primes ?t1] =>
      destruct (ht_grow_params t1) as (_ & -> & ->)
  end.
  cbn. auto.
Qed.

Lemma remove_params key elt t :
  alpha_n (snd (ht_divchn_remove key elt t)) = alpha_n t /\
  log_alpha_d (snd (ht_divchn_remove key elt t)) = log_alpha_d t.
Proof.
  unfold ht_divchn_remove. destruct (chain_search key _); cbn; auto.
Qed.

(** One check and one rehash keep the bound when the next prime is far
    enough from the current one. *)
Lemma insert_inv key elt t :
  spaced primes (alpha_n t) (log_alpha_d t) ->
  ht_inv primes t -> ht_inv primes (ht_divchn_insert primes key elt t).
Proof.
  intros Hsp (Hwf & Ha & Hload). pose proof Hwf as (Hc & Hlen & Hix & Hn).
  pose proof (ht_wf_num_elts t Hwf) as Hn0.
  unfold ht_divchn_insert.
  pose proof (hash_range key (count t) Hc) as Hh.
  set (ix := Z.to_nat (hash key (count t))).
  assert (Hixlt : (ix < length (key_elts t))%nat) by (subst ix; lia).
  destruct (chain_search key (chain_at (key_elts t) ix)) as [v|] eqn:Hs.
  - pose proof (length_concat_insert (key_elts t) ix
                  (chain_update key elt (chain_at (key_elts t) ix)) Hixlt) as Hcc.
    rewrite length_chain_update in Hcc.
    split; [|split; [exact Ha|exact Hload]].
    unfold ht_wf, node_count, set_table in *. cbn.
    rewrite length_insert. repeat split; auto. lia.
  - set (t1 := set_table (count_ix t) (count t) (num_elts t + 1)
                 (<[ix := (key, elt) :: chain_at (key_elts t) ix]> (key_elts t))
                 t).
    assert (Hwf1 : ht_wf primes t1).
    { pose proof (length_concat_insert (key_elts t) ix
                    ((key, elt) :: chain_at (key_elts t) ix) Hixlt) as Hcc.
      cbn [length] in Hcc.
      unfold ht_wf, node_count, t1, set_table in *. cbn.
      rewrite length_insert. repeat split; auto. lia. }
    assert (Hpow : 0 <= 2 ^ log_alpha_d t) by (apply Z.pow_nonneg; lia).
    destruct (over_load (num_elts t1) t1) eqn:Hover.
    + split; [apply ht_wf_grow; exact Hwf1|].
      destruct (ht_grow_params t1) as (Hn1 & Ha1 & Hl1).
      split; [rewrite Ha1; exact Ha|].
      intros Hlast. rewrite Hn1, Ha1, Hl1.
      change (num_elts t1) with (num_elts t + 1).
      change (alpha_n t1) with (alpha_n t).
      change (log_alpha_d t1) with (log_alpha_d t).
      unfold ht_grow in *. change (count_ix t1) with (count_ix t) in *.
      destruct (primes !! S (count_ix t)) as [q|] eqn:Hnext.
      * cbn [count set_table]. 
        assert (Hold : num_elts t * 2 ^ log_alpha_d t <= count t * alpha_n t).
        { apply Hload. unfold at_last_prime. rewrite Hnext. discriminate. }
        pose proof (Hsp _ _ _ Hix Hnext) as Hgap. nia.
      * exfalso. apply Hlast. unfold at_last_prime.
        change (count_ix t1) with (count_ix t). exact Hnext.
    + split; [exact Hwf1|]. split; [exact Ha|]. intros _.
      unfold over_load in Hover. apply Z.ltb_ge in Hover.
      change (num_elts t1) with (num_elts t + 1) in *.
      change (alpha_n t1) with (alpha_n t) in *.
      change (log_alpha_d t1) with (log_alpha_d t) in *.
      change (count t1) with (count t) in *. nia.
Qed.

Lemma remove_inv key elt t : ht_inv primes t -> ht_inv primes (snd (ht_divchn_remove key elt t)).
Proof.
  intros (Hwf & Ha & Hload). pose proof Hwf as (Hc & Hlen & Hix & Hn).
  unfold ht_divchn_remove.
  pose proof (hash_range key (count t) Hc) as Hh.
  set (ix := Z.to_nat (hash key (count t))).
  assert (Hixlt : (ix < length (key_elts t))%nat) by (subst ix; lia).
  destruct (chain_search key (chain_at (key_elts t) ix)) as [v|] eqn:Hs;
    [|split; [exact Hwf|split; [exact Ha|exact Hload]]].
  pose proof (length_concat_insert (key_elts t) ix
                (chain_unlink key (chain_at (key_elts t) ix)) Hixlt) as Hcc.
  pose proof (length_chain_unlink key _ v Hs) as Hu.
  cbn [snd]. split; [|split; [exact Ha|]].
  - unfold ht_wf, node_count, set_table in *. cbn.
    rewrite length_insert. repeat split; auto. lia.
  - intros Hlast. specialize (Hload Hlast).
    unfold set_table. cbn.
    assert (0 <= 2 ^ log_alpha_d t) by (apply Z.pow_nonneg; lia).
    nia.
Qed.

Lemma ht_reachable_inv t :
  ht_reachable primes t -> spaced primes (alpha_n t) (log_alpha_d t) ->
  ht_inv primes t.
Proof.
  induction 1 as [ks es min_num an ld t Han Hinit|key elt t _ IH
                 |key elt t _ IH|key t _ IH]; intros Hsp.
  - eapply init_inv; eauto.
  - destruct (insert_params key elt t) as [Ha Hl]. rewrite Ha, Hl in Hsp.
    apply insert_inv; auto.
  - destruct (remove_params key elt t) as [Ha Hl]. rewrite Ha, Hl in Hsp.
    apply remove_inv; auto.
  - destruct (remove_params key [] t) as [Ha Hl].
    unfold ht_divchn_delete in Hsp. rewrite Ha, Hl in Hsp.
    apply (remove_inv key [] t); auto.
Qed.


End HtDivchnFacts.

(** * The utility functions *)

(** ** Arithmetic *)

Lemma u64_small z : 0 <= z < 2 ^ 64 -> u64 z = z.
Proof. intros. unfold u64. apply Z.mod_small. lia. Qed.

Lemma land_1_even k : 0 <= k -> Z.land k 1 = k mod 2.
Proof. intros. change 1 with (Z.ones 1). rewrite Z.land_ones by lia. reflexivity. Qed.

Lemma RAND_MAX_eq : RAND_MAX = 2147483647.
Proof. reflexivity. Qed.

Lemma u32_RAND_MAX : u32 RAND_MAX = RAND_MAX.
Proof. reflexivity. Qed.

(** ** Draws *)

Lemma in_range_cons v s :
  in_range (v :: s) <-> (0 <= v <= RAND_MAX) /\ in_range s.
Proof. unfold in_range. rewrite Forall_cons. reflexivity. Qed.

Lemma redraw_spec bound : forall s v,
  0 <= v <= RAND_MAX -> in_range s ->
  redraw bound v s =
    match first_below (bound + 1) (v :: s) with
    | Some (v', s') => Ok (v', s')
    | None => OutOfFuel
    end.
Proof.
  pose proof RAND_MAX_eq as HR.
  induction s as [|w s IH]; intros v Hv Hs; cbn [redraw first_below].
  - destruct (Z.ltb_spec bound v), (Z.ltb_spec v (bound + 1)); try lia; reflexivity.
  - apply in_range_cons in Hs as [Hw Hs].
    destruct (Z.ltb_spec bound v), (Z.ltb_spec v (bound + 1)); try lia;
      [|reflexivity].
    rewrite (u32_small w) by lia. rewrite IH by auto.
    reflexivity.
Qed.

Lemma accept_all n :
  0 < n -> RAND_MAX mod n = n - 1 -> n * ((RAND_MAX + 1) / n) = RAND_MAX + 1.
Proof.
  intros Hn Hm. pose proof (Z.div_mod RAND_MAX n ltac:(lia)) as Hdm.
  rewrite Hm in Hdm.
  assert (Hq : (RAND_MAX + 1) / n = RAND_MAX / n + 1).
  { symmetry. apply (Z.div_unique _ _ _ 0); lia. }
  rewrite Hq. lia.
Qed.

Lemma accept_cut n :
  0 < n -> RAND_MAX mod n <> n - 1 ->
  n * ((RAND_MAX + 1) / n) = RAND_MAX - RAND_MAX mod n.
Proof.
  intros Hn Hm. pose proof (Z.div_mod RAND_MAX n ltac:(lia)) as Hdm.
  pose proof (Z.mod_pos_bound RAND_MAX n ltac:(lia)) as Hb.
  assert (Hq : (RAND_MAX + 1) / n = RAND_MAX / n).
  { symmetry. apply (Z.div_unique _ _ _ (RAND_MAX mod n + 1)); lia. }
  rewrite Hq. lia.
Qed.

Lemma first_below_all q v s :
  v < q -> first_below q (v :: s) = Some (v, s).
Proof. intros. cbn. destruct (Z.ltb_spec v q); [reflexivity|lia]. Qed.

Lemma first_below_range q : forall s v s',
  in_range s -> first_below q s = Some (v, s') -> 0 <= v < q /\ in_range s'.
Proof.
  induction s as [|w s IH]; intros v s' Hs Hf; [discriminate|].
  apply in_range_cons in Hs as [Hw Hs]. cbn in Hf.
  destruct (Z.ltb_spec w q).
  - injection Hf as <- <-. split; [lia|assumption].
  - eauto.
Qed.

Lemma draw_range n s r s' :
  0 < n -> in_range s -> draw n s = Ok (r, s') -> 0 <= r < n /\ in_range s'.
Proof.
  intros Hn Hs. unfold draw.
  destruct (first_below _ s) as [[v t]|] eqn:Hf; [|discriminate].
  intros [= <- <-]. apply first_below_range in Hf as [_ Ht]; [|assumption].
  split; [apply Z.mod_pos_bound; lia|assumption].
Qed.

Lemma gbind_random {B} (f : Z -> G B) v s : gbind random f (v :: s) = f v s.
Proof. reflexivity. Qed.

Lemma gbind_random_nil {B} (f : Z -> G B) : gbind random f [] = OutOfFuel.
Proof. reflexivity. Qed.

Lemma gbind_gret {A B} (a : A) (f : A -> G B) s : gbind (gret a) f s = f a s.
Proof. reflexivity. Qed.

(** ** Bit fields *)

Lemma land_shifted_ones x m j :
  0 <= m -> 0 <= j ->
  Z.land x (Z.shiftl (Z.ones m) j) =
    Z.shiftl (Z.land (Z.shiftr x j) (Z.ones m)) j.
Proof.
  intros Hm Hj. apply Z.bits_inj'. intros i Hi.
  rewrite Z.land_spec, !Z.shiftl_spec by lia.
  destruct (Z.ltb_spec i j) as [Hlt|Hge].
  - rewrite (Z.testbit_neg_r _ (i - j)) by lia.
    rewrite (Z.testbit_neg_r _ (i - j)) by lia. apply andb_false_r.
  - rewrite Z.land_spec, Z.shiftr_spec by lia.
    replace (i - j + j) with i by lia. reflexivity.
Qed.

Lemma lor_disjoint a b m :
  0 <= m -> 0 <= a < 2 ^ m -> Z.lor a (b * 2 ^ m) = a + b * 2 ^ m.
Proof.
  intros Hm Ha.
  assert (Hland : Z.land a (b * 2 ^ m) = 0).
  { apply Z.bits_inj'. intros i Hi. rewrite Z.land_spec, Z.bits_0.
    destruct (Z.ltb_spec i m) as [Hlt|Hge].
    - rewrite Z.mul_pow2_bits_low by lia. apply andb_false_r.
    - rewrite <- (Z.mod_small a (2 ^ m)) by lia.
      rewrite Z.mod_pow2_bits_high by lia. reflexivity. }
  rewrite <- Z.lxor_lor by assumption. symmetry.
  apply Z.add_nocarry_lxor. assumption.
Qed.

Lemma field_of_shift r c m j w :
  0 <= r < 2 ^ 31 -> 0 <= c <= j -> c + 31 <= 64 -> 0 <= m ->
  j - c + m >= 31 -> w = j - c ->
  Z.land (u64 (Z.shiftl r c)) (Z.shiftl (Z.ones m) j) = (r / 2 ^ w) * 2 ^ j.
Proof.
  intros Hr Hc Hc64 Hm Hw ->.
  assert (Hsh : 0 <= Z.shiftl r c < 2 ^ 64).
  { rewrite Z.shiftl_mul_pow2 by lia. split; [nia|].
    assert (2 ^ c * 2 ^ 31 <= 2 ^ 64).
    { rewrite <- Z.pow_add_r by lia. apply Z.pow_le_mono_r; lia. }
    assert (0 < 2 ^ c) by (apply Z.pow_pos_nonneg; lia). nia. }
  rewrite u64_small by lia.
  rewrite land_shifted_ones by lia.
  rewrite Z.shiftl_mul_pow2 by lia. f_equal.
  rewrite Z.land_ones by lia.
  assert (Heq : Z.shiftr (Z.shiftl r c) j = r / 2 ^ (j - c)).
  { rewrite <- (Z.shiftr_div_pow2 r (j - c)) by lia.
    replace j with (c + (j - c)) at 1 by lia.
    rewrite <- Z.shiftr_shiftr by lia.
    rewrite Z.shiftr_shiftl_l by lia. rewrite Z.sub_diag. reflexivity. }
  rewrite Heq. apply Z.mod_small.
  split; [apply Z.div_pos; [lia|apply Z.pow_pos_nonneg; lia]|].
  apply Z.div_lt_upper_bound; [apply Z.pow_pos_nonneg; lia|].
  rewrite <- Z.pow_add_r by lia.
  assert (2 ^ 31 <= 2 ^ (j - c + m)) by (apply Z.pow_le_mono_r; lia). lia.
Qed.

(** ** utilities-ds.c *)

Section UtilitiesDsFacts.

Import UtilitiesDs.

Lemma pow_mod_loop_spec fuel : forall k b n r,
  0 < n < 2 ^ 32 -> 0 <= k < 2 ^ Z.of_nat fuel ->
  0 <= b < n -> 0 <= r < 2 ^ 32 -> r < n \/ k <> 0 ->
  pow_mod_loop fuel k b n r = Ok ((r * b ^ k) mod n).
Proof.
  induction fuel as [|fuel IH]; intros k b n r Hn Hk Hb Hr Hrk.
  - change (2 ^ Z.of_nat 0) with 1 in Hk. assert (k = 0) as -> by lia.
    cbn. rewrite Z.mul_1_r, Z.mod_small by lia. reflexivity.
  - cbn [pow_mod_loop]. destruct (Z.eqb_spec k 0) as [->|Hk0].
    + rewrite Z.pow_0_r, Z.mul_1_r, Z.mod_small by lia. reflexivity.
    + assert (Hbb : 0 <= b * b < 2 ^ 64) by nia.
      assert (Hrb : 0 <= r * b < 2 ^ 64) by nia.
      rewrite (u64_small (b * b)), (u64_small (r * b)) by lia.
      rewrite Z.shiftr_div_pow2 by lia. change (2 ^ 1) with 2.
      rewrite land_1_even by lia.
      rewrite Nat2Z.inj_succ, Z.pow_succ_r in Hk by lia.
      pose proof (Z.div_mod k 2 ltac:(lia)) as Hdm.
      pose proof (Z.mod_pos_bound k 2 ltac:(lia)) as Hm2.
      assert (Hk2 : 0 <= k / 2) by (apply Z.div_pos; lia).
      rewrite IH; [|lia| | | |].
      * f_equal.
        assert (Hsq : (b * b mod n) ^ (k / 2) mod n = b ^ (2 * (k / 2)) mod n).
        { rewrite Z.pow_mul_r by lia.
          change (b ^ 2) with (b * (b * 1)). rewrite Z.mul_1_r.
          rewrite Z.mod_pow_l. reflexivity. }
        destruct (Z.eqb_spec (k mod 2) 0) as [Hev|Hod].
        -- rewrite <- Z.mul_mod_idemp_r, Hsq, Z.mul_mod_idemp_r by lia.
           f_equal. f_equal. f_equal. lia.
        -- rewrite <- Z.mul_mod_idemp_r, Hsq by lia.
           rewrite Z.mul_mod_idemp_r, Z.mul_mod_idemp_l by lia.
           f_equal.
           assert (Hpow : b ^ k = b * b ^ (2 * (k / 2))).
           { rewrite <- Z.pow_succ_r by lia. f_equal. lia. }
           rewrite Hpow. ring.
      * split; [lia|]. apply Z.div_lt_upper_bound; lia.
      * apply Z.mod_pos_bound. lia.
      * destruct (k mod 2 =? 0); [lia|].
        pose proof (Z.mod_pos_bound (r * b) n ltac:(lia)). lia.
      * destruct (Z.eqb_spec (k mod 2) 0) as [Hev|Hod].
        -- right. lia.
        -- left. apply Z.mod_pos_bound. lia.
Qed.

(** X11.  [pow_mod_uint32 a k n] returns [a ^ k mod n] for all 32-bit
    [a], [k] and [n > 0]: no 64-bit product wraps, the loop ends within
    32 rounds and the final assertion holds. *)
Theorem pow_mod_uint32_correct a k n :
  0 <= a < 2 ^ 32 -> 0 <= k < 2 ^ 32 -> 0 < n < 2 ^ 32 ->
  pow_mod_uint32 a k n = Ok (a ^ k mod n).
Proof.
  intros Ha Hk Hn. unfold pow_mod_uint32.
  destruct (Z.ltb_spec 0 n) as [_|?]; [|lia]. cbn [negb].
  destruct (Z.eqb_spec k 0) as [->|Hk0]; [reflexivity|].
  rewrite pow_mod_loop_spec; try lia.
  - rewrite Z.mul_1_l, Z.mod_pow_l.
    pose proof (Z.mod_pos_bound (a ^ k) n ltac:(lia)) as Hb.
    change (pow_two_uint64 32) with (Some 4294967296). cbv iota.
    destruct (Z.ltb_spec (a ^ k mod n) 4294967296) as [_|?]; [|lia].
    unfold u32, UINT32_MOD. rewrite (Z.mod_small (a ^ k mod n)) by lia.
    reflexivity.
  - apply Z.mod_pos_bound. lia.
Qed.

Lemma represent_loop_spec (m : nat) : forall fuel c u j,
  Z.odd u = true -> 0 <= j <= 64 -> Z.of_nat m = 64 - j -> (m <= fuel)%nat ->
  represent_loop fuel c (u64 (u * 2 ^ j)) = Ok (c + (64 - j)).
Proof.
  induction m as [|m IH]; intros fuel c u j Hu Hj Hm Hf.
  - assert (j = 64) as -> by lia.
    assert (Hz : u64 (u * 2 ^ 64) = 0) by (unfold u64; apply Z.mod_mul; lia).
    rewrite Hz. destruct fuel; cbn; f_equal; lia.
  - destruct fuel as [|fuel]; [lia|]. cbn [represent_loop].
    assert (Hnz : u64 (u * 2 ^ j) <> 0).
    { unfold u64. intros H0. apply Z.mod_divide in H0; [|lia].
      destruct H0 as [q Hq].
      replace (2 ^ 64) with (2 ^ (64 - j) * 2 ^ j) in Hq
        by (rewrite <- Z.pow_add_r by lia; f_equal; lia).
      assert (Hu2 : u = q * 2 ^ (64 - j)) by nia.
      replace (64 - j) with (Z.succ (63 - j)) in Hu2 by lia.
      rewrite Z.pow_succ_r in Hu2 by lia.
      rewrite Hu2 in Hu. replace (q * (2 * 2 ^ (63 - j))) with (2 * (q * 2 ^ (63 - j))) in Hu by ring.
      rewrite Z.odd_mul in Hu. discriminate. }
    destruct (Z.eqb_spec (u64 (u * 2 ^ j)) 0) as [?|_]; [contradiction|].
    assert (Hsh : u64 (Z.shiftl (u64 (u * 2 ^ j)) 1) = u64 (u * 2 ^ (j + 1))).
    { rewrite Z.shiftl_mul_pow2 by lia. unfold u64.
      rewrite Z.mul_mod_idemp_l by lia. f_equal.
      rewrite Z.pow_add_r by lia. ring. }
    rewrite Hsh, (IH fuel (c + 1) u (j + 1)); [f_equal|..]; try lia. exact Hu.
Qed.

Lemma represent_ds_odd_pow_two u j :
  Z.odd u = true -> 0 <= j -> 0 < u * 2 ^ j < 2 ^ 64 ->
  represent_uint64 (u * 2 ^ j) = Ok (j, u).
Proof.
  intros Hu Hj Hn.
  assert (Hup : 0 < u) by nia.
  assert (Hj63 : j <= 63).
  { destruct (Z_le_gt_dec j 63) as [|Hgt]; [assumption|].
    assert (2 ^ 64 <= 2 ^ j) by (apply Z.pow_le_mono_r; lia). nia. }
  unfold represent_uint64.
  rewrite <- (u64_small (u * 2 ^ j)) at 1 by lia.
  rewrite (represent_loop_spec (Z.to_nat (64 - j)) 64 0 u j); try lia; [|exact Hu].
  replace (64 - (0 + (64 - j))) with j by lia.
  destruct (Z.ltb_spec j 64); [|lia].
  rewrite Z.shiftr_div_pow2, Z.div_mul by lia. reflexivity.
Qed.

Lemma helper_draw n s :
  0 < n <= RAND_MAX + 1 -> in_range s ->
  random_range_helper n s = draw n s.
Proof.
  intros Hn Hs. pose proof RAND_MAX_eq as HR.
  unfold random_range_helper, draw.
  destruct (Z.eqb_spec n 0) as [?|_]; [lia|].
  rewrite u32_RAND_MAX.
  pose proof (Z.mod_pos_bound RAND_MAX n ltac:(lia)) as Hb.
  rewrite (u32_small (n - 1)) by lia.
  destruct (Z.eqb_spec (RAND_MAX mod n) (n - 1)) as [Hm|Hm].
  - rewrite accept_all by lia.
    destruct s as [|v s]; [reflexivity|].
    apply in_range_cons in Hs as [Hv Hs].
    rewrite first_below_all by lia. unfold gbind, random, gret.
    pose proof (Z.mod_pos_bound v n ltac:(lia)).
    rewrite u32_small by lia. reflexivity.
  - rewrite accept_cut by lia.
    destruct s as [|v s]; [reflexivity|].
    pose proof Hs as Hs'. apply in_range_cons in Hs' as [Hv Hs'].
    unfold gbind, random, gret.
    rewrite (u32_small (RAND_MAX mod n + 1)) by lia.
    rewrite (u32_small (RAND_MAX - _)) by lia.
    rewrite (u32_small v) by lia.
    rewrite redraw_spec by auto.
    replace (RAND_MAX - (RAND_MAX mod n + 1) + 1) with (RAND_MAX - RAND_MAX mod n) by lia.
    destruct (first_below _ _) as [[v' s']|]; reflexivity.
Qed.

(** X13.  [random_range_helper n], for [0 < n <= RAND_MAX + 1], skips
    the generator values at or above the largest multiple of [n] that is
    at most [RAND_MAX + 1] and returns the first other value modulo [n]:
    every residue in [0, n) has the same number of accepted generator
    values. *)
Theorem random_range_helper_unbiased n s :
  0 < n <= RAND_MAX + 1 -> in_range s ->
  random_range_helper n s = draw n s /\
  (forall r s', random_range_helper n s = Ok (r, s') -> 0 <= r < n).
Proof.
  intros Hn Hs. rewrite helper_draw by assumption. split; [reflexivity|].
  intros r s' Hd. apply draw_range in Hd; [tauto|lia|assumption].
Qed.

(** X14.  [random_range_uint32 n] of utilities-ds.c, for
    [0 < n < 2^32], is one unbiased draw when [n <= RAND_MAX + 1] and the
    sum of a draw from [0, RAND_MAX + 1) and a draw from
    [0, n - RAND_MAX) otherwise; the sum does not wrap and every value
    returned lies in [0, n). *)
Theorem random_range_uint32_in_range n s :
  0 < n < 2 ^ 32 -> in_range s ->
  (n <= RAND_MAX + 1 -> random_range_uint32 n s = draw n s) /\
  (RAND_MAX + 1 < n ->
   random_range_uint32 n s =
     (let+ a := draw (RAND_MAX + 1) in
      let+ b := draw (n - RAND_MAX) in
      gret (a + b)) s) /\
  (forall r s', random_range_uint32 n s = Ok (r, s') -> 0 <= r < n).
Proof.
  intros Hn Hs. pose proof RAND_MAX_eq as HR.
  assert (H1 : n <= RAND_MAX + 1 -> random_range_uint32 n s = draw n s).
  { intros Hle. unfold random_range_uint32.
    change (RAND_MAX =? 2147483647) with true. cbn [negb].
    destruct (Z.ltb_spec 0 n); [|lia]. cbn [negb].
    rewrite u32_RAND_MAX, (u32_small (n - 1)) by lia.
    destruct (Z.leb_spec (n - 1) RAND_MAX); [|lia].
    apply helper_draw; [lia|assumption]. }
  assert (H2 : RAND_MAX + 1 < n ->
    random_range_uint32 n s =
      (let+ a := draw (RAND_MAX + 1) in
       let+ b := draw (n - RAND_MAX) in
       gret (a + b)) s).
  { intros Hgt. unfold random_range_uint32.
    change (RAND_MAX =? 2147483647) with true. cbn [negb].
    destruct (Z.ltb_spec 0 n); [|lia]. cbn [negb].
    rewrite u32_RAND_MAX, (u32_small (n - 1)) by lia.
    destruct (Z.leb_spec (n - 1) RAND_MAX); [lia|].
    rewrite (u32_small (RAND_MAX + 1)), (u32_small (n - RAND_MAX)) by lia.
    unfold gbind.
    rewrite helper_draw by (auto; lia).
    destruct (draw (RAND_MAX + 1) s) as [[a s1]| | |] eqn:Ha; try reflexivity.
    apply draw_range in Ha as [Ha Hs1]; [|lia|assumption].
    rewrite helper_draw by (auto; lia).
    destruct (draw (n - RAND_MAX) s1) as [[b s2]| | |] eqn:Hb; try reflexivity.
    apply draw_range in Hb as [Hb Hs2]; [|lia|assumption].
    unfold gret. rewrite u32_small by lia. reflexivity. }
  split; [exact H1|]. split; [exact H2|].
  intros r s' Hrun.
  destruct (Z_le_gt_dec n (RAND_MAX + 1)) as [Hle|Hgt].
  - rewrite H1 in Hrun by assumption.
    apply draw_range in Hrun as [Hr _]; [assumption|lia|assumption].
  - rewrite H2 in Hrun by lia. unfold gbind in Hrun.
    destruct (draw (RAND_MAX + 1) s) as [[a s1]| | |] eqn:Ha; try discriminate.
    apply draw_range in Ha as [Ha Hs1]; [|lia|assumption].
    destruct (draw (n - RAND_MAX) s1) as [[b s2]| | |] eqn:Hb; try discriminate.
    apply draw_range in Hb as [Hb Hs2]; [|lia|assumption].
    injection Hrun as <- <-. lia.
Qed.

End UtilitiesDsFacts.

(** ** utilities-rand-uint32.c and utilities-rand-uint64.c *)

Lemma gen_range32_draw n s :
  0 < n <= RAND_MAX + 1 -> in_range s ->
  RandUint32.random_gen_range n s = draw n s.
Proof.
  intros Hn Hs. pose proof RAND_MAX_eq as HR.
  unfold RandUint32.random_gen_range, draw.
  rewrite u32_RAND_MAX. change (RAND_MAX =? 2147483647) with true. cbn [negb].
  destruct (Z.eqb_spec n 0) as [?|_]; [lia|].
  pose proof (Z.mod_pos_bound RAND_MAX n ltac:(lia)) as Hb.
  rewrite (u32_small (n - 1)) by lia.
  destruct (Z.eqb_spec (RAND_MAX mod n) (n - 1)) as [Hm|Hm].
  - rewrite accept_all by lia.
    destruct s as [|v s]; [reflexivity|].
    apply in_range_cons in Hs as [Hv Hs].
    rewrite first_below_all by lia. unfold gbind, random, gret.
    rewrite u32_small by lia.
    destruct (Z.ltb_spec (n - 1) v); [reflexivity|].
    rewrite Z.mod_small by lia. reflexivity.
  - rewrite accept_cut by lia.
    destruct s as [|v s]; [reflexivity|].
    pose proof Hs as Hs'. apply in_range_cons in Hs' as [Hv Hs'].
    unfold gbind, random, gret.
    rewrite (u32_small (RAND_MAX - _)) by lia.
    rewrite (u32_small (RAND_MAX - _ - 1)) by lia.
    rewrite (u32_small v) by lia.
    rewrite redraw_spec by auto.
    replace (RAND_MAX - RAND_MAX mod n - 1 + 1) with (RAND_MAX - RAND_MAX mod n) by lia.
    destruct (first_below _ _) as [[v' s']|] eqn:Hf; [|reflexivity].
    apply first_below_range in Hf as [Hv' _]; [|assumption].
    destruct (Z.ltb_spec (n - 1) v'); [reflexivity|].
    rewrite Z.mod_small by lia. reflexivity.
Qed.

Lemma gen_range64_draw n s :
  0 < n <= RAND_MAX + 1 -> in_range s ->
  RandUint64.random_gen_range n s = draw n s.
Proof.
  intros Hn Hs. pose proof RAND_MAX_eq as HR.
  unfold RandUint64.random_gen_range, draw, RandUint64.RAND_MAX_UINT64.
  rewrite u32_RAND_MAX.
  destruct (Z.eqb_spec n 0) as [?|_]; [lia|].
  pose proof (Z.mod_pos_bound RAND_MAX n ltac:(lia)) as Hb.
  rewrite (u32_small (n - 1)) by lia.
  destruct s as [|v s]; [reflexivity|].
  pose proof Hs as Hs'. apply in_range_cons in Hs' as [Hv Hs'].
  unfold gbind at 1. unfold random at 1.
  rewrite (u32_small v) by lia.
  destruct (Z.ltb_spec (RAND_MAX mod n) (n - 1)) as [Hm|Hm].
  - rewrite accept_cut by lia. unfold gbind, gret.
    rewrite (u32_small (RAND_MAX - _)) by lia.
    rewrite (u32_small (RAND_MAX - _ - 1)) by lia.
    rewrite redraw_spec by auto.
    replace (RAND_MAX - RAND_MAX mod n - 1 + 1) with (RAND_MAX - RAND_MAX mod n) by lia.
    destruct (first_below _ _) as [[v' s']|] eqn:Hf; [|reflexivity].
    apply first_below_range in Hf as [Hv' _]; [|assumption].
    destruct (Z.ltb_spec (n - 1) v'); [reflexivity|].
    rewrite Z.mod_small by lia. reflexivity.
  - rewrite accept_all by lia.
    rewrite first_below_all by lia. unfold gbind, gret.
    destruct (Z.ltb_spec (n - 1) v); [reflexivity|].
    rewrite Z.mod_small by lia. reflexivity.
Qed.

(** X15.  [random_gen_range] of utilities-rand-uint32.c and of
    utilities-rand-uint64.c compute, for [0 < n <= RAND_MAX + 1], the
    same unbiased draw as [random_range_helper] of utilities-ds.c, and
    every value returned lies in [0, n). *)
Theorem random_gen_range_unbiased n s :
  0 < n <= RAND_MAX + 1 -> in_range s ->
  RandUint32.random_gen_range n s = draw n s /\
  RandUint64.random_gen_range n s = draw n s /\
  (forall r s', draw n s = Ok (r, s') -> 0 <= r < n).
Proof.
  intros Hn Hs. split; [apply gen_range32_draw; assumption|].
  split; [apply gen_range64_draw; assumption|].
  intros r s' Hd. apply draw_range in Hd; [tauto|lia|assumption].
Qed.

Section RandUint64Facts.

Import RandUint64.

Lemma MID_MASK_eq : MID_MASK = Z.shiftl (Z.ones 31) 31.
Proof. reflexivity. Qed.

Lemma HIGH_MASK_eq : HIGH_MASK = Z.shiftl (Z.ones 2) 62.
Proof. reflexivity. Qed.

Lemma shl64_defined x c : c < 64 -> shl64 x c = gret (u64 (Z.shiftl x c)).
Proof. intros. unfold shl64. destruct (Z.ltb_spec c 64); [reflexivity|lia]. Qed.

Lemma random_mod_pow_two_bits k s :
  0 <= k <= 64 -> in_range s ->
  random_mod_pow_two k s = bits_of_draws k s.
Proof.
  intros Hk Hs. pose proof RAND_MAX_eq as HR.
  unfold random_mod_pow_two, bits_of_draws, HALF_BIT_COUNT, FULL_BIT_COUNT.
  change (64 - 1) with 63. change (32 - 1) with 31.
  destruct s as [|v1 s].
  { cbn. destruct (k <? 32), (k <? 63); reflexivity. }
  apply in_range_cons in Hs as [Hv1 Hs].
  rewrite gbind_random.
  rewrite (u64_small v1) by lia.
  destruct (Z.ltb_spec k 32) as [Hk32|Hk32].
  - rewrite (u64_small (32 - k)), (u64_small (32 - k - 1)) by lia.
    unfold shr64. destruct (Z.ltb_spec (32 - k - 1) 64); [|lia].
    unfold gret. rewrite Z.shiftr_div_pow2 by lia.
    replace (32 - k - 1) with (31 - k) by lia. reflexivity.
  - rewrite (u64_small (k - 31)) by lia.
    destruct (Z.ltb_spec k 63) as [Hk63|Hk63].
    + destruct s as [|v2 s]; [reflexivity|].
      apply in_range_cons in Hs as [Hv2 Hs].
      rewrite gbind_random, shl64_defined, gbind_gret by lia.
      rewrite (u64_small v2) by lia.
      rewrite MID_MASK_eq.
      rewrite (field_of_shift v2 (k - 31) 31 31 (62 - k)) by lia.
      rewrite lor_disjoint by lia. reflexivity.
    + destruct s as [|v2 s]; [reflexivity|].
      apply in_range_cons in Hs as [Hv2 Hs].
      rewrite gbind_random, shl64_defined, gbind_gret by lia.
      destruct s as [|v3 s]; [reflexivity|].
      apply in_range_cons in Hs as [Hv3 Hs].
      rewrite gbind_random, shl64_defined, gbind_gret by lia.
      rewrite (u64_small v2), (u64_small v3) by lia.
      rewrite HIGH_MASK_eq.
      rewrite (field_of_shift v3 (k - 31) 2 62 (93 - k)) by lia.
      rewrite Z.shiftl_mul_pow2 by lia.
      rewrite (u64_small (v2 * 2 ^ 31)) by lia.
      rewrite (lor_disjoint v1 v2 31) by lia.
      rewrite lor_disjoint by lia. reflexivity.
Qed.

Lemma bits_of_draws_range k s r s' :
  0 <= k <= 64 -> in_range s ->
  bits_of_draws k s = Ok (r, s') ->
  0 <= r < 2 ^ k /\ in_range s' /\ (length s' < length s)%nat.
Proof.
  intros Hk Hs. pose proof RAND_MAX_eq as HR. unfold bits_of_draws.
  destruct (Z.ltb_spec k 32) as [Hk32|Hk32].
  - destruct s as [|v1 s]; [discriminate|].
    apply in_range_cons in Hs as [Hv1 Hs]. intros [= <- <-].
    split; [|split; [assumption|cbn; lia]].
    assert (0 < 2 ^ (31 - k)) by (apply Z.pow_pos_nonneg; lia).
    split; [apply Z.div_pos; lia|].
    apply Z.div_lt_upper_bound; [lia|]. rewrite <- Z.pow_add_r by lia.
    replace (31 - k + k) with 31 by lia. lia.
  - destruct (Z.ltb_spec k 63) as [Hk63|Hk63].
    + destruct s as [|v1 [|v2 s]]; try discriminate.
      apply in_range_cons in Hs as [Hv1 Hs].
      apply in_range_cons in Hs as [Hv2 Hs]. intros [= <- <-].
      split; [|split; [assumption|cbn; lia]].
      assert (Hp : 0 < 2 ^ (62 - k)) by (apply Z.pow_pos_nonneg; lia).
      assert (Hq : 0 <= v2 / 2 ^ (62 - k) < 2 ^ (k - 31)).
      { split; [apply Z.div_pos; lia|].
        apply Z.div_lt_upper_bound; [lia|]. rewrite <- Z.pow_add_r by lia.
        replace (62 - k + (k - 31)) with 31 by lia. lia. }
      replace (2 ^ k) with (2 ^ (k - 31) * 2 ^ 31)
        by (rewrite <- Z.pow_add_r by lia; f_equal; lia).
      nia.
    + destruct s as [|v1 [|v2 [|v3 s]]]; try discriminate.
      apply in_range_cons in Hs as [Hv1 Hs].
      apply in_range_cons in Hs as [Hv2 Hs].
      apply in_range_cons in Hs as [Hv3 Hs]. intros [= <- <-].
      split; [|split; [assumption|cbn; lia]].
      assert (Hp : 0 < 2 ^ (93 - k)) by (apply Z.pow_pos_nonneg; lia).
      assert (Hq : 0 <= v3 / 2 ^ (93 - k) < 2 ^ (k - 62)).
      { split; [apply Z.div_pos; lia|].
        apply Z.div_lt_upper_bound; [lia|]. rewrite <- Z.pow_add_r by lia.
        replace (93 - k + (k - 62)) with 31 by lia. lia. }
      replace (2 ^ k) with (2 ^ (k - 62) * 2 ^ 62)
        by (rewrite <- Z.pow_add_r by lia; f_equal; lia).
      nia.
Qed.

Lemma bits_of_draws_no_abort k s :
  bits_of_draws k s <> Fatal /\ bits_of_draws k s <> Undef.
Proof.
  unfold bits_of_draws.
  destruct (k <? 32), (k <? 63), s as [|? [|? [|? ?]]]; split; discriminate.
Qed.

Lemma bits_of_draws_onto k x :
  0 <= k <= 64 -> 0 <= x < 2 ^ k ->
  exists s, in_range s /\ bits_of_draws k s = Ok (x, []).
Proof.
  intros Hk Hx. pose proof RAND_MAX_eq as HR. unfold bits_of_draws.
  destruct (Z.ltb_spec k 32) as [Hk32|Hk32].
  - assert (Hp : 0 < 2 ^ (31 - k)) by (apply Z.pow_pos_nonneg; lia).
    assert (Hpp : 2 ^ k * 2 ^ (31 - k) = 2 ^ 31)
      by (rewrite <- Z.pow_add_r by lia; f_equal; lia).
    exists [x * 2 ^ (31 - k)]. split.
    + apply in_range_cons. split; [nia|apply Forall_nil_2].
    + rewrite Z.div_mul by lia. reflexivity.
  - pose proof (Z.div_mod x (2 ^ 31) ltac:(lia)) as Hdm.
    pose proof (Z.mod_pos_bound x (2 ^ 31) ltac:(lia)) as Hm.
    assert (Hq0 : 0 <= x / 2 ^ 31) by (apply Z.div_pos; lia).
    destruct (Z.ltb_spec k 63) as [Hk63|Hk63].
    + assert (Hp : 0 < 2 ^ (62 - k)) by (apply Z.pow_pos_nonneg; lia).
      assert (Hpp : 2 ^ (k - 31) * 2 ^ (62 - k) = 2 ^ 31)
        by (rewrite <- Z.pow_add_r by lia; f_equal; lia).
      assert (Hq : x / 2 ^ 31 < 2 ^ (k - 31)).
      { apply Z.div_lt_upper_bound; [lia|].
        rewrite <- Z.pow_add_r by lia. replace (31 + (k - 31)) with k by lia.
        lia. }
      exists [x mod 2 ^ 31; x / 2 ^ 31 * 2 ^ (62 - k)]. split.
      * apply in_range_cons. split; [lia|].
        apply in_range_cons. split; [nia|apply Forall_nil_2].
      * rewrite Z.div_mul by lia. f_equal. f_equal. lia.
    + pose proof (Z.div_mod (x / 2 ^ 31) (2 ^ 31) ltac:(lia)) as Hdm2.
      pose proof (Z.mod_pos_bound (x / 2 ^ 31) (2 ^ 31) ltac:(lia)) as Hm2.
      rewrite Z.div_div in Hdm2 by lia. change (2 ^ 31 * 2 ^ 31) with (2 ^ 62) in Hdm2.
      assert (Hq0' : 0 <= x / 2 ^ 62) by (apply Z.div_pos; lia).
      assert (Hp : 0 < 2 ^ (93 - k)) by (apply Z.pow_pos_nonneg; lia).
      assert (Hpp : 2 ^ (k - 62) * 2 ^ (93 - k) = 2 ^ 31)
        by (rewrite <- Z.pow_add_r by lia; f_equal; lia).
      assert (Hq : x / 2 ^ 62 < 2 ^ (k - 62)).
      { apply Z.div_lt_upper_bound; [lia|].
        rewrite <- Z.pow_add_r by lia. replace (62 + (k - 62)) with k by lia.
        lia. }
      exists [x mod 2 ^ 31; (x / 2 ^ 31) mod 2 ^ 31;
              x / 2 ^ 62 * 2 ^ (93 - k)]. split.
      * apply in_range_cons. split; [lia|].
        apply in_range_cons. split; [lia|].
        apply in_range_cons. split; [nia|apply Forall_nil_2].
      * rewrite Z.div_mul by lia. f_equal. f_equal. lia.
Qed.

(** X16.  [random_mod_pow_two k], for [0 <= k <= 64], assembles its result
    from disjoint bit fields of one, two or three generator values; the
    result lies in [0, 2^k), and every value of [0, 2^k) is the result
    for some generator values. *)
Theorem random_mod_pow_two_fields k :
  0 <= k <= 64 ->
  (forall s, in_range s ->
     random_mod_pow_two k s = bits_of_draws k s /\
     (forall r s', random_mod_pow_two k s = Ok (r, s') -> 0 <= r < 2 ^ k)) /\
  (forall x, 0 <= x < 2 ^ k ->
     exists s, in_range s /\ random_mod_pow_two k s = Ok (x, [])).
Proof.
  intros Hk. split.
  - intros s Hs. rewrite random_mod_pow_two_bits by assumption.
    split; [reflexivity|]. intros r s' Hb.
    apply bits_of_draws_range in Hb; [tauto|assumption|assumption].
  - intros x Hx. destruct (bits_of_draws_onto k x Hk Hx) as (s & Hs & Hb).
    exists s. split; [assumption|].
    rewrite random_mod_pow_two_bits by assumption. exact Hb.
Qed.

(** X25.  [random_uint64] joins 31 bits of a first generator value, 31
    bits of a second and the top 2 bits of a third into disjoint fields
    of a 64-bit value, and every 64-bit value is its result for some
    generator values. *)
Theorem random_uint64_onto :
  (forall s, in_range s -> random_uint64 s = bits_of_draws 64 s) /\
  (forall x, 0 <= x < 2 ^ 64 ->
     exists s, in_range s /\ random_uint64 s = Ok (x, [])).
Proof.
  assert (Hrun : forall s, in_range s ->
            random_uint64 s = bits_of_draws 64 s).
  { intros s Hs. unfold random_uint64.
    change (RAND_MAX_UINT64 =? RAND_MAX_UINT64_TEST) with true. cbn [negb].
    apply random_mod_pow_two_bits; [unfold FULL_BIT_COUNT; lia|assumption]. }
  split; [exact Hrun|].
  intros x Hx.
  destruct (bits_of_draws_onto 64 x ltac:(lia) Hx) as (s & Hs & Hb).
  exists s. split; [assumption|]. rewrite Hrun by assumption. exact Hb.
Qed.

Lemma count_bits_spec fuel : forall m k,
  0 <= m < 2 ^ Z.of_nat fuel -> 0 <= k -> k + Z.of_nat fuel < 2 ^ 64 ->
  count_bits fuel m k = Ok (k + (if m =? 0 then 0 else Z.log2 m + 1)).
Proof.
  induction fuel as [|fuel IH]; intros m k Hm Hk Hkf.
  - change (2 ^ Z.of_nat 0) with 1 in Hm. assert (m = 0) as -> by lia.
    cbn. f_equal. lia.
  - cbn [count_bits]. destruct (Z.eqb_spec m 0) as [->|Hm0].
    + f_equal. lia.
    + rewrite Nat2Z.inj_succ, Z.pow_succ_r in Hm by lia.
      rewrite u64_small by lia.
      rewrite Z.shiftr_div_pow2 by lia. change (2 ^ 1) with 2.
      rewrite IH; [|split; [apply Z.div_pos; lia|apply Z.div_lt_upper_bound; lia]|lia|lia].
      f_equal.
      destruct (Z.eqb_spec (m / 2) 0) as [Hz|Hnz].
      * assert (m = 1) as -> by (pose proof (Z.div_mod m 2 ltac:(lia));
          pose proof (Z.mod_pos_bound m 2 ltac:(lia)); lia).
        change (Z.log2 1) with 0. lia.
      * assert (Hm2 : 2 <= m).
        { destruct (Z_lt_le_dec m 2) as [Hlt|]; [|assumption].
          rewrite Z.div_small in Hnz by lia. contradiction. }
        change (m / 2) with (m / 2 ^ 1).
        rewrite <- (Z.shiftr_div_pow2 m 1), Z.log2_shiftr by lia.
        pose proof (Z.log2_le_mono 2 m ltac:(lia)) as Hl.
        change (Z.log2 2) with 1 in Hl. lia.
Qed.

Lemma count_bits_log2 n :
  RAND_MAX + 1 < n < 2 ^ 64 ->
  count_bits 64 (Z.shiftr (u64 (n - 1)) HALF_BIT_COUNT) HALF_BIT_COUNT
    = Ok (Z.log2 (n - 1) + 1).
Proof.
  intros Hn. pose proof RAND_MAX_eq as HR. unfold HALF_BIT_COUNT.
  rewrite u64_small by lia.
  assert (Hsh : 0 <= Z.shiftr (n - 1) 32 < 2 ^ 32).
  { rewrite Z.shiftr_div_pow2 by lia.
    split; [apply Z.div_pos; lia|apply Z.div_lt_upper_bound; lia]. }
  rewrite count_bits_spec; [|change (2 ^ Z.of_nat 64) with (2 ^ 64); lia|lia|
                             change (Z.of_nat 64) with 64; lia].
  f_equal.
  destruct (Z.eqb_spec (Z.shiftr (n - 1) 32) 0) as [Hz|Hnz].
  - rewrite Z.shiftr_div_pow2 in Hz by lia.
    assert (n - 1 < 2 ^ 32).
    { pose proof (Z.div_mod (n - 1) (2 ^ 32) ltac:(lia)).
      pose proof (Z.mod_pos_bound (n - 1) (2 ^ 32) ltac:(lia)). lia. }
    rewrite (Z.log2_unique (n - 1) 31); lia.
  - rewrite Z.log2_shiftr by lia.
    assert (2 ^ 32 <= n - 1).
    { destruct (Z_lt_le_dec (n - 1) (2 ^ 32)) as [Hlt|]; [|assumption].
      rewrite Z.shiftr_div_pow2, Z.div_small in Hnz by lia. contradiction. }
    pose proof (Z.log2_le_mono (2 ^ 32) (n - 1) ltac:(lia)) as Hl.
    rewrite Z.log2_pow2 in Hl by lia. lia.
Qed.

Lemma retry_accept fuel n k r s :
  0 < n < 2 ^ 64 -> r < n -> retry fuel n k r s = Ok (r, s).
Proof.
  intros Hn Hr. destruct fuel; cbn [retry]; rewrite u64_small by lia;
    (destruct (Z.ltb_spec (n - 1) r); [lia|reflexivity]).
Qed.

Lemma retry_safe n k fuel : forall r s,
  0 < n < 2 ^ 64 -> 0 <= k <= 64 -> 0 <= r -> in_range s ->
  match retry fuel n k r s with
  | Ok (r', s') => 0 <= r' < n /\ in_range s'
  | OutOfFuel => True
  | _ => False
  end.
Proof.
  induction fuel as [|fuel IH]; intros r s Hn Hk Hr Hs; cbn [retry];
    rewrite u64_small by lia;
    (destruct (Z.ltb_spec (n - 1) r); [|cbn; split; [lia|assumption]]).
  - exact I.
  - unfold gbind. rewrite random_mod_pow_two_bits by assumption.
    destruct (bits_of_draws k s) as [[r1 s1]| | |] eqn:Hb.
    + apply bits_of_draws_range in Hb as (Hr1 & Hs1 & _); try assumption.
      apply IH; auto. lia.
    + destruct (bits_of_draws_no_abort k s) as [Hf _]. contradiction.
    + destruct (bits_of_draws_no_abort k s) as [_ Hu]. contradiction.
    + exact I.
Qed.

Lemma u64_RAND_MAX_succ : u64 (RAND_MAX_UINT64 + 1) = RAND_MAX + 1.
Proof. reflexivity. Qed.

Lemma random_range_uint64_small n s :
  0 < n <= RAND_MAX + 1 -> in_range s ->
  random_range_uint64 n s = draw n s.
Proof.
  intros Hn Hs. pose proof RAND_MAX_eq as HR. unfold random_range_uint64.
  change (RAND_MAX_UINT64 =? RAND_MAX_UINT64_TEST) with true. cbn [negb].
  rewrite u64_RAND_MAX_succ.
  destruct (Z.leb_spec n (RAND_MAX + 1)); [|lia].
  rewrite u32_small by lia. apply gen_range64_draw; assumption.
Qed.

Lemma random_range_uint64_large n s :
  RAND_MAX + 1 < n < 2 ^ 64 ->
  random_range_uint64 n s =
    (let+ ret := random_mod_pow_two (Z.log2 (n - 1) + 1) in
     fun s' => retry (length s') n (Z.log2 (n - 1) + 1) ret s') s.
Proof.
  intros Hn. unfold random_range_uint64.
  change (RAND_MAX_UINT64 =? RAND_MAX_UINT64_TEST) with true. cbn [negb].
  rewrite u64_RAND_MAX_succ.
  destruct (Z.leb_spec n (RAND_MAX + 1)); [lia|].
  rewrite count_bits_log2 by assumption. reflexivity.
Qed.

Lemma log2_pred_range n :
  RAND_MAX + 1 < n < 2 ^ 64 -> 32 <= Z.log2 (n - 1) + 1 <= 64.
Proof.
  intros Hn. pose proof RAND_MAX_eq as HR.
  pose proof (Z.log2_le_mono (2 ^ 31) (n - 1) ltac:(lia)) as Hl.
  rewrite Z.log2_pow2 in Hl by lia.
  pose proof (Z.log2_lt_pow2 (n - 1) 64 ltac:(lia)) as [Hu _].
  specialize (Hu ltac:(lia)). lia.
Qed.

Lemma random_range_uint64_safe n s :
  0 < n < 2 ^ 64 -> in_range s ->
  match random_range_uint64 n s with
  | Ok (r, s') => 0 <= r < n /\ in_range s'
  | OutOfFuel => True
  | _ => False
  end.
Proof.
  intros Hn Hs. pose proof RAND_MAX_eq as HR.
  destruct (Z_le_gt_dec n (RAND_MAX + 1)) as [Hle|Hgt].
  - rewrite random_range_uint64_small by (auto; lia).
    destruct (draw n s) as [[r s']| | |] eqn:Hd.
    + apply draw_range in Hd; [assumption|lia|assumption].
    + unfold draw in Hd. destruct (first_below _ _) as [[? ?]|]; discriminate.
    + unfold draw in Hd. destruct (first_below _ _) as [[? ?]|]; discriminate.
    + exact I.
  - rewrite random_range_uint64_large by lia.
    pose proof (log2_pred_range n ltac:(lia)) as Hk.
    unfold gbind. rewrite random_mod_pow_two_bits by (auto; lia).
    destruct (bits_of_draws _ s) as [[r1 s1]| | |] eqn:Hb.
    + apply bits_of_draws_range in Hb as (Hr1 & Hs1 & _); [|lia|assumption].
      apply retry_safe; auto; lia.
    + destruct (bits_of_draws_no_abort (Z.log2 (n - 1) + 1) s) as [Hf _].
      contradiction.
    + destruct (bits_of_draws_no_abort (Z.log2 (n - 1) + 1) s) as [_ Hu].
      contradiction.
    + exact I.
Qed.

(** X17.  [random_range_uint64 n], for [0 < n < 2^64], never aborts and
    every value it returns lies in [0, n).  For [n <= RAND_MAX + 1] it is
    one unbiased draw; for larger [n] the candidates have
    [log2 (n - 1) + 1] bits, so more than half of them are below [n], and
    a first candidate below [n] is returned at once. *)
Theorem random_range_uint64_in_range n s :
  0 < n < 2 ^ 64 -> in_range s ->
  (n <= RAND_MAX + 1 -> random_range_uint64 n s = draw n s) /\
  (RAND_MAX + 1 < n ->
   forall r s',
     bits_of_draws (Z.log2 (n - 1) + 1) s = Ok (r, s') -> r < n ->
     random_range_uint64 n s = Ok (r, s')) /\
  match random_range_uint64 n s with
  | Ok (r, s') => 0 <= r < n
  | OutOfFuel => True
  | _ => False
  end.
Proof.
  intros Hn Hs. split; [|split].
  - intros Hle. apply random_range_uint64_small; auto. lia.
  - intros Hgt r s' Hb Hr.
    rewrite random_range_uint64_large by lia.
    pose proof (log2_pred_range n ltac:(lia)) as Hk.
    unfold gbind. rewrite random_mod_pow_two_bits by (auto; lia).
    rewrite Hb. apply retry_accept; lia.
  - pose proof (random_range_uint64_safe n s Hn Hs) as Hsafe.
    destruct (random_range_uint64 n s) as [[r s']| | |]; tauto.
Qed.

End RandUint64Facts.

(** ** Fermat's little theorem *)

Lemma zprod_cons x l : zprod (x :: l) = x * zprod l.
Proof. reflexivity. Qed.

Lemma zprod_perm l l' : l ≡ₚ l' -> zprod l = zprod l'.
Proof.
  induction 1 as [|x l l' _ IH|x y l|l l' l'' _ IH1 _ IH2];
    rewrite ?zprod_cons.
  - reflexivity.
  - rewrite IH. reflexivity.
  - ring.
  - congruence.
Qed.

Lemma in_units p x : In x (units p) <-> 1 <= x < p.
Proof.
  unfold units. rewrite in_map_iff. split.
  - intros (k & <- & Hk). apply in_seq in Hk. lia.
  - intros Hx. exists (Z.to_nat x). split; [lia|]. apply in_seq. lia.
Qed.

Lemma NoDup_units p : NoDup (units p).
Proof.
  unfold units. apply NoDup_fmap_2; [|apply NoDup_ListNoDup, seq_NoDup].
  intros x y. apply Nat2Z.inj.
Qed.

Lemma length_units p : 1 <= p -> Z.of_nat (length (units p)) = p - 1.
Proof. intros. unfold units. rewrite length_map, length_seq. lia. Qed.

Lemma prime_not_divide p x : Z.prime p -> 1 <= x < p -> ~ (p | x).
Proof.
  intros Hp Hx Hd. apply Z.divide_pos_le in Hd; lia.
Qed.

Lemma prime_gt_1 p : Z.prime p -> 1 < p.
Proof. intros [H _]. exact H. Qed.

Lemma mod_eq_divide a b p : 0 < p -> a mod p = b mod p -> (p | a - b).
Proof.
  intros Hp Heq. exists (a / p - b / p).
  pose proof (Z.div_mod a p ltac:(lia)). pose proof (Z.div_mod b p ltac:(lia)).
  nia.
Qed.

Lemma mulmod_unit p a x :
  Z.prime p -> 1 <= a < p -> 1 <= x < p -> 1 <= (a * x) mod p < p.
Proof.
  intros Hp Ha Hx. pose proof (prime_gt_1 p Hp) as Hp1.
  pose proof (Z.mod_pos_bound (a * x) p ltac:(lia)) as Hb.
  assert (Hnz : (a * x) mod p <> 0).
  { intros H0. apply Z.mod_divide in H0; [|lia].
    apply Z.divide_prime_mul in H0; [|assumption].
    destruct H0 as [H0|H0]; eapply prime_not_divide in H0; eauto. }
  lia.
Qed.

Lemma mulmod_inj p a x y :
  Z.prime p -> 1 <= a < p -> 1 <= x < p -> 1 <= y < p ->
  (a * x) mod p = (a * y) mod p -> x = y.
Proof.
  intros Hp Ha Hx Hy Heq. pose proof (prime_gt_1 p Hp) as Hp1.
  apply mod_eq_divide in Heq; [|lia].
  replace (a * x - a * y) with (a * (x - y)) in Heq by ring.
  apply Z.divide_prime_mul in Heq; [|assumption].
  destruct Heq as [Hd|Hd]; [eapply prime_not_divide in Hd; eauto; tauto|].
  destruct (Z.eq_dec x y) as [|Hne]; [assumption|exfalso].
  destruct (Z_lt_le_dec y x).
  - apply Z.divide_pos_le in Hd; lia.
  - apply Z.divide_opp_r in Hd. apply Z.divide_pos_le in Hd; lia.
Qed.

Lemma units_mul_perm p a :
  Z.prime p -> 1 <= a < p ->
  map (fun x => (a * x) mod p) (units p) ≡ₚ units p.
Proof.
  intros Hp Ha. apply NoDup_Permutation_bis.
  - apply NoDup_ListNoDup. apply NoDup_fmap_2_strong; [|apply NoDup_units].
    intros x y Hx Hy. apply list_elem_of_In, in_units in Hx.
    apply list_elem_of_In, in_units in Hy. apply mulmod_inj; auto.
  - rewrite length_map. lia.
  - intros z Hz. apply in_map_iff in Hz as (x & <- & Hx).
    apply in_units in Hx. apply in_units. apply mulmod_unit; auto.
Qed.

Lemma zprod_map_mulmod p a l :
  0 < p ->
  zprod (map (fun x => (a * x) mod p) l) mod p
    = (a ^ Z.of_nat (length l) * zprod l) mod p.
Proof.
  intros Hp. induction l as [|x l IH].
  - reflexivity.
  - cbn [map length]. rewrite !zprod_cons.
    rewrite Z.mul_mod_idemp_l by lia.
    rewrite <- Z.mul_mod_idemp_r, IH, Z.mul_mod_idemp_r by lia.
    rewrite Nat2Z.inj_succ, Z.pow_succ_r by lia. f_equal. ring.
Qed.

Lemma zprod_units_not_divide p l :
  Z.prime p -> (forall x, In x l -> 1 <= x < p) -> ~ (p | zprod l).
Proof.
  intros Hp. induction l as [|x l IH]; intros Hl Hd.
  - cbn in Hd. apply Z.divide_1_r in Hd. pose proof (prime_gt_1 p Hp). lia.
  - rewrite zprod_cons in Hd. apply Z.divide_prime_mul in Hd; [|assumption].
    destruct Hd as [Hd|Hd].
    + eapply prime_not_divide in Hd; eauto. apply Hl. left. reflexivity.
    + apply IH; [|assumption]. intros y Hy. apply Hl. right. assumption.
Qed.

Lemma fermat_little p a :
  Z.prime p -> 1 <= a < p -> a ^ (p - 1) mod p = 1.
Proof.
  intros Hp Ha. pose proof (prime_gt_1 p Hp) as Hp1.
  pose proof (zprod_map_mulmod p a (units p) ltac:(lia)) as Hm.
  rewrite (zprod_perm _ _ (units_mul_perm p a Hp Ha)) in Hm.
  rewrite length_units in Hm by lia.
  symmetry in Hm. apply mod_eq_divide in Hm; [|lia].
  replace (a ^ (p - 1) * zprod (units p) - zprod (units p))
    with ((a ^ (p - 1) - 1) * zprod (units p)) in Hm by ring.
  apply Z.divide_prime_mul in Hm; [|assumption].
  destruct Hm as [Hd|Hd].
  - destruct Hd as [q Hq].
    replace (a ^ (p - 1)) with (1 + q * p) by lia.
    rewrite Z.mod_add by lia. apply Z.mod_small. lia.
  - exfalso. eapply zprod_units_not_divide; eauto.
    intros x Hx. apply in_units. assumption.
Qed.

Lemma prime_sqrt_one p x :
  Z.prime p -> 0 <= x < p -> (x * x) mod p = 1 -> x = 1 \/ x = p - 1.
Proof.
  intros Hp Hx Hsq. pose proof (prime_gt_1 p Hp) as Hp1.
  assert (Hd : (p | (x - 1) * (x + 1))).
  { replace ((x - 1) * (x + 1)) with (x * x - 1) by ring.
    apply mod_eq_divide; [lia|]. rewrite Hsq. symmetry. apply Z.mod_small. lia. }
  apply Z.divide_prime_mul in Hd; [|assumption].
  destruct (Z.eq_dec x 0) as [->|Hx0].
  { cbn in Hsq. rewrite Z.mod_0_l in Hsq by lia. discriminate. }
  destruct (Z.eq_dec x 1) as [|Hx1]; [left; assumption|].
  destruct Hd as [Hd|Hd].
  - apply Z.divide_pos_le in Hd; lia.
  - apply Z.divide_pos_le in Hd; [|lia]. right. lia.
Qed.

Lemma odd_pow_two_decomp m :
  0 < m -> exists u t, Z.odd u = true /\ 0 <= t /\ m = u * 2 ^ t.
Proof.
  intros Hm. assert (H0 : 0 <= m) by lia. revert Hm. pattern m.
  apply Z_lt_induction; [|exact H0].
  clear m H0. intros m IH Hm.
  destruct (Z.odd m) eqn:Hodd.
  - exists m, 0. rewrite Z.mul_1_r. auto with zarith.
  - assert (Hev : Z.even m = true) by (rewrite <- Z.negb_odd, Hodd; reflexivity).
    apply Z.even_spec in Hev as [h Hh].
    destruct (IH h ltac:(lia) ltac:(lia)) as (u & t & Hu & Ht & Hut).
    exists u, (t + 1). split; [assumption|]. split; [lia|].
    rewrite Z.pow_add_r, Z.pow_1_r by lia. lia.
Qed.

(** ** The primality test of utilities-rand-uint64.c *)

Lemma represent_loop64_eq fuel : forall c s,
  0 <= c -> c + Z.of_nat fuel < 2 ^ 64 ->
  RandUint64.represent_loop fuel c s = UtilitiesDs.represent_loop fuel c s.
Proof.
  induction fuel as [|fuel IH]; intros c s Hc Hf; cbn.
  - reflexivity.
  - destruct (s =? 0); [reflexivity|].
    rewrite (u64_small (c + 1)) by lia. apply IH; lia.
Qed.

Lemma represent_rand_odd_pow_two u j :
  Z.odd u = true -> 0 <= j -> 0 < u * 2 ^ j < 2 ^ 64 ->
  RandUint64.represent_uint64 (u * 2 ^ j) = Ok (j, u).
Proof.
  intros Hu Hj Hn.
  assert (Hup : 0 < u) by nia.
  assert (Hj63 : j <= 63).
  { destruct (Z_le_gt_dec j 63) as [|Hgt]; [assumption|].
    assert (2 ^ 64 <= 2 ^ j) by (apply Z.pow_le_mono_r; lia). nia. }
  unfold RandUint64.represent_uint64, RandUint64.FULL_BIT_COUNT.
  rewrite represent_loop64_eq by (cbn; lia).
  rewrite <- (u64_small (u * 2 ^ j)) at 1 by lia.
  rewrite (represent_loop_spec (Z.to_nat (64 - j)) 64 0 u j); try lia; [|exact Hu].
  replace (64 - (0 + (64 - j))) with j by lia.
  rewrite (u64_small j) by lia.
  destruct (Z.ltb_spec j 64); [|lia].
  rewrite Z.shiftr_div_pow2, Z.div_mul by lia. reflexivity.
Qed.

(** X12.  [represent_uint64], in utilities-ds.c and in
    utilities-rand-uint64.c, inverts the representation [u * 2 ^ j] with
    odd [u]: on a non-zero 64-bit [n = u * 2 ^ j] it returns [k = j] and
    [u], so [n = u * 2 ^ k] with [u] odd. *)
Theorem represent_uint64_odd_pow_two u j :
  Z.odd u = true -> 0 <= j -> 0 < u * 2 ^ j < 2 ^ 64 ->
  UtilitiesDs.represent_uint64 (u * 2 ^ j) = Ok (j, u) /\
  RandUint64.represent_uint64 (u * 2 ^ j) = Ok (j, u).
Proof.
  intros Hu Hj Hn. split.
  - apply represent_ds_odd_pow_two; assumption.
  - apply represent_rand_odd_pow_two; assumption.
Qed.

Section PrimalityFacts.

Import RandUint64.

Variable pow_mod : Z -> Z -> Z -> Z.
Hypothesis pow_mod_spec : forall a k n, 0 < n -> pow_mod a k n = a ^ k mod n.

Local Abbreviation witness_loop := (witness_loop pow_mod).
Local Abbreviation witness := (witness pow_mod).
Local Abbreviation composite := (composite pow_mod).
Local Abbreviation miller_rabin_uint64 := (miller_rabin_uint64 pow_mod).

Lemma chain_succ a u n i :
  0 < n -> 0 <= u -> 0 <= i -> pow_mod (chain a u n i) 2 n = chain a u n (i + 1).
Proof.
  intros Hn Hu Hi. unfold chain. rewrite pow_mod_spec by lia.
  rewrite Z.mod_pow_l, <- Z.pow_mul_r by (try apply Z.mul_nonneg_nonneg; lia).
  f_equal. f_equal. rewrite Z.pow_add_r, Z.pow_1_r by lia. ring.
Qed.

Lemma witness_loop_cases a u n t fuel : forall i,
  1 < n < 2 ^ 64 -> 0 <= u -> 0 <= i < t -> t <= 64 ->
  Z.of_nat fuel = t - i ->
  witness_loop fuel i t n (chain a u n i) (chain a u n (i + 1)) = Ok (inl 1) \/
  witness_loop fuel i t n (chain a u n i) (chain a u n (i + 1))
    = Ok (inr (chain a u n t)).
Proof.
  induction fuel as [|fuel IH]; intros i Hn Hu Hi Ht Hf; [lia|].
  cbn [RandUint64.witness_loop].
  destruct (Z.ltb_spec i t); [|lia].
  destruct (_ && _); [left; reflexivity|].
  rewrite (u64_small (t - 1)), (u64_small (i + 1)) by lia.
  destruct (Z.ltb_spec i (t - 1)) as [Hlt|Hge].
  - rewrite chain_succ by lia. apply IH; lia.
  - assert (i + 1 = t) as Hit by lia. rewrite Hit.
    destruct fuel as [|fuel]; cbn [RandUint64.witness_loop];
      (destruct (Z.ltb_spec t t); [lia|]); right; reflexivity.
Qed.

Lemma witness_loop_prime a u n t fuel : forall i,
  Z.prime n -> n < 2 ^ 64 -> 0 <= u -> 0 <= i < t -> t <= 64 ->
  Z.of_nat fuel = t - i ->
  chain a u n t = 1 ->
  witness_loop fuel i t n (chain a u n i) (chain a u n (i + 1))
    = Ok (inr (chain a u n t)).
Proof.
  intros i Hp. pose proof (Z.prime_ge_2 n Hp) as Hn2. revert i.
  induction fuel as [|fuel IH]; intros i Hn Hu Hi Ht Hf Hend; [lia|].
  cbn [RandUint64.witness_loop].
  destruct (Z.ltb_spec i t); [|lia].
  rewrite (u64_small (n - 1)), (u64_small (t - 1)), (u64_small (i + 1)) by lia.
  assert (Hgood : (chain a u n (i + 1) =? 1) &&
                  negb ((chain a u n i =? 1) || (chain a u n i =? n - 1)) = false).
  { destruct (Z.eqb_spec (chain a u n (i + 1)) 1) as [H1|_]; [|reflexivity].
    cbn [andb].
    assert (Hsq : (chain a u n i * chain a u n i) mod n = 1).
    { rewrite <- H1, <- chain_succ, pow_mod_spec by lia.
      f_equal. ring. }
    apply prime_sqrt_one in Hsq; [|assumption|apply Z.mod_pos_bound; lia].
    destruct Hsq as [-> | ->].
    - reflexivity.
    - rewrite Z.eqb_refl, orb_true_r. reflexivity. }
  rewrite Hgood.
  destruct (Z.ltb_spec i (t - 1)) as [Hlt|Hge].
  - rewrite chain_succ by lia. apply IH; auto; lia.
  - assert (i + 1 = t) as Hit by lia. rewrite Hit.
    destruct fuel as [|fuel]; cbn [RandUint64.witness_loop];
      (destruct (Z.ltb_spec t t); [lia|]); reflexivity.
Qed.

Lemma witness_unfold a n u t :
  Z.odd u = true -> 1 <= t -> 2 < n < 2 ^ 64 -> n - 1 = u * 2 ^ t ->
  witness a n =
    match witness_loop (Z.to_nat t) 0 t n (chain a u n 0) (chain a u n 1) with
    | Ok (inl r) => Ok r
    | Ok (inr x1') => if negb (x1' =? 1) then Ok 1 else Ok 0
    | Fatal => Fatal
    | Undef => Undef
    | OutOfFuel => OutOfFuel
    end.
Proof.
  intros Hu Ht Hn Hdec. unfold RandUint64.witness.
  assert (Hu0 : 0 < u) by nia.
  rewrite (u64_small (n - 1)) by lia. rewrite Hdec.
  rewrite represent_rand_odd_pow_two by (auto; lia).
  assert (Hx0 : pow_mod a u n = chain a u n 0).
  { unfold chain. rewrite pow_mod_spec by lia. rewrite Z.mul_1_r. reflexivity. }
  rewrite Hx0.
  change 1 with (0 + 1) at 2. rewrite chain_succ by lia.
  reflexivity.
Qed.

Lemma pred_decomp n :
  2 < n -> Z.odd n = true ->
  exists u t, Z.odd u = true /\ 1 <= t /\ n - 1 = u * 2 ^ t.
Proof.
  intros Hn Hodd.
  destruct (odd_pow_two_decomp (n - 1) ltac:(lia)) as (u & t & Hu & Ht & Hdec).
  exists u, t. split; [assumption|]. split; [|assumption].
  destruct (Z.eq_dec t 0) as [->|]; [|lia].
  rewrite Z.mul_1_r in Hdec. subst u.
  rewrite Z.odd_sub, Hodd in Hu. discriminate.
Qed.

Lemma decomp_bound n u t :
  Z.odd u = true -> 0 <= t -> 2 < n < 2 ^ 64 -> n - 1 = u * 2 ^ t -> t <= 63.
Proof.
  intros Hu Ht Hn Hdec.
  destruct (Z_le_gt_dec t 63) as [|Hgt]; [assumption|].
  assert (2 ^ 64 <= 2 ^ t) by (apply Z.pow_le_mono_r; lia).
  assert (0 < 2 ^ t) by lia. assert (0 < u) by nia.
  assert (2 ^ t <= u * 2 ^ t) by nia. lia.
Qed.

Lemma prime_odd n : Z.prime n -> 2 < n -> Z.odd n = true.
Proof.
  intros [_ Hp] Hn. destruct (Z.odd n) eqn:Hodd; [reflexivity|exfalso].
  assert (Hev : Z.even n = true) by (rewrite <- Z.negb_odd, Hodd; reflexivity).
  apply Z.even_spec in Hev as [h Hh].
  apply (Hp 2); [lia|]. exists h. lia.
Qed.

Lemma witness_prime a n :
  Z.prime n -> 2 < n < 2 ^ 64 -> 1 <= a < n -> witness a n = Ok 0.
Proof.
  intros Hp Hn Ha.
  destruct (pred_decomp n ltac:(lia) (prime_odd n Hp ltac:(lia)))
    as (u & t & Hu & Ht & Hdec).
  pose proof (decomp_bound n u t Hu ltac:(lia) Hn Hdec) as Ht63.
  assert (Hu0 : 0 < u) by nia.
  rewrite (witness_unfold a n u t) by (auto; lia).
  assert (Hend : chain a u n t = 1).
  { unfold chain. rewrite <- Hdec. apply fermat_little; assumption. }
  change 1 with (0 + 1) at 1.
  rewrite witness_loop_prime; auto; try lia.
  rewrite Hend. reflexivity.
Qed.

Lemma witness_fermat a n :
  2 < n < 2 ^ 64 -> Z.odd n = true -> a ^ (n - 1) mod n <> 1 ->
  witness a n = Ok 1.
Proof.
  intros Hn Hodd Hf.
  destruct (pred_decomp n ltac:(lia) Hodd) as (u & t & Hu & Ht & Hdec).
  pose proof (decomp_bound n u t Hu ltac:(lia) Hn Hdec) as Ht63.
  assert (Hu0 : 0 < u) by nia.
  rewrite (witness_unfold a n u t) by (auto; lia).
  change 1 with (0 + 1) at 1.
  destruct (witness_loop_cases a u n t (Z.to_nat t) 0) as [-> | ->];
    try lia; [reflexivity|].
  unfold chain at 1. rewrite <- Hdec.
  destruct (Z.eqb_spec (a ^ (n - 1) mod n) 1); [contradiction|reflexivity].
Qed.

Lemma composite_prime n trials : forall s,
  Z.prime n -> 2 < n < 2 ^ 64 -> in_range s ->
  match composite n trials s with
  | Ok (r, s') => r = 0 /\ in_range s'
  | OutOfFuel => True
  | _ => False
  end.
Proof.
  intros s Hp Hn. revert s.
  induction trials as [|trials IH]; intros s Hs; cbn [RandUint64.composite].
  - cbn. auto.
  - rewrite (u64_small (n - 2)) by lia. unfold gbind.
    pose proof (random_range_uint64_safe (n - 2) s ltac:(lia) Hs) as Hsafe.
    destruct (random_range_uint64 (n - 2) s) as [[r s1]| | |]; try tauto.
    destruct Hsafe as [Hr Hs1].
    rewrite (u64_small (2 + r)) by lia.
    rewrite witness_prime by (auto; lia).
    cbn [negb Z.eqb]. apply IH. assumption.
Qed.

(** X20.  [miller_rabin_uint64] never reports a prime below 2^64 as
    composite: whatever the generator returns, the test of a prime [n]
    returns 1 whenever it returns (it only stops early when the list of
    generator values is exhausted), and it never aborts. *)
Theorem miller_rabin_accepts_primes n s :
  Z.prime n -> n < 2 ^ 64 -> in_range s ->
  match miller_rabin_uint64 n s with
  | Ok (r, s') => r = 1
  | OutOfFuel => True
  | _ => False
  end.
Proof.
  intros Hp Hn Hs. pose proof (Z.prime_ge_2 n Hp) as Hn2.
  unfold RandUint64.miller_rabin_uint64.
  destruct (Z.eqb_spec n 2) as [->|Hne2]; [reflexivity|].
  destruct (Z.eqb_spec n 1) as [?|_]; [lia|]. cbn [orb].
  rewrite land_1_even by lia.
  pose proof (prime_odd n Hp ltac:(lia)) as Hodd.
  rewrite Zodd_mod in Hodd.
  destruct (Z.eqb_spec (n mod 2) 0) as [H0|_].
  { rewrite H0 in Hodd. discriminate. }
  unfold gbind.
  pose proof (composite_prime n COMPOSITE_TRIALS s Hp ltac:(lia) Hs) as Hc.
  destruct (composite n COMPOSITE_TRIALS s) as [[c s1]| | |]; try tauto.
  destruct Hc as [-> _]. reflexivity.
Qed.

(** X21.  [miller_rabin_uint64] answers for 2 (prime), and for 1 and
    the even numbers other than 2 (not prime), without a draw from the
    generator. *)
Theorem miller_rabin_small_cases n s :
  0 <= n < 2 ^ 64 ->
  (n = 2 -> miller_rabin_uint64 n s = Ok (1, s)) /\
  (n = 1 \/ (n <> 2 /\ Z.even n = true) -> miller_rabin_uint64 n s = Ok (0, s)).
Proof.
  intros Hn. unfold RandUint64.miller_rabin_uint64. split.
  - intros ->. reflexivity.
  - intros [->|[Hne Hev]]; [reflexivity|].
    destruct (Z.eqb_spec n 2) as [?|_]; [contradiction|].
    rewrite land_1_even by lia.
    rewrite Zeven_mod in Hev. rewrite Hev, orb_true_r. reflexivity.
Qed.

(** X18.  [witness a n] returns 0 for every prime [n] with
    [2 < n < 2^64] and every base [1 <= a < n]: no base is a witness of
    the compositeness of a prime. *)
Theorem witness_prime_never a n :
  Z.prime n -> 2 < n < 2 ^ 64 -> 1 <= a < n -> witness a n = Ok 0.
Proof. apply witness_prime. Qed.

(** X19.  [witness a n] returns 1 for every odd [n] with
    [2 < n < 2^64] and every base [a] that fails Fermat's test,
    [a ^ (n - 1) mod n <> 1]. *)
Theorem witness_detects_fermat a n :
  2 < n < 2 ^ 64 -> Z.odd n = true -> a ^ (n - 1) mod n <> 1 ->
  witness a n = Ok 1.
Proof. apply witness_fermat. Qed.

(** X22.  [miller_rabin_uint64] reports an odd [n] with [2 < n < 2^64]
    as composite as soon as the first base it draws fails Fermat's
    test. *)
Theorem miller_rabin_rejects_fermat_failure n s r s' :
  2 < n < 2 ^ 64 -> Z.odd n = true -> in_range s ->
  random_range_uint64 (n - 2) s = Ok (r, s') ->
  (2 + r) ^ (n - 1) mod n <> 1 ->
  miller_rabin_uint64 n s = Ok (0, s').
Proof.
  intros Hn Hodd Hs Hdraw Hf.
  unfold RandUint64.miller_rabin_uint64.
  destruct (Z.eqb_spec n 2) as [?|_]; [lia|].
  destruct (Z.eqb_spec n 1) as [?|_]; [lia|]. cbn [orb].
  rewrite land_1_even by lia. pose proof Hodd as Hmod.
  rewrite Zodd_mod in Hmod.
  destruct (Z.eqb_spec (n mod 2) 0) as [H0|_].
  { rewrite H0 in Hmod. discriminate. }
  unfold COMPOSITE_TRIALS. cbn [RandUint64.composite].
  rewrite (u64_small (n - 2)) by lia. unfold gbind at 1 2. rewrite Hdraw.
  pose proof (random_range_uint64_safe (n - 2) s ltac:(lia) Hs) as Hsafe.
  rewrite Hdraw in Hsafe. destruct Hsafe as [Hr _].
  rewrite (u64_small (2 + r)) by lia.
  rewrite witness_fermat by (auto; lia). reflexivity.
Qed.

End PrimalityFacts.

(** * A concrete instance *)

Lemma cmp_uchar_sym a b : 0 < cmp_uchar a b <-> cmp_uchar b a < 0.
Proof. unfold cmp_uchar. lia. Qed.

Lemma cmp_uchar_trans a b c :
  cmp_uchar a b <= 0 -> cmp_uchar b c <= 0 -> cmp_uchar a c <= 0.
Proof. unfold cmp_uchar. lia. Qed.

Lemma after_run {A} (m : M A) h :
  returns m h = true -> exists a l, m h = Ok (a, after m h, l).
Proof.
  unfold returns, after. destruct (m h) as [[[a h'] l]| | |]; try discriminate.
  eauto.
Qed.

Lemma built_after_push cmp h p e :
  built cmp h -> returns (heap_uint32_push cmp p e) h = true ->
  built cmp (after (heap_uint32_push cmp p e) h).
Proof.
  intros Hb Hret. destruct (after_run _ _ Hret) as ([] & l & Hrun).
  eapply built_push; eauto.
Qed.

Lemma built_after_update cmp h p e :
  built cmp h -> returns (heap_uint32_update cmp p e) h = true ->
  built cmp (after (heap_uint32_update cmp p e) h).
Proof.
  intros Hb Hret. destruct (after_run _ _ Hret) as ([] & l & Hrun).
  eapply built_update; eauto.
Qed.

Lemma distinct_after_push cmp h p e :
  reachable_distinct cmp h -> ht h !! e = None ->
  returns (heap_uint32_push cmp p e) h = true ->
  reachable_distinct cmp (after (heap_uint32_push cmp p e) h).
Proof.
  intros Hr Hfresh Hret. destruct (after_run _ _ Hret) as ([] & l & Hrun).
  eapply reachd_push; eauto. rewrite search_run, Hfresh. reflexivity.
Qed.

Lemma ex_heap0_init : heap_uint32_init ex_mem 1 1 1 = Ok ex_heap0.
Proof. vm_compute. reflexivity. Qed.

Lemma ex_heap4_built : built cmp_uchar ex_heap4.
Proof.
  repeat (apply built_after_push; [|vm_compute; reflexivity]).
  apply (built_init cmp_uchar ex_mem 1 1 1); [lia|exact ex_heap0_init].
Qed.

Lemma ex_heap4_distinct : reachable_distinct cmp_uchar ex_heap4.
Proof.
  repeat (apply distinct_after_push;
          [|vm_compute; reflexivity|vm_compute; reflexivity]).
  apply (reachd_init cmp_uchar ex_mem 1 1 1); [lia|exact ex_heap0_init].
Qed.

Lemma ex_heap1_distinct : reachable_distinct cmp_uchar ex_heap1.
Proof.
  apply distinct_after_push; [|vm_compute; reflexivity|vm_compute; reflexivity].
  apply (reachd_init cmp_uchar ex_mem 1 1 1); [lia|exact ex_heap0_init].
Qed.

Lemma ex_heap4_reachable : reachable cmp_uchar ex_heap4.
Proof. apply reachable_distinct_reachable. exact ex_heap4_distinct. Qed.

Lemma ex_heap1_reachable : reachable cmp_uchar ex_heap1.
Proof. apply reachable_distinct_reachable. exact ex_heap1_distinct. Qed.

Lemma ex_heap4_counters :
  num_elts ex_heap4 = 4 /\ heap_size ex_heap4 = 4 /\
  heap_max_size ex_heap4 = 4294967294.
Proof. vm_compute. auto. Qed.

Lemma ex_heap1_counters :
  num_elts ex_heap1 = 1 /\ heap_size ex_heap1 = 1 /\
  heap_max_size ex_heap1 = 4294967294.
Proof. vm_compute. auto. Qed.

Lemma ex_heap4_fits : fits ex_heap4 (push_size ex_heap4).
Proof. vm_compute. repeat split; discriminate. Qed.

Lemma ex_heap4_grants : grants_growth ex_heap4.
Proof. vm_compute. reflexivity. Qed.

Lemma ex_heap4_not_at_capacity : ~ at_capacity ex_heap4.
Proof.
  unfold at_capacity. destruct ex_heap4_counters as (_ & Hs & Hm).
  rewrite Hs, Hm. lia.
Qed.

(** A byte count that wraps: 2^30 slots of 4 bytes make two requests of
    0 bytes.  When they are granted the arrays hold no slot, and the
    first push writes outside them. *)
Lemma init_wrapped_byte_count :
  exists h,
    heap_uint32_init ex_mem (2 ^ 30) 4 4 = Ok h /\
    heap_size h = 2 ^ 30 /\ ptys h = [] /\ elts h = [] /\
    heap_uint32_push cmp_uchar [Byte.x05] [Byte.x61] h = Undef.
Proof.
  eexists. split; [vm_compute; reflexivity|].
  split; [reflexivity|]. split; [reflexivity|]. split; reflexivity.
Qed.

Lemma ex_tight_heap1_reachable : reachable cmp_uchar ex_tight_heap1.
Proof.
  apply reachable_distinct_reachable.
  apply distinct_after_push; [|vm_compute; reflexivity|vm_compute; reflexivity].
  apply (reachd_init cmp_uchar [true; true; true] 1 1 1); [lia|].
  vm_compute. reflexivity.
Qed.

(** * Instances of the theorems, and inputs that refute three claims as
    they were stated *)

Lemma pop_sequence_nondecreasing_witness :
  exists out h' l,
    pop_all cmp_uchar (Z.to_nat (num_elts ex_heap4)) [] [] ex_heap4
      = Ok (out, h', l) /\
    num_elts h' = 0 /\
    Z.of_nat (length out) = num_elts ex_heap4 /\
    out ≡ₚ contents ex_heap4 /\
    Sorted (fun p q => cmp_uchar p q <= 0) (map fst out).
Proof.
  exact (pop_sequence_nondecreasing cmp_uchar cmp_uchar_sym cmp_uchar_trans
           ex_heap4 [] [] ex_heap4_built).
Defined.

Lemma heap_order_reachable_witness :
  cmp_uchar (sel (ptys ex_heap4) 3) (sel (ptys ex_heap4) ((3 - 1) / 2)) >= 0.
Proof.
  apply (heap_order_reachable cmp_uchar cmp_uchar_sym cmp_uchar_trans
           ex_heap4 ex_heap4_reachable 3).
  vm_compute. split; reflexivity.
Defined.

Lemma side_index_consistent_witness :
  (exists h',
      swap 0 3 ex_heap4 =
        Ok (tt, h', [EvSwap 0 3; EvUpsert (sel (elts h') 0) 0;
                     EvUpsert (sel (elts h') 3) 3]) /\
      sel (elts h') 0 = sel (elts ex_heap4) 3 /\
      ht h' = <[sel (elts h') 3 := 3]>
                (<[sel (elts h') 0 := 0]> (ht ex_heap4))) /\
  ht ex_heap4 !! sel (elts ex_heap4) 2 = Some 2.
Proof.
  destruct (side_index_consistent cmp_uchar cmp_uchar_sym cmp_uchar_trans)
    as [Hswap Hindex].
  destruct ex_heap4_counters as (Hn & _).
  split.
  - destruct (Hswap ex_heap4 0 3) as (h' & Hrun & _ & _ & He & _ & _ & Hht).
    + apply (reachable_invariant cmp_uchar cmp_uchar_sym cmp_uchar_trans).
      exact ex_heap4_reachable.
    + rewrite Hn. lia.
    + rewrite Hn. lia.
    + lia.
    + exists h'. split; [exact Hrun|]. split; [exact He|exact Hht].
  - destruct (Hindex ex_heap4 ex_heap4_distinct) as (Hcomplete & _).
    apply Hcomplete. rewrite Hn. lia.
Defined.






Lemma pop_empty_noop_witness :
  heap_uint32_pop cmp_uchar [Byte.x07] [Byte.x08] ex_heap0
    = Ok (([Byte.x07], [Byte.x08]), ex_heap0, []).
Proof.
  apply (pop_empty_noop cmp_uchar ex_heap0 [Byte.x07] [Byte.x08]).
  vm_compute. reflexivity.
Defined.

Lemma heapify_down_in_bounds_witness :
  0 < num_elts ex_heap4 <= 4294967294 /\
  exists h' l,
    heapify_down cmp_uchar 0 ex_heap4 = Ok (tt, h', l) /\
    Forall (event_in_bounds (num_elts ex_heap4)) l /\
    Forall (fun ev => Forall (fun s => 0 <= s < num_elts ex_heap4)
                        (event_slots ev)) l.
Proof.
  apply (heapify_down_in_bounds cmp_uchar ex_heap4 0).
  - apply (reachable_invariant cmp_uchar cmp_uchar_sym cmp_uchar_trans).
    exact ex_heap4_reachable.
  - destruct ex_heap4_counters as (Hn & _). rewrite Hn. lia.
Defined.

Lemma ex_primes_pos : Forall (fun p => 0 < p) ex_primes.
Proof. unfold ex_primes. repeat apply Forall_cons_2; try lia. apply Forall_nil_2. Qed.

Lemma ex_table_reachable : HtDivchn.ht_reachable ex_primes ex_table.
Proof.
  unfold ex_table. cbn [fold_left].
  repeat apply HtDivchn.ht_reach_insert.
  apply (HtDivchn.ht_reach_init ex_primes 1 4 0 3 1); [lia|].
  vm_compute. reflexivity.
Qed.

Lemma ex_table_counters :
  HtDivchn.num_elts ex_table = 9 /\ HtDivchn.count ex_table = 11 /\
  HtDivchn.count_ix ex_table = 1%nat.
Proof. vm_compute. auto. Qed.

Lemma ex_primes_spaced :
  HtDivchn.spaced ex_primes (HtDivchn.alpha_n ex_table)
    (HtDivchn.log_alpha_d ex_table).
Proof.
  change (HtDivchn.alpha_n ex_table) with 3.
  change (HtDivchn.log_alpha_d ex_table) with 1.
  intros i p q Hp Hq. unfold ex_primes in *.
  destruct i as [|[|[|i]]]; cbn in Hp, Hq; try discriminate;
    injection Hp as <-; injection Hq as <-; lia.
Qed.



(** * Instances of the further properties *)

Lemma ex_stream_in_range : in_range ex_stream.
Proof.
  unfold in_range, ex_stream, RAND_MAX.
  repeat apply Forall_cons_2; try lia. apply Forall_nil_2.
Qed.

Lemma ex_draws_in_range : in_range ex_draws.
Proof.
  unfold in_range, ex_draws, RAND_MAX. apply Forall_forall.
  intros v Hv. apply list_elem_of_In, repeat_spec in Hv. lia.
Qed.

Lemma ex_pow_mod_spec a k n : 0 < n -> ex_pow_mod a k n = a ^ k mod n.
Proof. reflexivity. Qed.

Lemma prime_7 : Z.prime 7.
Proof.
  split; [lia|]. intros n Hn [q Hq].
  assert (Hc : n = 2 \/ n = 3 \/ n = 4 \/ n = 5 \/ n = 6) by lia.
  destruct Hc as [->|[->|[->|[->| ->]]]]; lia.
Qed.


Lemma pop_removes_minimum_witness :
  exists p e h' l,
    heap_uint32_pop cmp_uchar [] [] ex_heap4 = Ok ((p, e), h', l) /\
    num_elts h' = num_elts ex_heap4 - 1 /\
    (p, e) :: contents h' ≡ₚ contents ex_heap4 /\
    Forall (fun qx => cmp_uchar p (fst qx) <= 0) (contents ex_heap4).
Proof.
  apply (pop_removes_minimum cmp_uchar cmp_uchar_sym cmp_uchar_trans ex_heap4
           [] [] ex_heap4_reachable).
  destruct ex_heap4_counters as (Hn & _). rewrite Hn. lia.
Defined.

Lemma update_replaces_priority_witness :
  exists q h' l,
    contents ex_heap4 !! Z.to_nat 2 = Some (q, [Byte.x63]) /\
    heap_uint32_update cmp_uchar [Byte.x00] [Byte.x63] ex_heap4
      = Ok (tt, h', l) /\
    num_elts h' = num_elts ex_heap4 /\
    contents h' ≡ₚ
      <[Z.to_nat 2 := ([Byte.x00], [Byte.x63])]> (contents ex_heap4).
Proof.
  apply (update_replaces_priority cmp_uchar cmp_uchar_sym cmp_uchar_trans
           ex_heap4 [Byte.x00] [Byte.x63] 2 ex_heap4_reachable).
  vm_compute. reflexivity.
Defined.

Lemma search_finds_exactly_present_witness :
  (exists ix q,
      heap_uint32_search [Byte.x63] ex_heap4 = Ok (Some ix, ex_heap4, []) /\
      0 <= ix < num_elts ex_heap4 /\
      contents ex_heap4 !! Z.to_nat ix = Some (q, [Byte.x63])) \/
  (heap_uint32_search [Byte.x63] ex_heap4 = Ok (None, ex_heap4, []) /\
   [Byte.x63] ∉ (contents ex_heap4).*2).
Proof.
  exact (search_finds_exactly_present cmp_uchar cmp_uchar_sym cmp_uchar_trans
           ex_heap4 [Byte.x63] ex_heap4_distinct).
Defined.

Lemma update_absent_aborts_witness :
  heap_uint32_update cmp_uchar [Byte.x00] [Byte.x65] ex_heap4 = Fatal.
Proof.
  apply (update_absent_aborts cmp_uchar cmp_uchar_sym cmp_uchar_trans
           ex_heap4 [Byte.x00] [Byte.x65] ex_heap4_reachable).
  intros Hin. apply list_elem_of_In in Hin. vm_compute in Hin.
  repeat (destruct Hin as [Hin|Hin]; [discriminate Hin|]). exact Hin.
Defined.


Lemma update_then_search_witness :
  exists h' l ix,
    heap_uint32_update cmp_uchar [Byte.x00] [Byte.x63] ex_heap4
      = Ok (tt, h', l) /\
    heap_uint32_search [Byte.x63] h' = Ok (Some ix, h', []) /\
    0 <= ix < num_elts h' /\
    sel (ptys h') ix = [Byte.x00] /\ sel (elts h') ix = [Byte.x63].
Proof.
  apply (update_then_search cmp_uchar cmp_uchar_sym cmp_uchar_trans ex_heap4
           [Byte.x00] [Byte.x63] 2 ex_heap4_distinct).
  vm_compute. reflexivity.
Defined.

Lemma pop_then_search_witness :
  exists p e h' l,
    heap_uint32_pop cmp_uchar [] [] ex_heap4 = Ok ((p, e), h', l) /\
    (e ∉ (contents h').*2) /\
    heap_uint32_search e h' = Ok (None, h', []).
Proof.
  apply (pop_then_search cmp_uchar cmp_uchar_sym cmp_uchar_trans ex_heap4
           [] [] ex_heap4_distinct).
  destruct ex_heap4_counters as (Hn & _). rewrite Hn. lia.
Defined.



Lemma pow_mod_uint32_correct_witness :
  UtilitiesDs.pow_mod_uint32 3 5 7 = Ok (3 ^ 5 mod 7).
Proof. apply (pow_mod_uint32_correct 3 5 7); lia. Defined.

Lemma represent_uint64_odd_pow_two_witness :
  UtilitiesDs.represent_uint64 (3 * 2 ^ 2) = Ok (2, 3) /\
  RandUint64.represent_uint64 (3 * 2 ^ 2) = Ok (2, 3).
Proof.
  apply (represent_uint64_odd_pow_two 3 2); [reflexivity|lia|lia].
Defined.

Lemma random_range_helper_unbiased_witness :
  UtilitiesDs.random_range_helper 10 ex_stream = draw 10 ex_stream /\
  (forall r s', UtilitiesDs.random_range_helper 10 ex_stream = Ok (r, s') ->
                0 <= r < 10).
Proof.
  apply (random_range_helper_unbiased 10 ex_stream);
    [unfold RAND_MAX; lia|exact ex_stream_in_range].
Defined.

Lemma random_range_uint32_in_range_witness :
  (3000000000 <= RAND_MAX + 1 ->
   UtilitiesDs.random_range_uint32 3000000000 ex_stream
     = draw 3000000000 ex_stream) /\
  (RAND_MAX + 1 < 3000000000 ->
   UtilitiesDs.random_range_uint32 3000000000 ex_stream =
     (let+ a := draw (RAND_MAX + 1) in
      let+ b := draw (3000000000 - RAND_MAX) in
      gret (a + b)) ex_stream) /\
  (forall r s',
     UtilitiesDs.random_range_uint32 3000000000 ex_stream = Ok (r, s') ->
     0 <= r < 3000000000).
Proof.
  apply (random_range_uint32_in_range 3000000000 ex_stream);
    [lia|exact ex_stream_in_range].
Defined.

Lemma random_gen_range_unbiased_witness :
  RandUint32.random_gen_range 10 ex_stream = draw 10 ex_stream /\
  RandUint64.random_gen_range 10 ex_stream = draw 10 ex_stream /\
  (forall r s', draw 10 ex_stream = Ok (r, s') -> 0 <= r < 10).
Proof.
  apply (random_gen_range_unbiased 10 ex_stream);
    [unfold RAND_MAX; lia|exact ex_stream_in_range].
Defined.

Lemma random_mod_pow_two_fields_witness :
  (forall s, in_range s ->
     RandUint64.random_mod_pow_two 40 s = bits_of_draws 40 s /\
     (forall r s', RandUint64.random_mod_pow_two 40 s = Ok (r, s') ->
                   0 <= r < 2 ^ 40)) /\
  (forall x, 0 <= x < 2 ^ 40 ->
     exists s, in_range s /\ RandUint64.random_mod_pow_two 40 s = Ok (x, [])).
Proof. apply (random_mod_pow_two_fields 40). lia. Defined.

Lemma random_range_uint64_in_range_witness :
  (1099511627781 <= RAND_MAX + 1 ->
   RandUint64.random_range_uint64 1099511627781 ex_stream
     = draw 1099511627781 ex_stream) /\
  (RAND_MAX + 1 < 1099511627781 ->
   forall r s',
     bits_of_draws (Z.log2 (1099511627781 - 1) + 1) ex_stream = Ok (r, s') ->
     r < 1099511627781 ->
     RandUint64.random_range_uint64 1099511627781 ex_stream = Ok (r, s')) /\
  match RandUint64.random_range_uint64 1099511627781 ex_stream with
  | Ok (r, s') => 0 <= r < 1099511627781
  | OutOfFuel => True
  | _ => False
  end.
Proof.
  apply (random_range_uint64_in_range 1099511627781 ex_stream);
    [lia|exact ex_stream_in_range].
Defined.

Lemma witness_prime_never_witness : RandUint64.witness ex_pow_mod 2 7 = Ok 0.
Proof.
  apply (witness_prime_never ex_pow_mod ex_pow_mod_spec 2 7 prime_7); lia.
Defined.

Lemma witness_detects_fermat_witness : RandUint64.witness ex_pow_mod 2 9 = Ok 1.
Proof.
  apply (witness_detects_fermat ex_pow_mod ex_pow_mod_spec 2 9);
    [lia|reflexivity|vm_compute; discriminate].
Defined.

Lemma miller_rabin_accepts_primes_witness :
  exists s', RandUint64.miller_rabin_uint64 ex_pow_mod 7 ex_draws = Ok (1, s').
Proof.
  pose proof (miller_rabin_accepts_primes ex_pow_mod ex_pow_mod_spec 7 ex_draws
                prime_7 ltac:(lia) ex_draws_in_range) as H.
  destruct (RandUint64.miller_rabin_uint64 ex_pow_mod 7 ex_draws)
    as [[r s']| | |] eqn:E.
  - exists s'. rewrite H. reflexivity.
  - contradiction.
  - contradiction.
  - vm_compute in E. discriminate E.
Defined.

Lemma miller_rabin_small_cases_witness :
  (4 = 2 -> RandUint64.miller_rabin_uint64 ex_pow_mod 4 ex_stream
              = Ok (1, ex_stream)) /\
  (4 = 1 \/ (4 <> 2 /\ Z.even 4 = true) ->
   RandUint64.miller_rabin_uint64 ex_pow_mod 4 ex_stream = Ok (0, ex_stream)).
Proof. apply (miller_rabin_small_cases ex_pow_mod 4 ex_stream). lia. Defined.

Lemma miller_rabin_rejects_fermat_failure_witness :
  RandUint64.miller_rabin_uint64 ex_pow_mod 9 [0] = Ok (0, []).
Proof.
  apply (miller_rabin_rejects_fermat_failure ex_pow_mod ex_pow_mod_spec
           9 [0] 0 []).
  - lia.
  - reflexivity.
  - unfold in_range, RAND_MAX. apply Forall_cons_2; [lia|apply Forall_nil_2].
  - vm_compute. reflexivity.
  - vm_compute. discriminate.
Defined.

Lemma free_releases_each_element_once_witness :
  (exists h',
     heap_uint32_free true ex_heap4 = Ok ((contents ex_heap4).*2, h', []) /\
     NoDup (contents ex_heap4).*2 /\
     elts h' = [] /\ ptys h' = [] /\ ht h' = ∅) /\
  (exists h',
     heap_uint32_free false ex_heap4 = Ok ([], h', []) /\
     elts h' = [] /\ ptys h' = [] /\ ht h' = ∅).
Proof.
  exact (free_releases_each_element_once cmp_uchar cmp_uchar_sym
           cmp_uchar_trans ex_heap4 ex_heap4_distinct).
Defined.
